(** * jncep: the tracking store and its synchronisation with the remote follows

    A shallow embedding of [jncep/track.py] and of [jncep/epub.py].

    - Python dictionaries are insertion-ordered association lists with at most
      one binding per key ([pydict]); [d[k] = v] updates in place or appends.
    - JSON data read from [tracked.json] is the inductive type [json].
    - What [track.py] imports and does not define appears as an interface:
      [JncWeb] for [jncweb], [Remote] for [core], [spec], [dateutil] and the
      API of the session, [JsonDecoder] and [JsonEncoder] for [json] and
      [addict], [Scheduler] for the nursery of [trio], [Buffering] for the
      buffer of an open file; [PyStr] for [str.title], whose casing follows
      Unicode and is fixed here on ASCII text only.
    - An entry that [track_series] stores is a plain [dict], an entry read
      from the file is an [Addict]: the state records which keys were
      assigned during the run ([assigned]), and reading the attribute [name]
      of a plain [dict], or of a value that is no record, raises.
    - Asynchronous tasks started in a trio nursery are computations in the
      monad [M] over the state they share; a run of the nursery executes the
      started tasks in some order, one after the other.
    - A save is the list of steps that reach the file system, so that an
      interrupted save is a prefix of it.
    - The book that [output_epub] builds with [ebooklib] is the list of the
      calls and assignments it makes on it, in order. *)

From Stdlib Require Import ZArith Ascii String OrdersEx.
From stdpp Require Import base option list strings gmap sorting pretty.

Set Warnings "-register-all,-clear-no-such-hyp".

(** ** Python dictionaries *)

Definition pydict (V : Type) : Type := list (string * V).

Section PyDict.
Context {V : Type}.

(** [d.get(k)] *)
Fixpoint dict_get (k : string) (d : pydict V) : option V :=
  match d with
  | [] => None
  | (k', v) :: d' => if decide (k' = k) then Some v else dict_get k d'
  end.

(** [d.keys()], in iteration order *)
Definition dict_keys (d : pydict V) : list string := d.*1.

(** [k in d] *)
Definition dict_in (k : string) (d : pydict V) : bool :=
  bool_decide (k ∈ dict_keys d).

(** [d[k] = v]: an existing key keeps its position, a new key goes last *)
Fixpoint dict_set (k : string) (v : V) (d : pydict V) : pydict V :=
  match d with
  | [] => [(k, v)]
  | (k', v') :: d' =>
      if decide (k' = k) then (k', v) :: d' else (k', v') :: dict_set k v d'
  end.

(** [del d[k]]; the code only deletes keys it has just read from [d] *)
Definition dict_del (k : string) (d : pydict V) : pydict V :=
  filter (λ kv, kv.1 ≠ k) d.

(** the invariant of a dictionary: no key is bound twice *)
Definition dict_wf (d : pydict V) : Prop := NoDup (dict_keys d).

(** the set of keys *)
Definition key_set (d : pydict V) : gset string := list_to_set (dict_keys d).

(** the body of a loop that stores [h a] under the key [g a] *)
Definition set_step {A} (g : A → string) (h : A → V) (acc : pydict V) (a : A)
  : pydict V :=
  dict_set (g a) (h a) acc.
End PyDict.

(** ** JSON values *)

(** the values that [json.load] builds; a float is kept as its literal *)
Inductive json : Type :=
| JNull
| JBool (b : bool)
| JInt (n : Z)
| JFloat (literal : string)
| JStr (s : string)
| JList (l : list json)
| JObj (members : pydict json).

(** [isinstance(value, dict)] *)
Definition is_dict (value : json) : bool :=
  match value with JObj _ => true | _ => false end.

(** ** The string methods used on slugs

    A string is the sequence of the bytes of its UTF-8 encoding.
    [s.replace("-", " ")] acts on it byte by byte, since no byte of a
    character outside ASCII is an ASCII byte. [s.title()] follows the case
    mappings of the Unicode database for the characters outside ASCII: it is
    an interface, [PyStr], and what it does on ASCII text, [title_from], is
    its law. *)

Definition is_lower (c : ascii) : bool :=
  let n := nat_of_ascii c in (97 <=? n)%nat && (n <=? 122)%nat.

Definition is_upper (c : ascii) : bool :=
  let n := nat_of_ascii c in (65 <=? n)%nat && (n <=? 90)%nat.

Definition to_upper (c : ascii) : ascii :=
  if is_lower c then ascii_of_nat (nat_of_ascii c - 32) else c.

Definition to_lower (c : ascii) : ascii :=
  if is_upper c then ascii_of_nat (nat_of_ascii c + 32) else c.

(** [s.replace(old, new)] for one-character [old] and [new] *)
Fixpoint str_replace (old new : ascii) (s : string) : string :=
  match s with
  | EmptyString => EmptyString
  | String c s' =>
      String (if decide (c = old) then new else c) (str_replace old new s')
  end.

Definition is_ascii (s : string) : bool :=
  forallb (λ c, (nat_of_ascii c <? 128)%nat) (list_ascii_of_string s).

(** [s.title()] on ASCII text: a letter that follows a character that is not
    a letter (or starts the string) is upper-cased, one that follows a letter
    is lower-cased *)
Fixpoint title_from (previous_is_cased : bool) (s : string) : string :=
  match s with
  | EmptyString => EmptyString
  | String c s' =>
      if is_lower c then
        String (if previous_is_cased then c else to_upper c) (title_from true s')
      else if is_upper c then
        String (if previous_is_cased then to_lower c else c) (title_from true s')
      else String c (title_from false s')
  end.

(** [str.title] *)
Class PyStr : Type := {
  str_title : string → string;
  str_title_ascii : ∀ s, is_ascii s = true → str_title s = title_from false s
}.

(** ** Remote objects *)

Record RawFollow : Type := { follow_id : string; follow_title : string }.

Record JNCResource : Type := {
  url : string;
  slug : string;
  follow_raw_data : option RawFollow
}.

Record RawSeries : Type := { series_slug : string; series_title : string }.

Record RawPart : Type := { launch : string }.

Record Part : Type := {
  part_id : string;
  part_raw_data : RawPart;
  (** back reference [part.volume], as the id of the volume *)
  part_volume : option string
}.

Record Volume : Type := {
  volume_id : string;
  (** [volume.parts]; [None] until the parts are fetched *)
  parts : option (list Part);
  (** back reference [volume.series], as the id of the series *)
  volume_series : option string
}.

Record Series : Type := {
  series_id : string;
  raw_data : RawSeries;
  volumes : option (list Volume)
}.

#[global] Instance RawFollow_eq_dec : EqDecision RawFollow.
Proof. solve_decision. Defined.
#[global] Instance JNCResource_eq_dec : EqDecision JNCResource.
Proof. solve_decision. Defined.

(** ** Exceptions *)

Inductive exn : Type :=
| FileNotFoundError
| JSONDecodeError
| NameError
| AttributeError
| RemoteError (what : string).

Inductive result (A : Type) : Type :=
| Ok (a : A)
| Raise (e : exn).
Arguments Ok {A} a.
Arguments Raise {A} e.

(** ** The interfaces of the imported modules *)

(** [jncweb]: URLs of the site *)
Class JncWeb : Type := {
  url_from_series_slug : string → string;
  to_new_website_series_url : string → string;
  resource_from_url : string → JNCResource
}.

(** ** Migration of the stored data *)

Section Migration.
Context {web : JncWeb} {text : PyStr}.

(** the record built for a legacy entry: [{"name": name, "part": value}] *)
Definition legacy_entry (series_slug : string) (value : json) : json :=
  let name := str_title (str_replace "-" " " series_slug) in
  JObj [("name", JStr name); ("part", value)].

(** first loop of [_convert_to_latest_format] *)
Definition convert_step (converted : pydict json) (item : string * json)
  : pydict json :=
  let '(series_url_or_slug, value) := item in
  if negb (is_dict value) then
    let series_slug := series_url_or_slug in
    let series_url := url_from_series_slug series_slug in
    dict_set series_url (legacy_entry series_slug value) converted
  else dict_set series_url_or_slug value converted.

(** second loop of [_convert_to_latest_format] *)
Definition convert_b_step (converted_b : pydict json) (item : string * json)
  : pydict json :=
  let '(legacy_series_url, value) := item in
  let new_series_url := to_new_website_series_url legacy_series_url in
  dict_set new_series_url value converted_b.

Definition _convert_to_latest_format (data : pydict json) : pydict json :=
  let converted := foldl convert_step [] data in
  let converted_b := foldl convert_b_step [] converted in
  converted_b.

(** The rule of the migration for one stored pair: a value that is not a
    record is a legacy entry whose key is a slug, and it becomes a record
    under the URL of the slug; whatever the value, the key is then
    rewritten to the current form of the URL. *)
Definition converted_key (item : string * json) : string :=
  if is_dict item.2 then item.1 else url_from_series_slug item.1.

Definition converted_value (item : string * json) : json :=
  if is_dict item.2 then item.2 else legacy_entry item.1 item.2.

Definition migrated_key (item : string * json) : string :=
  to_new_website_series_url (converted_key item).

Definition migrated_item (item : string * json) : string * json :=
  (migrated_key item, converted_value item).

(** the key that the second loop gives to an item of [converted] *)
Definition new_key (item : string * json) : string :=
  to_new_website_series_url item.1.
End Migration.

(** ** The remote side *)

(** [core], [spec], [dateutil.parser] and the API of the session: each remote
    operation either answers or raises *)
Class Remote : Type := {
  resolve_series : JNCResource → result Series;
  fetch_volumes_meta : string → result (list Volume);
  fetch_parts_meta : string → result (list Part);
  follow_series : string → result unit;
  unfollow_series : string → result unit;
  to_relative_spec_from_part : Part → json;
  dateutil_parse : string → result unit
}.

(** a remote operation, as it is observed from outside *)
Inductive call : Type :=
| resolve_series_call (jnc_resource : JNCResource)
| fetch_volumes_meta_call (series_id : string)
| fetch_parts_meta_call (volume_id : string)
| follow_series_call (series_id : string)
| unfollow_series_call (series_id : string).

(** the tasks that the two synchronisations start: [partial(do_track, r)],
    [partial(do_follow, r)] and [partial(do_undollow, r)] *)
Inductive task : Type :=
| do_track_task (jnc_resource : JNCResource)
| do_follow_task (jnc_resource : JNCResource)
| do_undollow_task (jnc_resource : JNCResource).

Definition task_resource (t : task) : JNCResource :=
  match t with
  | do_track_task r | do_follow_task r | do_undollow_task r => r
  end.

(** ** The state shared by the tasks of one synchronisation *)

Record world : Type := {
  tracked_series : pydict json;
  (** the keys under which a task of this run has stored an entry. What
      [track_series] stores is a plain [dict], which has no attribute,
      whereas a record of the store given to the synchronisation is an
      [Addict], as [read_tracked_series] makes every record it loads, and
      answers any attribute. *)
  assigned : list string;
  new_synced : list string;
  del_synced : list string;
  (** the local variable [series_url] of [sync_series_backward], which the
      closures [do_follow] read when they run *)
  series_url_var : option string;
  (** the task that is running *)
  running : option task;
  (** the remote operations issued so far, each with the task that issued it *)
  calls : list (option task * call)
}.

Definition initial_world (tracked : pydict json) : world :=
  {| tracked_series := tracked; assigned := []; new_synced := [];
     del_synced := []; series_url_var := None; running := None; calls := [] |}.

Definition with_tracked (d : pydict json) (w : world) : world :=
  {| tracked_series := d; assigned := assigned w; new_synced := new_synced w;
     del_synced := del_synced w; series_url_var := series_url_var w;
     running := running w; calls := calls w |}.

Definition with_assigned (l : list string) (w : world) : world :=
  {| tracked_series := tracked_series w; assigned := l;
     new_synced := new_synced w;
     del_synced := del_synced w; series_url_var := series_url_var w;
     running := running w; calls := calls w |}.

Definition with_new_synced (l : list string) (w : world) : world :=
  {| tracked_series := tracked_series w; assigned := assigned w;
     new_synced := l;
     del_synced := del_synced w; series_url_var := series_url_var w;
     running := running w; calls := calls w |}.

Definition with_del_synced (l : list string) (w : world) : world :=
  {| tracked_series := tracked_series w; assigned := assigned w;
     new_synced := new_synced w;
     del_synced := l; series_url_var := series_url_var w;
     running := running w; calls := calls w |}.

Definition with_series_url_var (v : option string) (w : world) : world :=
  {| tracked_series := tracked_series w; assigned := assigned w;
     new_synced := new_synced w;
     del_synced := del_synced w; series_url_var := v;
     running := running w; calls := calls w |}.

Definition with_running (t : option task) (w : world) : world :=
  {| tracked_series := tracked_series w; assigned := assigned w;
     new_synced := new_synced w;
     del_synced := del_synced w; series_url_var := series_url_var w;
     running := t; calls := calls w |}.

Definition with_calls (l : list (option task * call)) (w : world) : world :=
  {| tracked_series := tracked_series w; assigned := assigned w;
     new_synced := new_synced w;
     del_synced := del_synced w; series_url_var := series_url_var w;
     running := running w; calls := l |}.

(** ** Computations over the shared state that may raise *)

Definition M (A : Type) : Type := world → world * result A.

#[global] Instance M_ret : MRet M := λ A a w, (w, Ok a).

#[global] Instance M_bind : MBind M := λ A B f m w,
  match m w with
  | (w', Ok a) => f a w'
  | (w', Raise e) => (w', Raise e)
  end.

Definition raise {A} (e : exn) : M A := λ w, (w, Raise e).

(** [await] of a remote operation: the call is observed, then it answers *)
Definition await {A} (c : call) (answer : result A) : M A :=
  λ w, (with_calls (calls w ++ [(running w, c)]) w, answer).

(** an operation of a library that may raise *)
Definition lift {A} (answer : result A) : M A := λ w, (w, answer).

(** [tracked_series[k] = v], for [v] a dictionary display *)
Definition set_tracked (k : string) (v : json) : M unit :=
  λ w, (with_assigned (assigned w ++ [k])
          (with_tracked (dict_set k v (tracked_series w)) w), Ok tt).

(** [del tracked_series[k]] *)
Definition del_tracked (k : string) : M unit :=
  λ w, (with_tracked (dict_del k (tracked_series w)) w, Ok tt).

(** [series_data.name], for the value [series_data] that the store holds
    under [series_url]: an [Addict] answers, a plain [dict] and a value that
    is not a record raise [AttributeError] *)
Definition getattr_name (series_url : string) (series_data : json) : M unit :=
  λ w, if bool_decide (series_url ∈ assigned w) || negb (is_dict series_data)
       then (w, Raise AttributeError)
       else (w, Ok tt).

(** [new_synced.append(u)] and [del_synced.append(u)] *)
Definition append_new_synced (u : string) : M unit :=
  λ w, (with_new_synced (new_synced w ++ [u]) w, Ok tt).

Definition append_del_synced (u : string) : M unit :=
  λ w, (with_del_synced (del_synced w ++ [u]) w, Ok tt).

(** reading the variable [series_url] from a closure *)
Definition read_series_url_var : M string :=
  λ w, match series_url_var w with
       | Some u => (w, Ok u)
       | None => (w, Raise NameError)
       end.

(** ** Tracking a series *)

Definition set_volume_series (sid : string) (volume : Volume) : Volume :=
  {| volume_id := volume_id volume; parts := parts volume;
     volume_series := Some sid |}.

Definition set_part_volume (vid : string) (part : Part) : Part :=
  {| part_id := part_id part; part_raw_data := part_raw_data part;
     part_volume := Some vid |}.

Definition set_parts (ps : list Part) (volume : Volume) : Volume :=
  {| volume_id := volume_id volume; parts := Some ps;
     volume_series := volume_series volume |}.

Definition set_volumes (vs : list Volume) (series : Series) : Series :=
  {| series_id := series_id series; raw_data := raw_data series;
     volumes := Some vs |}.

(** [l[-1] = x] on a non-empty list *)
Definition set_last {A} (x : A) (l : list A) : list A :=
  match reverse l with
  | [] => []
  | _ :: front => reverse (x :: front)
  end.

(** the date recorded for a series without parts *)
Definition not_started_date : string := "1111-11-11T11:11:11.111Z".

Section Track.
Context {web : JncWeb} {remote : Remote}.

(** the key under which a series is tracked *)
Definition series_key (series : Series) : string :=
  url_from_series_slug (series_slug (raw_data series)).

Definition fill_meta_for_track (series : Series) : M Series :=
  volumes ← await (fetch_volumes_meta_call (series_id series))
                  (fetch_volumes_meta (series_id series));
  let volumes := set_volume_series (series_id series) <$> volumes in
  match last volumes with
  | Some last_volume =>
      parts ← await (fetch_parts_meta_call (volume_id last_volume))
                    (fetch_parts_meta (volume_id last_volume));
      let parts := set_part_volume (volume_id last_volume) <$> parts in
      mret (set_volumes (set_last (set_parts parts last_volume) volumes) series)
  | None => mret (set_volumes volumes series)
  end.

(** [last_part] as [track_series] determines it *)
Definition last_part_of (series : Series) : option Part :=
  match volumes series with
  | Some vs =>
      match last vs with
      | Some last_volume =>
          match parts last_volume with
          | Some ps => last ps
          | None => None
          end
      | None => None
      end
  | None => None
  end.

(** the entry stored for a series *)
Definition tracked_entry (pdate : string) (pn : json) (name : string) : json :=
  JObj [("part_date", JStr pdate); ("part", pn); ("name", JStr name)].

Definition track_series (series : Series) : M unit :=
  series ← fill_meta_for_track series;
  let last_part := last_part_of series in
  pn_pdate ← match last_part with
             | None => mret (JInt 0, not_started_date)
             | Some last_part =>
                 let pn := to_relative_spec_from_part last_part in
                 let pdate := launch (part_raw_data last_part) in
                 _ ← lift (dateutil_parse (launch (part_raw_data last_part)));
                 mret (pn, pdate)
             end;
  let series_url := url_from_series_slug (series_slug (raw_data series)) in
  set_tracked series_url
    (tracked_entry pn_pdate.2 pn_pdate.1 (series_title (raw_data series))).

(** ** The tasks *)

Definition do_track (jnc_resource : JNCResource) : M unit :=
  series ← await (resolve_series_call jnc_resource)
                 (resolve_series jnc_resource);
  _ ← track_series series;
  let series_url := url_from_series_slug (series_slug (raw_data series)) in
  append_new_synced series_url.

(** [series_url] is not an argument of [do_follow]: it is the variable of the
    enclosing function, which the closure reads when the task runs *)
Definition do_follow (jnc_resource : JNCResource) : M unit :=
  series ← await (resolve_series_call jnc_resource)
                 (resolve_series jnc_resource);
  let series_id := series_id series in
  _ ← await (follow_series_call series_id) (follow_series series_id);
  series_url ← read_series_url_var;
  append_new_synced series_url.

Definition do_undollow (jnc_resource : JNCResource) : M unit :=
  match follow_raw_data jnc_resource with
  | None => raise AttributeError
  | Some raw =>
      let series_id := follow_id raw in
      _ ← await (unfollow_series_call series_id) (unfollow_series series_id);
      append_del_synced (url jnc_resource)
  end.

Definition run_task (t : task) : M unit :=
  match t with
  | do_track_task r => do_track r
  | do_follow_task r => do_follow r
  | do_undollow_task r => do_undollow r
  end.

(** the state after the nursery has run the task [t] *)
Definition task_step (t : task) (w : world) : world :=
  (run_task t (with_running (Some t) w)).1.

Definition task_result (t : task) (w : world) : result unit :=
  (run_task t (with_running (Some t) w)).2.

(** Modelled from the spec: [trio_utils.background] and [gather], which are
    not in the verified file. The started tasks all run, whatever the
    outcome of the others; once they have all finished, the first failure,
    if there is one, is raised to the caller. A task changes the shared
    state only after its last [await], so the tasks act on the store and on
    the two lists as if they ran one after the other, in the order in which
    they complete; [f_tasks] is given in that order. *)
Fixpoint gather (f_tasks : list task) : M unit :=
  λ w,
    match f_tasks with
    | [] => (w, Ok tt)
    | t :: rest =>
        let '(w1, r1) := run_task t (with_running (Some t) w) in
        let '(w2, r2) := gather rest w1 in
        (w2, match r1 with Raise e => Raise e | Ok _ => r2 end)
    end.
End Track.

(** The order in which the nursery completes the tasks it was given: any
    order, every task exactly once. *)
Class Scheduler : Type := {
  schedule : list task → list task;
  schedule_perm : ∀ l, schedule l ≡ₚ l
}.

Section Sync.
Context {web : JncWeb} {remote : Remote} {nursery : Scheduler}.

(** [{f.url: f for f in follows}] *)
Definition followed_index (follows : list JNCResource) : pydict JNCResource :=
  foldl (λ index f, dict_set (url f) f index) [] follows.

(** the loop of [sync_series_forward] that starts the tasks *)
Definition forward_start (tracked : pydict json) (f_tasks : list task)
    (jnc_resource : JNCResource) : list task :=
  if dict_in (url jnc_resource) tracked then f_tasks
  else f_tasks ++ [do_track_task jnc_resource].

(** the body of the loop of [sync_series_forward] that deletes; the name of
    the series is read for the warning, after the entry is deleted *)
Definition forward_delete_step (index : pydict JNCResource)
    (item : string * json) : M unit :=
  let '(series_url, series_data) := item in
  if negb (dict_in series_url index) then
    _ ← del_tracked series_url;
    _ ← getattr_name series_url series_data;
    append_del_synced series_url
  else mret tt.

(** the loop itself, over [list(tracked_series.items())] *)
Fixpoint forward_delete (index : pydict JNCResource)
    (items : list (string * json)) : M unit :=
  match items with
  | [] => mret tt
  | item :: items =>
      _ ← forward_delete_step index item;
      forward_delete index items
  end.

Definition sync_series_forward (follows : list JNCResource)
    (tracked : pydict json) (is_delete : bool)
  : world * result (list string * list string) :=
  let w := initial_world tracked in
  let f_tasks := foldl (forward_start tracked) [] follows in
  match gather (schedule f_tasks) w with
  | (w, Raise e) => (w, Raise e)
  | (w, Ok _) =>
      if is_delete then
        let index := followed_index follows in
        match forward_delete index (tracked_series w) w with
        | (w, Raise e) => (w, Raise e)
        | (w, Ok _) => (w, Ok (new_synced w, del_synced w))
        end
      else (w, Ok (new_synced w, del_synced w))
  end.

(** the first loop of [sync_series_backward]; each iteration binds the
    variable [series_url] *)
Definition backward_start (index : pydict JNCResource)
    (st : world * list task) (series_url : string) : world * list task :=
  let '(w, f_tasks) := st in
  let w := with_series_url_var (Some series_url) w in
  if dict_in series_url index then (w, f_tasks)
  else
    let jnc_resource := resource_from_url series_url in
    (w, f_tasks ++ [do_follow_task jnc_resource]).

(** the second loop of [sync_series_backward] *)
Definition backward_start_unfollow (tracked : pydict json)
    (f_tasks : list task) (jnc_resource : JNCResource) : list task :=
  if negb (dict_in (url jnc_resource) tracked) then
    f_tasks ++ [do_undollow_task jnc_resource]
  else f_tasks.

Definition sync_series_backward (follows : list JNCResource)
    (tracked : pydict json) (is_delete : bool)
  : world * result (list string * list string) :=
  let w := initial_world tracked in
  let index := followed_index follows in
  let '(w, f_tasks) :=
    foldl (backward_start index) (w, []) (dict_keys tracked) in
  let f_tasks :=
    if is_delete then foldl (backward_start_unfollow tracked) f_tasks follows
    else f_tasks in
  match gather (schedule f_tasks) w with
  | (w, Raise e) => (w, Raise e)
  | (w, Ok _) => (w, Ok (new_synced w, del_synced w))
  end.
End Sync.

(** ** Serialisation *)

(** [json.load] and [Addict]: the parser and the conversion of data that is
    not a dictionary come from the libraries. [json_load] answers [None] when
    it raises [JSONDecodeError]. *)
Class JsonDecoder : Type := {
  json_load : string → option json;
  addict_of_non_dict : json → result (pydict json)
}.

(** [json.dumps]: the encoder of string literals comes from the library *)
Class JsonEncoder : Type := {
  encode_basestring : string → string
}.

(** the order in which [sort_keys=True] puts the members of an object: keys
    are compared by code point, which on UTF-8 text is the order of the bytes *)
Definition key_le (a b : string * json) : Prop := String.leb a.1 b.1 = true.

#[global] Instance key_le_dec a b : Decision (key_le a b).
Proof. unfold key_le. apply _. Defined.

(** [sort_keys=True]: the members of every object are sorted by key *)
Fixpoint sort_keys (j : json) : json :=
  match j with
  | JList l => JList (map sort_keys l)
  | JObj members =>
      JObj (merge_sort key_le (map (λ kv, (kv.1, sort_keys kv.2)) members))
  | _ => j
  end.

Definition newline_indent (level : nat) : string :=
  String "010"%char (String.concat "" (replicate (2 * level) " ")).

Section Dumps.
Context {encoder : JsonEncoder}.

(** the encoder with [indent=2], members in the order given *)
Fixpoint encode (level : nat) (j : json) : string :=
  match j with
  | JNull => "null"
  | JBool true => "true"
  | JBool false => "false"
  | JInt n => pretty n
  | JFloat literal => literal
  | JStr s => encode_basestring s
  | JList [] => "[]"
  | JList l =>
      "[" +:+ newline_indent (S level)
      +:+ String.concat ("," +:+ newline_indent (S level))
            (map (encode (S level)) l)
      +:+ newline_indent level +:+ "]"
  | JObj [] => "{}"
  | JObj members =>
      "{" +:+ newline_indent (S level)
      +:+ String.concat ("," +:+ newline_indent (S level))
            (map (λ kv, encode_basestring kv.1 +:+ ": "
                          +:+ encode (S level) kv.2) members)
      +:+ newline_indent level +:+ "}"
  end.

(** [json.dumps(tracked, sort_keys=True, indent=2)] *)
Definition json_dumps (tracked : pydict json) : string :=
  encode 0 (sort_keys (JObj tracked)).
End Dumps.

(** ** The file system *)

Record filesystem : Type := {
  dirs : gset string;
  files : gmap string string
}.

(** the steps that reach the file system, one at a time *)
Inductive fs_op : Type :=
| op_mkdir (path : string)
| op_create (path : string)
| op_append (path : string) (chunk : string)
| op_fsync (path : string)
| op_replace (src dst : string).

Definition fs_step (fs : filesystem) (op : fs_op) : filesystem :=
  match op with
  | op_mkdir path => {| dirs := {[path]} ∪ dirs fs; files := files fs |}
  | op_create path => {| dirs := dirs fs; files := <[path := ""]> (files fs) |}
  | op_append path chunk =>
      {| dirs := dirs fs;
         files := <[path := default "" (files fs !! path) +:+ chunk]> (files fs) |}
  | op_fsync path => fs
  | op_replace src dst =>
      match files fs !! src with
      | Some content =>
          {| dirs := dirs fs; files := <[dst := content]> (delete src (files fs)) |}
      | None => fs
      end
  end.

Definition fs_run (ops : list fs_op) (fs : filesystem) : filesystem :=
  foldl fs_step fs ops.

(** the pieces in which the buffer of an open file reaches the file system *)
Class Buffering : Type := {
  flush_pieces : string → list string;
  flush_pieces_concat : ∀ text, String.concat "" (flush_pieces text) = text
}.

(** whether a step can change the content found under [path] *)
Definition writes_to (path : string) (op : fs_op) : bool :=
  match op with
  | op_mkdir _ | op_fsync _ => false
  | op_create p | op_append p _ => bool_decide (p = path)
  | op_replace src dst => bool_decide (src = path) || bool_decide (dst = path)
  end.

Section Store.
Context {web : JncWeb} {text : PyStr} {decoder : JsonDecoder}
  {encoder : JsonEncoder}
  {buffering : Buffering}.

(** [Path.home()] *)
Variable home : string.

Definition CONFIG_DIRPATH : string := home +:+ "/.jncep".

Definition _tracked_series_filepath : string :=
  CONFIG_DIRPATH +:+ "/tracked.json".

(** [Addict(data)] for the data of the store *)
Definition Addict (data : json) : result (pydict json) :=
  match data with
  | JObj members => Ok members
  | _ => addict_of_non_dict data
  end.

Definition read_tracked_series (fs : filesystem) : result (pydict json) :=
  let body :=
    match files fs !! _tracked_series_filepath with
    | None => Raise FileNotFoundError
    | Some json_file =>
        match json_load json_file with
        | None => Raise JSONDecodeError
        | Some data =>
            match Addict data with
            | Ok data => Ok (_convert_to_latest_format data)
            | Raise e => Raise e
            end
        end
    end in
  match body with
  | Raise FileNotFoundError => Ok []
  | r => r
  end.

Definition _ensure_config_dirpath_exists : list fs_op :=
  [op_mkdir CONFIG_DIRPATH].

(** [atomic_write(path, overwrite=True)] around [f.write(text)]: the text
    goes to a temporary file next to [path], in the pieces in which the
    buffer is flushed; the temporary file is synced and then moved over
    [path]. *)
Definition atomic_write (temporary path text : string) : list fs_op :=
  [op_create temporary] ++ (op_append temporary <$> flush_pieces text)
    ++ [op_fsync temporary; op_replace temporary path].

(** the steps of [write_tracked_series(tracked)] *)
Definition write_tracked_series_ops (temporary : string)
    (tracked : pydict json) : list fs_op :=
  _ensure_config_dirpath_exists
    ++ atomic_write temporary _tracked_series_filepath (json_dumps tracked).

(** the steps of a save before the temporary file is moved *)
Definition write_tracked_series_front (temporary : string)
    (tracked : pydict json) : list fs_op :=
  [op_mkdir CONFIG_DIRPATH; op_create temporary]
    ++ (op_append temporary <$> flush_pieces (json_dumps tracked))
    ++ [op_fsync temporary].

Definition write_tracked_series (temporary : string) (tracked : pydict json)
    (fs : filesystem) : filesystem :=
  fs_run (write_tracked_series_ops temporary tracked) fs.

(** the save is interrupted after [n] steps *)
Definition write_tracked_series_interrupted (n : nat) (temporary : string)
    (tracked : pydict json) (fs : filesystem) : filesystem :=
  fs_run (take n (write_tracked_series_ops temporary tracked)) fs.
End Store.

(** ** A concrete site

    An instance of [JncWeb] in the shape of the URLs of the site: a series
    lives at [/series/<slug>], and used to live at [/s/<slug>]. It serves to
    run the definitions on concrete stores. *)

Fixpoint strip_prefix (prefix s : string) : option string :=
  match prefix with
  | EmptyString => Some s
  | String c prefix' =>
      match s with
      | EmptyString => None
      | String c' s' => if decide (c = c') then strip_prefix prefix' s' else None
      end
  end.

Definition sample_url_from_series_slug (series_slug : string) : string :=
  "https://j-novel.club/series/" +:+ series_slug.

Definition sample_slug_of_url (series_url : string) : string :=
  match strip_prefix "https://j-novel.club/series/" series_url with
  | Some series_slug => series_slug
  | None =>
      match strip_prefix "https://j-novel.club/s/" series_url with
      | Some series_slug => series_slug
      | None => series_url
      end
  end.

Definition sample_resource_from_url (series_url : string) : JNCResource :=
  {| url := series_url; slug := sample_slug_of_url series_url;
     follow_raw_data := None |}.

Definition sample_to_new_website_series_url (series_url : string) : string :=
  match strip_prefix "https://j-novel.club/s/" series_url with
  | Some series_slug => sample_url_from_series_slug series_slug
  | None => series_url
  end.

Definition sample_jncweb : JncWeb :=
  {| url_from_series_slug := sample_url_from_series_slug;
     to_new_website_series_url := sample_to_new_website_series_url;
     resource_from_url := sample_resource_from_url |}.

(** a site whose rewriting of URLs is not idempotent: it closes every URL
    with a slash, whether or not the URL ends with one *)
Definition trailing_slash_jncweb : JncWeb :=
  {| url_from_series_slug := sample_url_from_series_slug;
     to_new_website_series_url := λ series_url, series_url +:+ "/";
     resource_from_url := sample_resource_from_url |}.

(** the titles of text that has no letter outside ASCII *)
Definition ascii_str : PyStr :=
  {| str_title := title_from false; str_title_ascii := λ s _, eq_refl |}.

(** a store in the three forms a series was ever stored in *)
Definition sample_entry (name : string) (part : Z) : json :=
  JObj [("name", JStr name); ("part", JInt part)].

Definition sample_legacy_store : pydict json :=
  [("https://j-novel.club/series/the-faraway-paladin", sample_entry "Current" 7);
   ("https://j-novel.club/s/the-faraway-paladin", sample_entry "Legacy" 3);
   ("the-faraway-paladin", JInt 5)].

Definition sample_mixed_store : pydict json :=
  [("the-faraway-paladin", JInt 5);
   ("https://j-novel.club/s/tearmoon-empire", sample_entry "Tearmoon Empire" 2)].

(** an encoder of string literals for strings that need no escape *)
Definition sample_encoder : JsonEncoder :=
  {| encode_basestring := λ s, String "034" (s +:+ String "034" "") |}.

(** a parser for the texts of the examples: it answers the value whose
    encoding is the text, among the stores used here *)
Definition sample_decoder (known : list json) : JsonDecoder :=
  {| json_load := λ text,
       head (filter (λ j, encode (encoder:=sample_encoder) 0 j = text) known);
     addict_of_non_dict := λ _, Ok [] |}.

(** the whole text is flushed at once *)
Definition whole_buffer : Buffering :=
  {| flush_pieces := λ text, [text]; flush_pieces_concat := λ text, eq_refl |}.

(** ** A concrete remote side

    Two series are known: [the-faraway-paladin] has two volumes, the second
    with two parts; [tearmoon-empire] has no volume yet. The slug [unknown]
    does not resolve. *)

Definition sample_series (series_slug : string) : Series :=
  {| series_id := "id:" +:+ series_slug;
     raw_data := {| series_slug := series_slug;
                    series_title := title_from false (str_replace "-" " " series_slug) |};
     volumes := None |}.

Definition sample_volume (volume_id : string) : Volume :=
  {| volume_id := volume_id; parts := None; volume_series := None |}.

Definition sample_part (part_id launch : string) : Part :=
  {| part_id := part_id; part_raw_data := {| launch := launch |};
     part_volume := None |}.

Definition sample_remote : Remote :=
  {| resolve_series := λ jnc_resource,
       if decide (slug jnc_resource = "unknown")
       then Raise (RemoteError "not found")
       else Ok (sample_series (slug jnc_resource));
     fetch_volumes_meta := λ series_id,
       if decide (series_id = "id:the-faraway-paladin")
       then Ok [sample_volume "v1"; sample_volume "v2"]
       else Ok [];
     fetch_parts_meta := λ volume_id,
       if decide (volume_id = "v2")
       then Ok [sample_part "v2p1" "2021-03-01T17:00:00.000Z";
                sample_part "v2p2" "2021-03-08T17:00:00.000Z"]
       else Ok [];
     follow_series := λ _, Ok tt;
     unfollow_series := λ _, Ok tt;
     to_relative_spec_from_part := λ part,
       JStr (default "?" (part_volume part) +:+ "." +:+ part_id part);
     dateutil_parse := λ _, Ok tt |}.

(** the same remote side with a parser of dates that accepts none, and with
    one part, of unknown date, in the last volume *)
Definition undated_remote : Remote :=
  {| resolve_series := resolve_series (Remote:=sample_remote);
     fetch_volumes_meta := fetch_volumes_meta (Remote:=sample_remote);
     fetch_parts_meta := λ volume_id,
       if decide (volume_id = "v2") then Ok [sample_part "v2p1" "soon"]
       else Ok [];
     follow_series := λ _, Ok tt;
     unfollow_series := λ _, Ok tt;
     to_relative_spec_from_part := λ part, JStr (part_id part);
     dateutil_parse := λ _, Raise (RemoteError "unknown string format") |}.

(** the same series once its third volume is announced: the first two
    volumes have parts, the last one has none yet *)
Definition announced_remote : Remote :=
  {| resolve_series := resolve_series (Remote:=sample_remote);
     fetch_volumes_meta := λ series_id,
       if decide (series_id = "id:the-faraway-paladin")
       then Ok [sample_volume "v1"; sample_volume "v2"; sample_volume "v3"]
       else Ok [];
     fetch_parts_meta := λ volume_id,
       if decide (volume_id = "v3") then Ok []
       else Ok [sample_part (volume_id +:+ "p1") "2021-03-01T17:00:00.000Z"];
     follow_series := λ _, Ok tt;
     unfollow_series := λ _, Ok tt;
     to_relative_spec_from_part :=
       to_relative_spec_from_part (Remote:=sample_remote);
     dateutil_parse := λ _, Ok tt |}.

(** a follow as the remote side lists it *)
Definition sample_follow (series_slug : string) : JNCResource :=
  {| url := sample_url_from_series_slug series_slug; slug := series_slug;
     follow_raw_data :=
       Some {| follow_id := "id:" +:+ series_slug;
               follow_title := title_from false (str_replace "-" " " series_slug) |} |}.

(** a follow whose series the remote side knows under another slug: it
    resolves to a series of another URL *)
Definition renamed_follow : JNCResource :=
  {| url := "https://j-novel.club/series/the-faraway-paladin-ln";
     slug := "the-faraway-paladin";
     follow_raw_data :=
       Some {| follow_id := "id:the-faraway-paladin";
               follow_title := "The Faraway Paladin" |} |}.

(** the nursery that completes the tasks in the order they were started, and
    the one that completes them in the opposite order *)
Definition fifo_scheduler : Scheduler :=
  {| schedule := λ l, l; schedule_perm := λ l, reflexivity l |}.

Definition lifo_scheduler : Scheduler :=
  {| schedule := reverse; schedule_perm := reverse_Permutation |}.

Definition sample_follows : list JNCResource :=
  [sample_follow "the-faraway-paladin"; sample_follow "tearmoon-empire";
   sample_follow "new-one"].

Definition sample_tracked : pydict json :=
  [("https://j-novel.club/series/ascendance-of-a-bookworm",
    sample_entry "Ascendance of a Bookworm" 4);
   ("https://j-novel.club/series/tearmoon-empire",
    sample_entry "Tearmoon Empire" 2)].

(** ** The EPUB of a book: [epub.py] *)

(** the attributes of an image that [output_epub] reads; the content is a
    sequence of bytes *)
Record Image : Type := { content : string; local_filename : string }.

Record CollectionMetadata : Type := {
  collection_id : string;
  collection_title : string;
  (** the volume number of the first part in the EPUB *)
  position : Z
}.

Record BookDetails : Type := {
  identifier : string;
  title : string;
  author : string;
  collection : CollectionMetadata;
  cover_image : option Image;
  toc : list string;
  contents : list string;
  images : list Image
}.

(** the objects of [ebooklib.epub] that [output_epub] creates, with the
    attributes it gives them; the last argument of [EpubHtml] holds the
    items linked to the page with [add_item] *)
Inductive epub_item : Type :=
| EpubItem (uid file_name media_type content : string)
| EpubHtml (title file_name lang content : string) (links : list epub_item)
| EpubImage (file_name media_type content : string)
| EpubNcx
| EpubNav.

(** the file name that [output_epub] gives to an item; those of [EpubNcx]
    and [EpubNav] are the library's *)
Definition file_name (i : epub_item) : option string :=
  match i with
  | EpubItem _ file_name _ _ | EpubHtml _ file_name _ _ _
  | EpubImage file_name _ _ => Some file_name
  | EpubNcx | EpubNav => None
  end.

(** an element of the spine: an item, or the name of one *)
Inductive spine_entry : Type :=
| spine_item (i : epub_item)
| spine_name (name : string).

(** what [output_epub] asks of the book it builds, one call or assignment at
    a time *)
Inductive book_call : Type :=
| set_identifier (identifier : string)
| set_title (title : string)
| set_language (lang : string)
| add_author (author : string)
| add_metadata (namespace name value : string) (others : pydict string)
| set_cover (file_name : string) (content : option string) (create_page : bool)
| add_item (i : epub_item)
| assign_toc (chapters : list epub_item)
| assign_spine (spine : list spine_entry).

(** the outcome of [output_epub]: the book handed to [epub.write_epub] with
    the path of the file, or the error of [toc[i]] *)
Inductive epub_output : Type :=
| write_epub (output_filepath : string) (book : list book_call)
| IndexError.

(** the items added to a book, in the order of the calls, and the images
    among them *)
Definition added_items (book : list book_call) : list epub_item :=
  omap (λ c, match c with add_item i => Some i | _ => None end) book.

Definition added_images (book : list book_call) : list epub_item :=
  omap (λ c, match c with
             | add_item (EpubImage _ _ _ as img) => Some img
             | _ => None
             end) book.

(** [enumerate(l)] *)
Fixpoint enumerate_from {A} (start : nat) (l : list A) : list (nat * A) :=
  match l with
  | [] => []
  | x :: l => (start, x) :: enumerate_from (S start) l
  end.

Definition enumerate {A} (l : list A) : list (nat * A) := enumerate_from 0 l.

Definition lang : string := "en".

Definition style : string :=
  String.concat (String "010"%char "")
    ["body {color: black;}";
     "h1 {page-break-before: always;}";
     "img {width: 100%; page-break-after: always; page-break-before: always;";
     "    object-fit: contain;}";
     "p {text-indent: 1.3em;}";
     ".centerp {text-align: center; text-indent: 0em;}";
     ".noindent {text-indent: 0em;}"].

Definition css : epub_item := EpubItem "style" "book.css" "text/css" style.

(** the content and the file name of the cover: those of the cover image, or
    no content and a dummy name *)
Definition cover_content (book_details : BookDetails) : option string :=
  match cover_image book_details with
  | Some image => Some (content image)
  | None => None
  end.

Definition cover_image_filename (book_details : BookDetails) : string :=
  match cover_image book_details with
  | Some image => local_filename image
  | None => "cover.jpg"
  end.

Definition cover_page (cover_image_filename : string) : epub_item :=
  let quote := String "034"%char "" in
  EpubHtml "Cover" "cover.xhtml" lang
    ("<img src=" +:+ quote +:+ cover_image_filename +:+ quote
       +:+ " alt=" +:+ quote +:+ "cover" +:+ quote +:+ " />")
    [css].

(** the loop over the images *)
Definition image_step (cover_image_filename : string) (book : list book_call)
    (image : Image) : list book_call :=
  if decide (local_filename image = cover_image_filename) then book
  else
    let img := EpubImage (local_filename image) "image/jpeg" (content image) in
    book ++ [add_item img].

(** the loop over the contents; [None] once [toc[i]] has raised. The content
    of a chapter is the text encoded in UTF-8, which a string of bytes
    already is. *)
Definition chapter_step (book_details : BookDetails)
    (st : option (list book_call * list epub_item)) (item : nat * string)
  : option (list book_call * list epub_item) :=
  '(book, chapters) ← st;
  let '(i, content) := item in
  chapter_title ← toc book_details !! i;
  let c := EpubHtml chapter_title ("chap_" +:+ pretty i +:+ ".xhtml") lang
             content [css] in
  Some (book ++ [add_item c], chapters ++ [c]).

Definition output_epub (output_filepath : string) (book_details : BookDetails)
  : epub_output :=
  let book :=
    [set_identifier (identifier book_details);
     set_title (title book_details);
     set_language lang;
     add_author (author book_details)] in
  let collection_meta := collection book_details in
  let book :=
    book ++ [add_metadata "OPF" "belongs-to-collection"
               (collection_title collection_meta)
               [("property", "belongs-to-collection");
                ("id", collection_id collection_meta)]] in
  let book :=
    book ++ [add_metadata "OPF" "collection-type" "series"
               [("property", "collection-type");
                ("refines", "#" +:+ collection_id collection_meta)]] in
  let book :=
    book ++ [add_metadata "OPF" "group-position"
               (pretty (position collection_meta))
               [("property", "group-position");
                ("refines", "#" +:+ collection_id collection_meta)]] in
  let content := cover_content book_details in
  let cover_image_filename := cover_image_filename book_details in
  let book := book ++ [set_cover cover_image_filename content false] in
  let book := book ++ [add_item css] in
  let cover_page := cover_page cover_image_filename in
  let book := book ++ [add_item cover_page] in
  let book := foldl (image_step cover_image_filename) book (images book_details) in
  match foldl (chapter_step book_details) (Some (book, []))
          (enumerate (contents book_details)) with
  | None => IndexError
  | Some (book, chapters) =>
      let book := book ++ [assign_toc chapters] in
      let book := book ++ [add_item EpubNcx] in
      let book := book ++ [add_item EpubNav] in
      let book :=
        book ++ [assign_spine (spine_item cover_page :: spine_name "nav"
                                 :: (spine_item <$> chapters))] in
      write_epub output_filepath book
  end.

(** a book of two parts whose cover is also one of its images *)
Definition sample_book_details : BookDetails :=
  {| identifier := "the-faraway-paladin-volume-1";
     title := "The Faraway Paladin: Volume 1";
     author := "Kanata Yanagino";
     collection := {| collection_id := "the-faraway-paladin";
                      collection_title := "The Faraway Paladin";
                      position := 1 |};
     cover_image := Some {| content := "JFIF:cover";
                            local_filename := "cover-v1.jpg" |};
     toc := ["Part 1"; "Part 2"];
     contents := ["<h1>Part 1</h1>"; "<h1>Part 2</h1>"];
     images := [{| content := "JFIF:cover"; local_filename := "cover-v1.jpg" |};
                {| content := "JFIF:map"; local_filename := "map.jpg" |}] |}.

(** * Properties *)

(** ** The definitions at work *)

Example str_title_words :
  title_from false (str_replace "-" " " "a-b_c1d-xY'z") = "A B_C1D Xy'Z".
Proof. reflexivity. Qed.

Example dict_set_keeps_position :
  dict_set "n" 3 (dict_set "l" 2 (dict_set "n" 1 [])) = [("n", 3); ("l", 2)].
Proof. reflexivity. Qed.

Example convert_legacy_store :
  _convert_to_latest_format (web:=sample_jncweb) (text:=ascii_str) sample_mixed_store
  = [("https://j-novel.club/series/the-faraway-paladin",
      JObj [("name", JStr "The Faraway Paladin"); ("part", JInt 5)]);
     ("https://j-novel.club/series/tearmoon-empire",
      sample_entry "Tearmoon Empire" 2)].
Proof. reflexivity. Qed.

Example sync_series_forward_sample :
  (sync_series_forward (web:=sample_jncweb) (remote:=sample_remote)
     (nursery:=fifo_scheduler) sample_follows sample_tracked true).2
  = Ok (["https://j-novel.club/series/the-faraway-paladin";
         "https://j-novel.club/series/new-one"],
        ["https://j-novel.club/series/ascendance-of-a-bookworm"]).
Proof. reflexivity. Qed.

(** ** Dictionaries *)

Section PyDictFacts.
Context {V : Type}.
Implicit Types (d : pydict V) (k : string) (v : V).

Lemma dict_in_true k d : dict_in k d = true ↔ k ∈ dict_keys d.
Proof. unfold dict_in. apply bool_decide_eq_true. Qed.

Lemma dict_in_false k d : dict_in k d = false ↔ k ∉ dict_keys d.
Proof. unfold dict_in. apply bool_decide_eq_false. Qed.

Lemma dict_set_fresh k v d :
  k ∉ dict_keys d → dict_set k v d = d ++ [(k, v)].
Proof.
  induction d as [|[k' v'] d IH]; simpl; [done|].
  rewrite not_elem_of_cons. intros [Hne Hd].
  destruct (decide (k' = k)); [congruence|]. by rewrite IH.
Qed.

Lemma dict_keys_set k v d :
  dict_keys (dict_set k v d)
  = if decide (k ∈ dict_keys d) then dict_keys d else dict_keys d ++ [k].
Proof.
  induction d as [|[k' v'] d IH]; simpl.
  - done.
  - destruct (decide (k' = k)) as [->|Hne]; simpl.
    + rewrite decide_True; [done|]. apply elem_of_cons; by left.
    + rewrite IH.
      destruct (decide (k ∈ dict_keys d)) as [Hin|Hnin].
      * rewrite decide_True; [done|]. apply elem_of_cons; by right.
      * rewrite decide_False; [done|].
        rewrite not_elem_of_cons. split; [congruence|done].
Qed.

Lemma elem_of_dict_keys_set k v d x :
  x ∈ dict_keys (dict_set k v d) ↔ x = k ∨ x ∈ dict_keys d.
Proof.
  rewrite dict_keys_set. destruct (decide (k ∈ dict_keys d)).
  - naive_solver.
  - rewrite elem_of_app, list_elem_of_singleton. naive_solver.
Qed.

Lemma dict_wf_nil : dict_wf (V:=V) [].
Proof. apply NoDup_nil_2. Qed.

Lemma dict_wf_set k v d : dict_wf d → dict_wf (dict_set k v d).
Proof.
  unfold dict_wf. rewrite dict_keys_set. intros Hd.
  destruct (decide (k ∈ dict_keys d)); [done|].
  apply NoDup_app. split_and!; [done| |apply NoDup_singleton].
  intros x Hx ->%list_elem_of_singleton. done.
Qed.

Lemma dict_get_set k v d k' :
  dict_get k' (dict_set k v d)
  = if decide (k = k') then Some v else dict_get k' d.
Proof.
  induction d as [|[k0 v0] d IH]; simpl.
  - destruct (decide (k = k')); done.
  - destruct (decide (k0 = k)) as [->|Hne]; simpl.
    + destruct (decide (k = k')); done.
    + rewrite IH. destruct (decide (k0 = k')) as [->|];
        destruct (decide (k = k')); congruence.
Qed.

Lemma dict_get_Some_elem k v d : dict_get k d = Some v → (k, v) ∈ d.
Proof.
  induction d as [|[k0 v0] d IH]; simpl; [done|].
  destruct (decide (k0 = k)) as [->|].
  - intros [= ->]. apply elem_of_cons; by left.
  - intros Hd. apply elem_of_cons; right; auto.
Qed.

Lemma dict_get_None k d : dict_get k d = None ↔ k ∉ dict_keys d.
Proof.
  induction d as [|[k0 v0] d IH]; simpl.
  - split; [intros _; apply not_elem_of_nil|done].
  - rewrite not_elem_of_cons. destruct (decide (k0 = k)) as [->|]; naive_solver.
Qed.

Lemma dict_get_elem_wf k v d : dict_wf d → (k, v) ∈ d → dict_get k d = Some v.
Proof.
  unfold dict_wf, dict_keys.
  induction d as [|[k0 v0] d IH]; simpl; [by intros _ ?%elem_of_nil|].
  rewrite NoDup_cons. intros [Hk0 Hd] [Heq|Hin]%elem_of_cons.
  - injection Heq as -> ->. by rewrite decide_True.
  - destruct (decide (k0 = k)) as [->|]; [|auto].
    exfalso. apply Hk0. apply list_elem_of_fmap. by exists (k, v).
Qed.

Lemma dict_keys_del k d :
  dict_keys (dict_del k d) = filter (λ x, x ≠ k) (dict_keys d).
Proof.
  unfold dict_del, dict_keys.
  induction d as [|[k0 v0] d IH]; [done|].
  rewrite (filter_cons (λ kv : string * V, kv.1 ≠ k)), fmap_cons.
  rewrite (filter_cons (λ x : string, x ≠ k)). simpl.
  destruct (decide (k0 ≠ k)); [rewrite fmap_cons; f_equal|]; exact IH.
Qed.

Lemma elem_of_key_set k d : k ∈ key_set d ↔ k ∈ dict_keys d.
Proof. unfold key_set. apply elem_of_list_to_set. Qed.
End PyDictFacts.

(** ** Loops that fill a dictionary *)

Section FoldSet.
Context {A V : Type} (g : A → string) (h : A → V).
Implicit Types (acc : pydict V) (l : list A).
Local Abbreviation set_step := (set_step g h).

Lemma dict_set_app k (v : V) (d1 d2 : pydict V) :
  dict_set k v (d1 ++ d2)
  = if decide (k ∈ dict_keys d1) then dict_set k v d1 ++ d2
    else d1 ++ dict_set k v d2.
Proof.
  induction d1 as [|[k0 v0] d1 IH]; simpl; [done|].
  destruct (decide (k0 = k)) as [->|Hne].
  - rewrite decide_True; [done|]. apply elem_of_cons; by left.
  - rewrite IH. destruct (decide (k ∈ dict_keys d1)) as [Hin|Hnin].
    + rewrite decide_True; [done|]. apply elem_of_cons; by right.
    + rewrite decide_False; [done|].
      rewrite not_elem_of_cons. split; [congruence|done].
Qed.

Lemma foldl_set_wf acc l : dict_wf acc → dict_wf (foldl set_step acc l).
Proof.
  revert acc. induction l as [|a l IH]; intros acc Hacc; simpl; [done|].
  apply IH. by apply dict_wf_set.
Qed.

Lemma foldl_set_keys acc l x :
  x ∈ dict_keys (foldl set_step acc l) ↔ x ∈ dict_keys acc ∨ x ∈ g <$> l.
Proof.
  revert acc. induction l as [|a l IH]; intros acc; simpl.
  - rewrite elem_of_nil. naive_solver.
  - rewrite IH. unfold set_step. rewrite elem_of_dict_keys_set, elem_of_cons.
    naive_solver.
Qed.

Lemma foldl_set_fresh acc l :
  NoDup (g <$> l) → (∀ a, a ∈ l → g a ∉ dict_keys acc) →
  foldl set_step acc l = acc ++ ((λ a, (g a, h a)) <$> l).
Proof.
  revert acc. induction l as [|a l IH]; intros acc Hnd Hfresh; simpl.
  - by rewrite app_nil_r.
  - rewrite fmap_cons in Hnd. apply NoDup_cons in Hnd as [Ha Hnd].
    unfold set_step at 2. rewrite dict_set_fresh.
    2:{ apply Hfresh. apply elem_of_cons; by left. }
    rewrite IH; [by rewrite <-app_assoc|done|].
    intros a' Ha'. unfold dict_keys. rewrite fmap_app, elem_of_app.
    intros [Hin|Hin].
    + eapply Hfresh; [|exact Hin]. apply elem_of_cons; by right.
    + simpl in Hin. apply list_elem_of_singleton in Hin.
      apply Ha. rewrite <-Hin. apply list_elem_of_fmap. by exists a'.
Qed.

Lemma foldl_set_get_other acc l k :
  (∀ a, a ∈ l → g a ≠ k) →
  dict_get k (foldl set_step acc l) = dict_get k acc.
Proof.
  revert acc. induction l as [|a l IH]; intros acc Hne; simpl; [done|].
  rewrite IH.
  - unfold set_step. rewrite dict_get_set, decide_False; [done|].
    apply Hne. apply elem_of_cons; by left.
  - intros a' Ha'. apply Hne. apply elem_of_cons; by right.
Qed.

(** the last write to a key is the one that stays *)
Lemma foldl_set_get_last acc l1 a l3 :
  (∀ a', a' ∈ l3 → g a' ≠ g a) →
  dict_get (g a) (foldl set_step acc (l1 ++ a :: l3)) = Some (h a).
Proof.
  intros Hne. rewrite foldl_app. simpl.
  rewrite foldl_set_get_other; [|done].
  unfold set_step at 1. rewrite dict_get_set, decide_True; done.
Qed.

Lemma foldl_set_keep_split acc1 k (v : V) acc2 l :
  (∀ a, a ∈ l → g a ≠ k) →
  ∃ c1 c2,
    foldl set_step (acc1 ++ (k, v) :: acc2) l = c1 ++ (k, v) :: c2
    ∧ ∀ x, x ∈ dict_keys c2 → x ∈ dict_keys acc2 ∨ x ∈ g <$> l.
Proof.
  revert acc1 acc2. induction l as [|a l IH]; intros acc1 acc2 Hne; simpl.
  - exists acc1, acc2. split; [done|]. by left.
  - assert (g a ≠ k) as Ha by (apply Hne; apply elem_of_cons; by left).
    assert (∀ a', a' ∈ l → g a' ≠ k) as Hl
      by (intros a' Ha'; apply Hne; apply elem_of_cons; by right).
    unfold set_step at 2. rewrite dict_set_app.
    destruct (decide (g a ∈ dict_keys acc1)).
    + destruct (IH (dict_set (g a) (h a) acc1) acc2 Hl) as (c1 & c2 & -> & Hc).
      exists c1, c2. split; [done|]. intros x Hx.
      destruct (Hc x Hx); [by left|right]. apply elem_of_cons; by right.
    + simpl. rewrite decide_False; [|congruence].
      destruct (IH acc1 (dict_set (g a) (h a) acc2) Hl) as (c1 & c2 & -> & Hc).
      exists c1, c2. split; [done|]. intros x Hx.
      destruct (Hc x Hx) as [Hin|Hin].
      * apply elem_of_dict_keys_set in Hin as [->|Hin]; [right|by left].
        apply elem_of_cons; by left.
      * right. apply elem_of_cons; by right.
Qed.

(** where the last write to a key ends up, and what can follow it *)
Lemma foldl_set_split acc l1 b l3 :
  dict_wf acc → (∀ a, a ∈ l3 → g a ≠ g b) →
  ∃ c1 c3,
    foldl set_step acc (l1 ++ b :: l3) = c1 ++ (g b, h b) :: c3
    ∧ ∀ x, x ∈ dict_keys c3 →
        x ≠ g b
        ∧ (x ∈ g <$> l3
           ∨ ((g b ∈ dict_keys acc ∨ g b ∈ g <$> l1)
              ∧ (x ∈ dict_keys acc ∨ x ∈ g <$> l1))).
Proof.
  intros Hwf Hne.
  pose proof (foldl_set_wf acc (l1 ++ b :: l3) Hwf) as Hwf'.
  rewrite foldl_app in Hwf' |- *. simpl in Hwf' |- *.
  set (D := foldl set_step acc l1) in *.
  assert (∃ D1 D2, set_step D b = D1 ++ (g b, h b) :: D2
            ∧ ∀ x, x ∈ dict_keys D2 →
                g b ∈ dict_keys D ∧ x ∈ dict_keys D) as (D1 & D2 & HE & HD2).
  { unfold set_step. destruct (decide (g b ∈ dict_keys D)) as [Hin|Hnin].
    - apply list_elem_of_fmap in Hin as ([k v] & Hk & Hin). simpl in Hk.
      apply list_elem_of_split in Hin as (D1 & D2 & HD).
      pose proof (dict_get_set (g b) (h b) D (g b)) as Hget.
      rewrite decide_True in Hget by done.
      apply dict_get_Some_elem, list_elem_of_split in Hget as (E1 & E2 & HE).
      exists E1, E2. split; [done|]. intros x Hx. split.
      + rewrite HD. unfold dict_keys. rewrite fmap_app, fmap_cons.
        rewrite elem_of_app, elem_of_cons. right; left. done.
      + assert (x ∈ dict_keys (dict_set (g b) (h b) D)) as Hx'.
        { rewrite HE. unfold dict_keys. rewrite fmap_app, fmap_cons.
          rewrite elem_of_app, elem_of_cons. right; right. done. }
        apply elem_of_dict_keys_set in Hx' as [->|]; [|done].
        rewrite HD. unfold dict_keys. rewrite fmap_app, fmap_cons.
        rewrite elem_of_app, elem_of_cons. right; left. done.
    - rewrite dict_set_fresh by done. exists D, []. split; [done|].
      intros x Hx. by apply elem_of_nil in Hx. }
  rewrite HE in Hwf' |- *.
  destruct (foldl_set_keep_split D1 (g b) (h b) D2 l3 Hne) as (c1 & c3 & Hc & Hc3).
  rewrite Hc in Hwf' |- *. exists c1, c3. split; [done|].
  intros x Hx. split.
  - intros ->. unfold dict_wf, dict_keys in Hwf'.
    rewrite fmap_app, fmap_cons in Hwf'. simpl in Hwf'.
    apply NoDup_app in Hwf' as (_ & _ & Hnd).
    apply NoDup_cons in Hnd as [Hnd _]. done.
  - destruct (Hc3 x Hx) as [Hin|Hin]; [right|by left].
    destruct (HD2 x Hin) as [Hb Hx'].
    unfold D in Hb, Hx'. rewrite foldl_set_keys in Hb, Hx'. done.
Qed.

End FoldSet.

(** ** Migration *)

Lemma foldl_ext_eq {A B} (f f' : A → B → A) (a : A) (l : list B) :
  (∀ a b, f a b = f' a b) → foldl f a l = foldl f' a l.
Proof.
  intros Hf. revert a. induction l as [|b l IH]; intros a; simpl; [done|].
  by rewrite Hf, IH.
Qed.

Lemma elem_of_dict_set {V} k (v : V) (d : pydict V) kv :
  kv ∈ dict_set k v d → kv = (k, v) ∨ kv ∈ d.
Proof.
  induction d as [|[k0 v0] d IH]; simpl.
  - intros ?%list_elem_of_singleton. by left.
  - destruct (decide (k0 = k)) as [->|].
    + intros [->|Hin]%elem_of_cons; [by left|right].
      apply elem_of_cons; by right.
    + intros [->|Hin]%elem_of_cons; [right; apply elem_of_cons; by left|].
      destruct (IH Hin); [by left|right]. apply elem_of_cons; by right.
Qed.

Lemma elem_of_foldl_set {A V} (g : A → string) (h : A → V) acc l kv :
  kv ∈ foldl (set_step g h) acc l →
  kv ∈ acc ∨ ∃ a, a ∈ l ∧ kv = (g a, h a).
Proof.
  revert acc. induction l as [|a l IH]; intros acc; simpl; [by left|].
  intros [Hin|(a' & Ha' & ->)]%IH.
  - apply elem_of_dict_set in Hin as [->|Hin]; [right|by left].
    exists a. split; [apply elem_of_cons; by left|done].
  - right. exists a'. split; [apply elem_of_cons; by right|done].
Qed.

Section MigrationFacts.
Context {web : JncWeb} {text : PyStr}.

Lemma convert_loop acc data :
  foldl convert_step acc data
  = foldl (set_step converted_key converted_value) acc data.
Proof.
  apply foldl_ext_eq. intros a [k v].
  unfold convert_step, set_step, converted_key, converted_value. simpl.
  by destruct (is_dict v).
Qed.

Lemma convert_b_loop acc converted :
  foldl convert_b_step acc converted = foldl (set_step new_key snd) acc converted.
Proof. apply foldl_ext_eq. by intros a [k v]. Qed.

Lemma convert_unfold data :
  _convert_to_latest_format data
  = foldl (set_step new_key snd) []
      (foldl (set_step converted_key converted_value) [] data).
Proof.
  unfold _convert_to_latest_format. by rewrite convert_loop, convert_b_loop.
Qed.

Lemma converted_value_is_dict item : is_dict (converted_value item) = true.
Proof.
  destruct item as [k v]. unfold converted_value. simpl.
  by destruct (is_dict v) eqn:Hv.
Qed.

Lemma convert_wf data : dict_wf (_convert_to_latest_format data).
Proof. rewrite convert_unfold. apply foldl_set_wf, dict_wf_nil. Qed.

Lemma convert_elem kv data :
  kv ∈ _convert_to_latest_format data →
  ∃ item, item ∈ data ∧ kv = migrated_item item.
Proof.
  rewrite convert_unfold.
  intros [Hin|([k v] & Hin & ->)]%elem_of_foldl_set;
    [by apply elem_of_nil in Hin|].
  apply elem_of_foldl_set in Hin as [Hin|(item & Hin & Heq)];
    [by apply elem_of_nil in Hin|].
  exists item. split; [done|]. by injection Heq as -> ->.
Qed.

Lemma convert_keys data u :
  u ∈ dict_keys (_convert_to_latest_format data)
  ↔ ∃ item, item ∈ data ∧ migrated_key item = u.
Proof.
  rewrite convert_unfold, foldl_set_keys, elem_of_nil, list_elem_of_fmap.
  split.
  - intros [[]|([k v] & -> & Hin)].
    apply elem_of_foldl_set in Hin as [Hin|(item & Hin & Heq)];
      [by apply elem_of_nil in Hin|].
    exists item. split; [done|]. by injection Heq as -> ->.
  - intros (item & Hin & <-). right.
    assert (converted_key item
            ∈ dict_keys (foldl (set_step converted_key converted_value) [] data))
      as Hk.
    { apply foldl_set_keys. right. apply list_elem_of_fmap. by exists item. }
    apply list_elem_of_fmap in Hk as ([k v] & Hk & Hin'). simpl in Hk.
    exists (k, v). split; [|done]. unfold new_key, migrated_key. simpl.
    by rewrite Hk.
Qed.

(** a store in the current format is left as it is *)
Lemma convert_current data :
  dict_wf data →
  Forall (λ item, is_dict item.2 = true
                  ∧ to_new_website_series_url item.1 = item.1) data →
  _convert_to_latest_format data = data.
Proof.
  intros Hwf Hcur. rewrite convert_unfold.
  assert (converted_key <$> data = dict_keys data) as Hck.
  { apply Forall_fmap_ext_1. eapply Forall_impl; [exact Hcur|].
    intros [k v] [Hd _]. unfold converted_key. simpl in *. by rewrite Hd. }
  assert ((λ a, (converted_key a, converted_value a)) <$> data = data) as Hcv.
  { rewrite <-(list_fmap_id data) at 2. apply Forall_fmap_ext_1.
    eapply Forall_impl; [exact Hcur|]. intros [k v] [Hd _].
    unfold converted_key, converted_value. simpl in *. by rewrite Hd. }
  rewrite (foldl_set_fresh converted_key converted_value [] data);
    [|by rewrite Hck|intros a _; apply not_elem_of_nil].
  rewrite app_nil_l, Hcv.
  assert (new_key <$> data = dict_keys data) as Hnk.
  { apply Forall_fmap_ext_1. eapply Forall_impl; [exact Hcur|].
    by intros [k v] [_ Hk]. }
  rewrite foldl_set_fresh;
    [|by rewrite Hnk|intros a _; apply not_elem_of_nil].
  rewrite app_nil_l. rewrite <-(list_fmap_id data) at 2. apply Forall_fmap_ext_1.
  eapply Forall_impl; [exact Hcur|]. intros [k v] [_ Hk].
  unfold new_key. simpl in *. by rewrite Hk.
Qed.

(** without collision both loops only append *)
Lemma convert_in_order data :
  NoDup (migrated_key <$> data) →
  _convert_to_latest_format data = migrated_item <$> data.
Proof.
  intros Hnd. rewrite convert_unfold.
  assert (NoDup (converted_key <$> data)) as Hnd1.
  { apply (NoDup_fmap_1 to_new_website_series_url).
    by rewrite <-list_fmap_compose. }
  rewrite (foldl_set_fresh converted_key converted_value [] data);
    [|done|intros a _; apply not_elem_of_nil].
  rewrite app_nil_l.
  rewrite foldl_set_fresh; [|by rewrite <-list_fmap_compose|
                             intros a _; apply not_elem_of_nil].
  rewrite app_nil_l. by rewrite <-list_fmap_compose.
Qed.


End MigrationFacts.

Section MigrationWinner.
Context {web : JncWeb} {text : PyStr}.

(** The pair that decides the entry of a URL: no later pair is migrated to
    the same URL, and the earlier ones that are either share its key after
    the first loop or leave that key unused. *)
Lemma convert_winner l1 b l3 :
  (∀ c, c ∈ l3 → migrated_key c ≠ migrated_key b) →
  (∀ c, c ∈ l1 → migrated_key c = migrated_key b →
        converted_key c = converted_key b)
  ∨ (∀ c, c ∈ l1 → converted_key c ≠ converted_key b) →
  dict_get (migrated_key b) (_convert_to_latest_format (l1 ++ b :: l3))
  = Some (converted_value b).
Proof.
  intros Hl3 Hl1. rewrite convert_unfold.
  destruct (foldl_set_split converted_key converted_value [] l1 b l3)
    as (c1 & c3 & -> & Hc3); [apply dict_wf_nil| |].
  { intros c Hc Heq. apply (Hl3 c Hc). unfold migrated_key. by rewrite Heq. }
  change (migrated_key b) with (new_key (converted_key b, converted_value b)).
  rewrite (foldl_set_get_last new_key snd); [done|].
  intros [k v] Hin. unfold new_key. simpl. intros Heq.
  assert (k ∈ dict_keys c3) as Hk.
  { apply list_elem_of_fmap. by exists (k, v). }
  destruct (Hc3 k Hk) as [Hne [Hin3|[Hb Hk1]]].
  - apply list_elem_of_fmap in Hin3 as (c & -> & Hc).
    by apply (Hl3 c Hc).
  - destruct Hb as [Hb|Hb]; [by apply elem_of_nil in Hb|].
    destruct Hk1 as [Hk1|Hk1]; [by apply elem_of_nil in Hk1|].
    apply list_elem_of_fmap in Hk1 as (c & -> & Hc).
    destruct Hl1 as [Hsame|Hfresh].
    + apply Hne. by apply Hsame.
    + apply list_elem_of_fmap in Hb as (c' & Hc' & Hin').
      by apply (Hfresh c' Hin').
Qed.

Lemma convert_length_collision l1 a l2 b l3 :
  migrated_key a = migrated_key b →
  (length (_convert_to_latest_format (l1 ++ a :: l2 ++ b :: l3))
   < length (l1 ++ a :: l2 ++ b :: l3))%nat.
Proof.
  intros Hab.
  set (data := l1 ++ a :: l2 ++ b :: l3).
  assert (dict_keys (_convert_to_latest_format data)
          ⊆+ migrated_key <$> (l1 ++ a :: l2 ++ l3)) as Hsub.
  { apply NoDup_submseteq; [apply convert_wf|].
    intros u (item & Hin & <-)%convert_keys. apply list_elem_of_fmap.
    unfold data in Hin.
    rewrite elem_of_app, elem_of_cons, elem_of_app, elem_of_cons in Hin.
    destruct Hin as [Hin|[->|[Hin|[->|Hin]]]].
    - exists item. split; [done|]. rewrite elem_of_app. by left.
    - exists a. split; [done|].
      rewrite elem_of_app, elem_of_cons. right; by left.
    - exists item. split; [done|].
      rewrite elem_of_app, elem_of_cons, elem_of_app. right; right; by left.
    - exists a. split; [done|].
      rewrite elem_of_app, elem_of_cons. right; by left.
    - exists item. split; [done|].
      rewrite elem_of_app, elem_of_cons, elem_of_app. right; right; by right. }
  apply submseteq_length in Hsub. unfold dict_keys in Hsub.
  rewrite !length_fmap in Hsub. fold data.
  set (n := length (_convert_to_latest_format data)) in *. clearbody n.
  unfold data. clear data.
  rewrite !length_app in *. cbn [length] in *. rewrite !length_app in *.
  cbn [length]. lia.
Qed.
End MigrationWinner.

(** ** The migration, claim by claim *)


(** a site whose rewriting of URLs closes every URL with a slash, also one
    that it has already closed *)
Lemma trailing_slash_store :
  _convert_to_latest_format (web:=trailing_slash_jncweb) (text:=ascii_str)
    [("https://j-novel.club/series/tearmoon-empire",
      sample_entry "Tearmoon Empire" 2)]
  = [("https://j-novel.club/series/tearmoon-empire/",
      sample_entry "Tearmoon Empire" 2)].
Proof. reflexivity. Qed.




(** C4. For every stored pair [(k, v)] of a store in which no other pair is
    migrated to the same URL: if [v] is not a record, [k] is a slug, the key
    becomes the URL built from the slug and the value becomes the record with
    [part] the original value and [name] made from the slug; if [v] is a
    record it is kept; in both cases the key is rewritten to the current
    form of the URL. *)
Theorem convert_to_latest_format_rule {web : JncWeb} {text : PyStr} (data : pydict json)
    (k : string) (v : json) :
  dict_wf data →
  (k, v) ∈ data →
  (∀ other, other ∈ data → migrated_key other = migrated_key (k, v) →
            other = (k, v)) →
  let series_url := if is_dict v then k else url_from_series_slug k in
  let value :=
    if is_dict v then v
    else JObj [("name", JStr (str_title (str_replace "-" " " k)));
               ("part", v)] in
  to_new_website_series_url series_url
    ∈ dict_keys (_convert_to_latest_format data)
  ∧ dict_get (to_new_website_series_url series_url)
      (_convert_to_latest_format data) = Some value.
Proof.
  intros Hwf Hin Honly series_url value.
  change (to_new_website_series_url series_url) with (migrated_key (k, v)).
  change value with (converted_value (k, v)).
  split; [apply convert_keys; by exists (k, v)|].
  apply list_elem_of_split in Hin as (l1 & l3 & ->).
  assert (∀ c, c ∈ l1 ++ l3 → migrated_key c ≠ migrated_key (k, v)) as Hne.
  { intros c Hc Heq.
    assert (c = (k, v)) as ->.
    { apply Honly; [|done]. rewrite elem_of_app, elem_of_cons.
      apply elem_of_app in Hc as [?|?]; auto. }
    unfold dict_wf, dict_keys in Hwf. rewrite fmap_app, fmap_cons in Hwf.
    apply NoDup_app in Hwf as (_ & Hl1 & [Hl3 _]%NoDup_cons).
    apply elem_of_app in Hc as [Hc|Hc].
    - apply (Hl1 k); [|apply elem_of_cons; by left].
      apply list_elem_of_fmap. by exists (k, v).
    - apply Hl3. apply list_elem_of_fmap. by exists (k, v). }
  apply convert_winner.
  - intros c Hc. apply Hne. rewrite elem_of_app. by right.
  - left. intros c Hc Heq. exfalso. eapply Hne; [|exact Heq].
    rewrite elem_of_app. by left.
Qed.

Lemma convert_to_latest_format_rule_witness :
  dict_get "https://j-novel.club/series/the-faraway-paladin"
    (_convert_to_latest_format (web:=sample_jncweb) (text:=ascii_str) sample_mixed_store)
  = Some (JObj [("name", JStr "The Faraway Paladin"); ("part", JInt 5)]).
Proof.
  apply (convert_to_latest_format_rule (web:=sample_jncweb) (text:=ascii_str) sample_mixed_store
           "the-faraway-paladin" (JInt 5)).
  - apply (bool_decide_unpack _). vm_compute. exact I.
  - apply elem_of_cons. by left.
  - intros other [->|Hin]%elem_of_cons; [done|].
    apply list_elem_of_singleton in Hin as ->. vm_compute. discriminate.
Defined.

(** C10 (amended). When exactly two pairs of the input, [a] before [b], are
    migrated to the same URL, the migrated store has one entry for that URL,
    it holds the value of [b], the later of the two, and the migrated store
    is strictly smaller than the input. The function is total: no error is
    raised for the merge. *)
Theorem convert_to_latest_format_collision {web : JncWeb} {text : PyStr}
    (l1 : pydict json) (a : string * json) (l2 : pydict json)
    (b : string * json) (l3 : pydict json) :
  migrated_key a = migrated_key b →
  (∀ c, c ∈ l1 ++ l2 ++ l3 → migrated_key c ≠ migrated_key b) →
  let data := l1 ++ a :: l2 ++ b :: l3 in
  dict_get (migrated_key b) (_convert_to_latest_format data)
  = Some (converted_value b)
  ∧ dict_wf (_convert_to_latest_format data)
  ∧ (length (_convert_to_latest_format data) < length data)%nat.
Proof.
  intros Hab Hothers data. split_and!.
  - unfold data. rewrite app_comm_cons, app_assoc.
    apply convert_winner.
    + intros c Hc. apply Hothers. rewrite !elem_of_app. by right; right.
    + destruct (decide (converted_key a = converted_key b)) as [Heq|Hne].
      * left. intros c [Hc|[->|Hc]%elem_of_cons]%elem_of_app Hm; [|done|].
        -- exfalso. apply (Hothers c); [|done]. rewrite !elem_of_app. by left.
        -- exfalso. apply (Hothers c); [|done].
           rewrite !elem_of_app. by right; left.
      * right. intros c [Hc|[->|Hc]%elem_of_cons]%elem_of_app Hk; [|done|].
        -- apply (Hothers c); [rewrite !elem_of_app; by left|].
           unfold migrated_key. by rewrite Hk.
        -- apply (Hothers c); [rewrite !elem_of_app; by right; left|].
           unfold migrated_key. by rewrite Hk.
  - apply convert_wf.
  - by apply convert_length_collision.
Qed.

Lemma convert_to_latest_format_collision_witness :
  dict_get "https://j-novel.club/series/the-faraway-paladin"
    (_convert_to_latest_format (web:=sample_jncweb) (text:=ascii_str)
       [("https://j-novel.club/s/the-faraway-paladin", sample_entry "Legacy" 3);
        ("the-faraway-paladin", JInt 5);
        ("https://j-novel.club/s/tearmoon-empire",
         sample_entry "Tearmoon Empire" 2)])
  = Some (JObj [("name", JStr "The Faraway Paladin"); ("part", JInt 5)]).
Proof.
  apply (convert_to_latest_format_collision (web:=sample_jncweb) (text:=ascii_str) []
           ("https://j-novel.club/s/the-faraway-paladin", sample_entry "Legacy" 3)
           [] ("the-faraway-paladin", JInt 5)
           [("https://j-novel.club/s/tearmoon-empire",
             sample_entry "Tearmoon Empire" 2)]).
  - reflexivity.
  - intros c Hc. simpl in Hc. apply list_elem_of_singleton in Hc as ->.
    vm_compute. discriminate.
Defined.

(** C10 as it was stated: of any two pairs migrated to the same URL the later
    one gives the value. With three such pairs it fails: the slug, last in the
    input, is merged in the first loop into the entry of the current URL,
    which comes first, and the legacy URL then overwrites it. *)
Lemma convert_to_latest_format_later_key_counterexample :
  ¬ (∀ (W : JncWeb) (T : PyStr) (data : pydict json) (i j : nat)
       (a b : string * json),
       dict_wf data → (i < j)%nat →
       data !! i = Some a → data !! j = Some b →
       migrated_key a = migrated_key b →
       dict_get (migrated_key b) (_convert_to_latest_format data)
       = Some (converted_value b)).
Proof.
  intros Hclaim.
  specialize (Hclaim sample_jncweb ascii_str sample_legacy_store 1%nat 2%nat
                ("https://j-novel.club/s/the-faraway-paladin",
                 sample_entry "Legacy" 3)
                ("the-faraway-paladin", JInt 5)).
  assert (dict_wf sample_legacy_store) as Hwf
    by (apply (bool_decide_unpack _); vm_compute; exact I).
  specialize (Hclaim Hwf ltac:(lia) eq_refl eq_refl eq_refl).
  vm_compute in Hclaim. discriminate.
Qed.

(** The same merge for any site: a series stored under its current URL, then
    under a legacy URL, then under its slug ends up with the value stored
    under the legacy URL, not with the one stored under the slug. *)
Lemma convert_three_forms {web : JncWeb} {text : PyStr} (series_slug legacy_url : string)
    (current legacy value : json) :
  let series_url := url_from_series_slug series_slug in
  to_new_website_series_url series_url = series_url →
  to_new_website_series_url legacy_url = series_url →
  legacy_url ≠ series_url →
  is_dict current = true → is_dict legacy = true → is_dict value = false →
  _convert_to_latest_format
    [(series_url, current); (legacy_url, legacy); (series_slug, value)]
  = [(series_url, legacy)].
Proof.
  intros series_url Hcur Hleg Hne Hc Hl Hv.
  unfold _convert_to_latest_format. cbn [foldl convert_step].
  rewrite Hc, Hl, Hv. cbn [negb dict_set]. fold series_url.
  rewrite (decide_False (P:=series_url = legacy_url)) by done.
  cbn [dict_set].
  rewrite (decide_True (P:=series_url = series_url)) by done.
  cbn [foldl convert_b_step]. rewrite Hcur, Hleg. cbn [dict_set].
  by rewrite (decide_True (P:=series_url = series_url)).
Qed.

(** ** Tasks *)

Ltac unfold_M :=
  unfold mbind, M_bind, mret, M_ret, await, lift, raise, set_tracked,
    append_new_synced, append_del_synced, read_series_url_var.

Section TaskFacts.
Context {web : JncWeb} {remote : Remote}.

Lemma fill_meta_for_track_effect series w :
  ∃ new, calls (fill_meta_for_track series w).1 = calls w ++ new
    ∧ Forall (λ e, e.1 = running w) new
    ∧ running (fill_meta_for_track series w).1 = running w
    ∧ series_url_var (fill_meta_for_track series w).1 = series_url_var w
    ∧ tracked_series (fill_meta_for_track series w).1 = tracked_series w
    ∧ new_synced (fill_meta_for_track series w).1 = new_synced w
    ∧ del_synced (fill_meta_for_track series w).1 = del_synced w
    ∧ ∀ series', (fill_meta_for_track series w).2 = Ok series' →
        raw_data series' = raw_data series.
Proof.
  unfold fill_meta_for_track. unfold_M. simpl.
  destruct (fetch_volumes_meta (series_id series)) as [vols|e]; simpl.
  - destruct (last (set_volume_series (series_id series) <$> vols)) as [lv|];
      simpl.
    + destruct (fetch_parts_meta (volume_id lv)) as [ps|e]; simpl.
      * eexists. rewrite <-app_assoc. split_and!; try done.
        -- by repeat constructor.
        -- by intros ? [= <-].
      * eexists. rewrite <-app_assoc. split_and!; try done.
        by repeat constructor.
    + eexists. split_and!; try done.
      * by repeat constructor.
      * by intros ? [= <-].
  - eexists. split_and!; try done. by repeat constructor.
Qed.

Lemma track_series_effect series w :
  ∃ new, calls (track_series series w).1 = calls w ++ new
    ∧ Forall (λ e, e.1 = running w) new
    ∧ running (track_series series w).1 = running w
    ∧ series_url_var (track_series series w).1 = series_url_var w
    ∧ new_synced (track_series series w).1 = new_synced w
    ∧ del_synced (track_series series w).1 = del_synced w
    ∧ match (track_series series w).2 with
      | Ok _ => ∃ entry,
          tracked_series (track_series series w).1
          = dict_set (series_key series) entry (tracked_series w)
      | Raise _ => tracked_series (track_series series w).1 = tracked_series w
      end.
Proof.
  destruct (fill_meta_for_track_effect series w)
    as (new & Hcalls & Hnew & Hrun & Hvar & Htr & Hns & Hds & Hraw).
  unfold track_series. unfold_M.
  destruct (fill_meta_for_track series w) as [w1 [series1|e]]; simpl in *.
  - specialize (Hraw series1 eq_refl). unfold series_key. rewrite <-Hraw.
    destruct (last_part_of series1) as [last_part|]; simpl.
    + destruct (dateutil_parse (launch (part_raw_data last_part))); simpl.
      * exists new. split_and!; try done. rewrite <-Htr. by eexists.
      * exists new. by split_and!.
    + exists new. split_and!; try done. rewrite <-Htr. by eexists.
  - exists new. by split_and!.
Qed.

Lemma do_track_effect jnc_resource w :
  ∃ new, calls (do_track jnc_resource w).1 = calls w ++ new
    ∧ Forall (λ e, e.1 = running w) new
    ∧ running (do_track jnc_resource w).1 = running w
    ∧ series_url_var (do_track jnc_resource w).1 = series_url_var w
    ∧ del_synced (do_track jnc_resource w).1 = del_synced w
    ∧ match (do_track jnc_resource w).2 with
      | Ok _ => ∃ series entry,
          resolve_series jnc_resource = Ok series
          ∧ tracked_series (do_track jnc_resource w).1
            = dict_set (series_key series) entry (tracked_series w)
          ∧ new_synced (do_track jnc_resource w).1
            = new_synced w ++ [series_key series]
      | Raise _ =>
          tracked_series (do_track jnc_resource w).1 = tracked_series w
          ∧ new_synced (do_track jnc_resource w).1 = new_synced w
      end.
Proof.
  unfold do_track. unfold_M.
  destruct (resolve_series jnc_resource) as [series|e] eqn:Hres; simpl.
  2:{ eexists. split_and!; try done. by repeat constructor. }
  set (w0 := with_calls _ w).
  destruct (track_series_effect series w0)
    as (new & Hcalls & Hnew & Hrun & Hvar & Hns & Hds & Htr).
  destruct (track_series series w0) as [w1 [[]|e]]; simpl in *.
  - exists ((running w, resolve_series_call jnc_resource) :: new).
    rewrite Hcalls. rewrite <-app_assoc. split_and!; try done.
    + by constructor.
    + destruct Htr as [entry Htr]. exists series, entry.
      rewrite Hns. by split_and!.
  - exists ((running w, resolve_series_call jnc_resource) :: new).
    rewrite Hcalls. rewrite <-app_assoc. split_and!; try done.
    by constructor.
Qed.

Lemma do_follow_effect jnc_resource w :
  ∃ new, calls (do_follow jnc_resource w).1 = calls w ++ new
    ∧ Forall (λ e, e.1 = running w) new
    ∧ running (do_follow jnc_resource w).1 = running w
    ∧ series_url_var (do_follow jnc_resource w).1 = series_url_var w
    ∧ del_synced (do_follow jnc_resource w).1 = del_synced w
    ∧ tracked_series (do_follow jnc_resource w).1 = tracked_series w
    ∧ match (do_follow jnc_resource w).2 with
      | Ok _ => ∃ series series_url,
          resolve_series jnc_resource = Ok series
          ∧ (running w, follow_series_call (series_id series)) ∈ new
          ∧ series_url_var w = Some series_url
          ∧ new_synced (do_follow jnc_resource w).1
            = new_synced w ++ [series_url]
      | Raise _ => new_synced (do_follow jnc_resource w).1 = new_synced w
      end.
Proof.
  unfold do_follow. unfold_M.
  destruct (resolve_series jnc_resource) as [series|e] eqn:Hres; simpl.
  2:{ eexists. split_and!; try done. by repeat constructor. }
  destruct (follow_series (series_id series)) as [[]|e]; simpl.
  2:{ eexists. rewrite <-app_assoc. split_and!; try done.
      by repeat constructor. }
  destruct (series_url_var w) as [series_url|] eqn:Hvar; simpl.
  - eexists. rewrite <-app_assoc. split_and!; try done.
    + by repeat constructor.
    + exists series, series_url. split_and!; try done.
      apply elem_of_cons; right. apply elem_of_cons; by left.
  - eexists. rewrite <-app_assoc. split_and!; try done.
    by repeat constructor.
Qed.

Lemma do_undollow_effect jnc_resource w :
  ∃ new, calls (do_undollow jnc_resource w).1 = calls w ++ new
    ∧ Forall (λ e, e.1 = running w) new
    ∧ running (do_undollow jnc_resource w).1 = running w
    ∧ series_url_var (do_undollow jnc_resource w).1 = series_url_var w
    ∧ new_synced (do_undollow jnc_resource w).1 = new_synced w
    ∧ tracked_series (do_undollow jnc_resource w).1 = tracked_series w
    ∧ match (do_undollow jnc_resource w).2 with
      | Ok _ => ∃ raw,
          follow_raw_data jnc_resource = Some raw
          ∧ (running w, unfollow_series_call (follow_id raw)) ∈ new
          ∧ del_synced (do_undollow jnc_resource w).1
            = del_synced w ++ [url jnc_resource]
      | Raise _ => del_synced (do_undollow jnc_resource w).1 = del_synced w
      end.
Proof.
  unfold do_undollow. unfold_M.
  destruct (follow_raw_data jnc_resource) as [raw|]; simpl.
  2:{ exists []. rewrite app_nil_r. by split_and!. }
  destruct (unfollow_series (follow_id raw)) as [[]|e]; simpl.
  - eexists. split_and!; try done.
    + by repeat constructor.
    + exists raw. split_and!; try done. apply elem_of_cons; by left.
  - eexists. split_and!; try done. by repeat constructor.
Qed.
End TaskFacts.

Section GatherFacts.
Context {web : JncWeb} {remote : Remote}.

Lemma task_step_effect t w :
  (∃ new, calls (task_step t w) = calls w ++ new
          ∧ Forall (λ e, e.1 = Some t) new)
  ∧ series_url_var (task_step t w) = series_url_var w
  ∧ match t with
    | do_track_task r =>
        del_synced (task_step t w) = del_synced w
        ∧ match task_result t w with
          | Ok _ => ∃ series entry,
              resolve_series r = Ok series
              ∧ tracked_series (task_step t w)
                = dict_set (series_key series) entry (tracked_series w)
              ∧ new_synced (task_step t w) = new_synced w ++ [series_key series]
          | Raise _ =>
              tracked_series (task_step t w) = tracked_series w
              ∧ new_synced (task_step t w) = new_synced w
          end
    | do_follow_task r =>
        del_synced (task_step t w) = del_synced w
        ∧ tracked_series (task_step t w) = tracked_series w
        ∧ match task_result t w with
          | Ok _ => ∃ series series_url,
              resolve_series r = Ok series
              ∧ (Some t, follow_series_call (series_id series))
                ∈ calls (task_step t w)
              ∧ series_url_var w = Some series_url
              ∧ new_synced (task_step t w) = new_synced w ++ [series_url]
          | Raise _ => new_synced (task_step t w) = new_synced w
          end
    | do_undollow_task r =>
        new_synced (task_step t w) = new_synced w
        ∧ tracked_series (task_step t w) = tracked_series w
        ∧ match task_result t w with
          | Ok _ => ∃ raw,
              follow_raw_data r = Some raw
              ∧ (Some t, unfollow_series_call (follow_id raw))
                ∈ calls (task_step t w)
              ∧ del_synced (task_step t w) = del_synced w ++ [url r]
          | Raise _ => del_synced (task_step t w) = del_synced w
          end
    end.
Proof.
  unfold task_step, task_result. destruct t as [r|r|r]; simpl.
  - destruct (do_track_effect r (with_running (Some (do_track_task r)) w))
      as (new & Hc & Hnew & _ & Hvar & Hds & Hres).
    split_and!; [by exists new|done|done|done].
  - destruct (do_follow_effect r (with_running (Some (do_follow_task r)) w))
      as (new & Hc & Hnew & _ & Hvar & Hds & Htr & Hres).
    split_and!; [by exists new|done|done|done|].
    destruct (do_follow r _).2; [|done].
    destruct Hres as (series & series_url & ? & Hin & ? & ?).
    exists series, series_url. split_and!; try done.
    rewrite Hc. apply elem_of_app. by right.
  - destruct (do_undollow_effect r (with_running (Some (do_undollow_task r)) w))
      as (new & Hc & Hnew & _ & Hvar & Hns & Htr & Hres).
    split_and!; [by exists new|done|done|done|].
    destruct (do_undollow r _).2; [|done].
    destruct Hres as (raw & ? & Hin & ?).
    exists raw. split_and!; try done.
    rewrite Hc. apply elem_of_app. by right.
Qed.

Lemma gather_cons_world t rest w :
  (gather (t :: rest) w).1 = (gather rest (task_step t w)).1.
Proof.
  simpl. unfold task_step.
  destruct (run_task t _) as [w1 r1]; simpl. by destruct (gather rest w1).
Qed.

Lemma gather_cons_ok t rest w :
  (gather (t :: rest) w).2 = Ok tt
  ↔ task_result t w = Ok tt ∧ (gather rest (task_step t w)).2 = Ok tt.
Proof.
  simpl. unfold task_step, task_result.
  destruct (run_task t _) as [w1 [[]|e]]; simpl;
    destruct (gather rest w1) as [w2 r2]; simpl; naive_solver.
Qed.

Lemma gather_calls ts w e :
  e ∈ calls (gather ts w).1 → e ∈ calls w ∨ ∃ t, t ∈ ts ∧ e.1 = Some t.
Proof.
  revert w. induction ts as [|t ts IH]; intros w; [by left|].
  rewrite gather_cons_world. intros [Hin|(t' & Ht' & He)]%IH.
  - destruct (task_step_effect t w) as [(new & Hc & Hnew) _].
    rewrite Hc in Hin. apply elem_of_app in Hin as [Hin|Hin]; [by left|].
    right. exists t. split; [apply elem_of_cons; by left|].
    by eapply Forall_forall in Hnew.
  - right. exists t'. split; [apply elem_of_cons; by right|done].
Qed.

Lemma gather_calls_keep ts w e : e ∈ calls w → e ∈ calls (gather ts w).1.
Proof.
  revert w. induction ts as [|t ts IH]; intros w Hin; [done|].
  rewrite gather_cons_world. apply IH.
  destruct (task_step_effect t w) as [(new & -> & _) _].
  apply elem_of_app. by left.
Qed.


(** the store after the tasks: what stays, and where the rest comes from *)
Lemma task_step_tracked t w :
  tracked_series (task_step t w) = tracked_series w
  ∨ ∃ r series entry,
      t = do_track_task r ∧ task_result t w = Ok tt
      ∧ resolve_series r = Ok series
      ∧ tracked_series (task_step t w)
        = dict_set (series_key series) entry (tracked_series w).
Proof.
  destruct (task_step_effect t w) as (_ & _ & Ht). destruct t as [r|r|r].
  - destruct Ht as [_ Ht]. destruct (task_result _ w) as [[]|e].
    + destruct Ht as (series & entry & ? & ? & ?). right.
      by exists r, series, entry.
    + left. by destruct Ht.
  - left. by destruct Ht as (_ & ? & _).
  - left. by destruct Ht as (_ & ? & _).
Qed.

Lemma gather_keys_mono ts w k :
  k ∈ dict_keys (tracked_series w) →
  k ∈ dict_keys (tracked_series (gather ts w).1).
Proof.
  revert w. induction ts as [|t ts IH]; intros w Hin; [done|].
  rewrite gather_cons_world. apply IH.
  destruct (task_step_tracked t w) as [->|(r & series & entry & _ & _ & _ & ->)];
    [done|].
  apply elem_of_dict_keys_set. by right.
Qed.

Lemma gather_keys_origin ts w k :
  k ∈ dict_keys (tracked_series (gather ts w).1) →
  k ∈ dict_keys (tracked_series w)
  ∨ ∃ r series, do_track_task r ∈ ts ∧ resolve_series r = Ok series
                ∧ k = series_key series.
Proof.
  revert w. induction ts as [|t ts IH]; intros w; [by left|].
  rewrite gather_cons_world. intros [Hin|(r & series & Hr & Hres & ->)]%IH.
  - destruct (task_step_tracked t w)
      as [Heq|(r & series & entry & -> & _ & Hres & Heq)];
      rewrite Heq in Hin; [by left|].
    apply elem_of_dict_keys_set in Hin as [->|Hin]; [right|by left].
    exists r, series. split_and!; try done. apply elem_of_cons; by left.
  - right. exists r, series. split_and!; try done. apply elem_of_cons; by right.
Qed.

Lemma gather_get_other ts w k :
  (∀ r series, do_track_task r ∈ ts → resolve_series r = Ok series →
               series_key series ≠ k) →
  dict_get k (tracked_series (gather ts w).1) = dict_get k (tracked_series w).
Proof.
  revert w. induction ts as [|t ts IH]; intros w Hne; [done|].
  rewrite gather_cons_world, IH.
  - destruct (task_step_tracked t w)
      as [->|(r & series & entry & -> & _ & Hres & ->)]; [done|].
    rewrite dict_get_set, decide_False; [done|].
    eapply Hne; [|done]. apply elem_of_cons; by left.
  - intros r series Hr. apply Hne. apply elem_of_cons; by right.
Qed.

Lemma task_step_synced_mono t w :
  (∀ u, u ∈ new_synced w → u ∈ new_synced (task_step t w))
  ∧ (∀ u, u ∈ del_synced w → u ∈ del_synced (task_step t w)).
Proof.
  destruct (task_step_effect t w) as (_ & _ & Ht).
  destruct t as [r|r|r]; destruct (task_result _ w).
  - destruct Ht as (-> & ? & ? & _ & _ & ->).
    split; [|done]. intros u Hu. apply elem_of_app. by left.
  - by destruct Ht as (-> & _ & ->).
  - destruct Ht as (-> & _ & ? & ? & _ & _ & _ & ->).
    split; [|done]. intros u Hu. apply elem_of_app. by left.
  - by destruct Ht as (-> & _ & ->).
  - destruct Ht as (-> & _ & ? & _ & _ & ->).
    split; [done|]. intros u Hu. apply elem_of_app. by left.
  - by destruct Ht as (-> & _ & ->).
Qed.

Lemma gather_synced_mono ts w :
  (∀ u, u ∈ new_synced w → u ∈ new_synced (gather ts w).1)
  ∧ (∀ u, u ∈ del_synced w → u ∈ del_synced (gather ts w).1).
Proof.
  revert w. induction ts as [|t ts IH]; intros w; [done|].
  rewrite gather_cons_world.
  destruct (IH (task_step t w)) as [IHn IHd].
  destruct (task_step_synced_mono t w) as [Hn Hd]. split; auto.
Qed.

Lemma gather_keys_ok ts w r :
  (gather ts w).2 = Ok tt → do_track_task r ∈ ts →
  ∃ series, resolve_series r = Ok series
            ∧ series_key series ∈ dict_keys (tracked_series (gather ts w).1)
            ∧ series_key series ∈ new_synced (gather ts w).1.
Proof.
  revert w. induction ts as [|t ts IH]; intros w Hok Hin;
    [by apply elem_of_nil in Hin|].
  apply gather_cons_ok in Hok as [Hok1 Hok2]. rewrite gather_cons_world.
  apply elem_of_cons in Hin as [<-|Hin]; [|by apply IH].
  destruct (task_step_effect (do_track_task r) w) as (_ & _ & _ & Ht).
  rewrite Hok1 in Ht. destruct Ht as (series & entry & Hres & Htr & Hns).
  exists series. split_and!; [done| |].
  - apply gather_keys_mono. rewrite Htr. apply elem_of_dict_keys_set. by left.
  - apply gather_synced_mono. rewrite Hns. apply elem_of_app; right.
    by apply list_elem_of_singleton.
Qed.

Lemma gather_new_origin ts w u :
  u ∈ new_synced (gather ts w).1 →
  u ∈ new_synced w
  ∨ (∃ r series, do_track_task r ∈ ts ∧ resolve_series r = Ok series
                 ∧ u = series_key series)
  ∨ (series_url_var w = Some u ∧ ∃ r, do_follow_task r ∈ ts).
Proof.
  revert w. induction ts as [|t ts IH]; intros w; [by left|].
  rewrite gather_cons_world.
  destruct (task_step_effect t w) as (_ & Hvar & Ht).
  intros [Hin|[(r & series & Hr & Hres & ->)|[Hu (r & Hr)]]]%IH.
  - destruct t as [r|r|r]; destruct (task_result _ w).
    + destruct Ht as (_ & series & ? & Hres & _ & Hns). rewrite Hns in Hin.
      apply elem_of_app in Hin as [Hin|Hu%list_elem_of_singleton]; [by left|].
      subst u.
      right; left. exists r, series. split_and!; try done.
      apply elem_of_cons; by left.
    + destruct Ht as (_ & _ & Hns). rewrite Hns in Hin. by left.
    + destruct Ht as (_ & _ & ? & series_url & _ & _ & Hv & Hns).
      rewrite Hns in Hin.
      apply elem_of_app in Hin as [Hin|Hu%list_elem_of_singleton]; [by left|].
      subst u.
      right; right. split; [done|]. exists r. apply elem_of_cons; by left.
    + destruct Ht as (_ & _ & Hns). rewrite Hns in Hin. by left.
    + destruct Ht as (Hns & _). rewrite Hns in Hin. by left.
    + destruct Ht as (Hns & _). rewrite Hns in Hin. by left.
  - right; left. exists r, series. split_and!; try done.
    apply elem_of_cons; by right.
  - right; right. rewrite <-Hvar. split; [done|]. exists r.
    apply elem_of_cons; by right.
Qed.

Lemma gather_del_origin ts w u :
  u ∈ del_synced (gather ts w).1 →
  u ∈ del_synced w ∨ ∃ r, do_undollow_task r ∈ ts ∧ u = url r.
Proof.
  revert w. induction ts as [|t ts IH]; intros w; [by left|].
  rewrite gather_cons_world.
  destruct (task_step_effect t w) as (_ & _ & Ht).
  intros [Hin|(r & Hr & ->)]%IH.
  - destruct t as [r|r|r]; destruct (task_result _ w).
    + destruct Ht as (Hds & _). rewrite Hds in Hin. by left.
    + destruct Ht as (Hds & _). rewrite Hds in Hin. by left.
    + destruct Ht as (Hds & _). rewrite Hds in Hin. by left.
    + destruct Ht as (Hds & _). rewrite Hds in Hin. by left.
    + destruct Ht as (_ & _ & ? & _ & _ & Hds). rewrite Hds in Hin.
      apply elem_of_app in Hin as [Hin|Hu%list_elem_of_singleton]; [by left|].
      subst u.
      right. exists r. split; [apply elem_of_cons; by left|done].
    + destruct Ht as (_ & _ & Hds). rewrite Hds in Hin. by left.
  - right. exists r. split; [apply elem_of_cons; by right|done].
Qed.

Lemma gather_follow_ok ts w r :
  (gather ts w).2 = Ok tt → do_follow_task r ∈ ts →
  ∃ series, resolve_series r = Ok series
            ∧ (Some (do_follow_task r), follow_series_call (series_id series))
              ∈ calls (gather ts w).1.
Proof.
  revert w. induction ts as [|t ts IH]; intros w Hok Hin;
    [by apply elem_of_nil in Hin|].
  apply gather_cons_ok in Hok as [Hok1 Hok2]. rewrite gather_cons_world.
  apply elem_of_cons in Hin as [<-|Hin]; [|by apply IH].
  destruct (task_step_effect (do_follow_task r) w) as (_ & _ & _ & _ & Ht).
  rewrite Hok1 in Ht. destruct Ht as (series & ? & Hres & Hcall & _).
  exists series. split; [done|]. by apply gather_calls_keep.
Qed.

Lemma gather_undollow_ok ts w r :
  (gather ts w).2 = Ok tt → do_undollow_task r ∈ ts →
  url r ∈ del_synced (gather ts w).1
  ∧ ∃ raw, follow_raw_data r = Some raw
           ∧ (Some (do_undollow_task r), unfollow_series_call (follow_id raw))
             ∈ calls (gather ts w).1.
Proof.
  revert w. induction ts as [|t ts IH]; intros w Hok Hin;
    [by apply elem_of_nil in Hin|].
  apply gather_cons_ok in Hok as [Hok1 Hok2]. rewrite gather_cons_world.
  apply elem_of_cons in Hin as [<-|Hin]; [|by apply IH].
  destruct (task_step_effect (do_undollow_task r) w) as (_ & _ & _ & _ & Ht).
  rewrite Hok1 in Ht. destruct Ht as (raw & Hraw & Hcall & Hds). split.
  - apply gather_synced_mono. rewrite Hds. apply elem_of_app; right.
    by apply list_elem_of_singleton.
  - exists raw. split; [done|]. by apply gather_calls_keep.
Qed.
End GatherFacts.

(** ** The two synchronisations *)

Section SyncFacts.
Context {web : JncWeb} {remote : Remote} {nursery : Scheduler}.

Lemma elem_of_schedule t l : t ∈ schedule l ↔ t ∈ l.
Proof. by rewrite (schedule_perm l). Qed.

Lemma elem_of_forward_start tracked follows acc t :
  t ∈ foldl (forward_start tracked) acc follows
  ↔ t ∈ acc
    ∨ ∃ r, t = do_track_task r ∧ r ∈ follows ∧ dict_in (url r) tracked = false.
Proof.
  revert acc. induction follows as [|f follows IH]; intros acc; simpl.
  - split; [by left|]. intros [?|(r & _ & Hin & _)]; [done|].
    by apply elem_of_nil in Hin.
  - rewrite IH. unfold forward_start.
    destruct (dict_in (url f) tracked) eqn:Hf.
    + split.
      * intros [?|(r & ? & ? & ?)]; [by left|right].
        exists r. split_and!; try done. apply elem_of_cons; by right.
      * intros [?|(r & -> & [->|Hin]%elem_of_cons & Hr)]; [by left|congruence|].
        right. by exists r.
    + rewrite elem_of_app, list_elem_of_singleton. split.
      * intros [[?| ->]|(r & ? & ? & ?)]; [by left|right..].
        -- exists f. split_and!; try done. apply elem_of_cons; by left.
        -- exists r. split_and!; try done. apply elem_of_cons; by right.
      * intros [?|(r & -> & [->|Hin]%elem_of_cons & Hr)];
          [by left; left|by left; right|].
        right. by exists r.
Qed.

Lemma elem_of_followed_index follows k :
  k ∈ dict_keys (followed_index follows) ↔ k ∈ (url <$> follows).
Proof.
  unfold followed_index.
  rewrite (foldl_set_keys url (λ f, f) [] follows k), elem_of_nil.
  naive_solver.
Qed.

Lemma forward_delete_step_effect index w series_url series_data :
  let run := forward_delete_step index (series_url, series_data) w in
  tracked_series run.1
  = (if dict_in series_url index then tracked_series w
     else dict_del series_url (tracked_series w))
  ∧ new_synced run.1 = new_synced w
  ∧ calls run.1 = calls w
  ∧ assigned run.1 = assigned w
  ∧ match run.2 with
    | Ok _ =>
        del_synced run.1
        = (if dict_in series_url index then del_synced w
           else del_synced w ++ [series_url])
    | Raise e =>
        e = AttributeError
        ∧ dict_in series_url index = false
        ∧ del_synced run.1 = del_synced w
        ∧ (series_url ∈ assigned w ∨ is_dict series_data = false)
    end.
Proof.
  unfold forward_delete_step.
  destruct (dict_in series_url index); simpl; [done|].
  unfold del_tracked, getattr_name. unfold_M. simpl.
  destruct (bool_decide (series_url ∈ assigned w)) eqn:Hassigned; simpl.
  - apply bool_decide_eq_true in Hassigned. split_and!; try done. by left.
  - destruct (is_dict series_data); simpl; [done|].
    split_and!; try done. by right.
Qed.

Lemma forward_delete_cons index item items w :
  forward_delete index (item :: items) w
  = match forward_delete_step index item w with
    | (w1, Ok _) => forward_delete index items w1
    | (w1, Raise e) => (w1, Raise e)
    end.
Proof. done. Qed.

(** what the deletion loop leaves alone, whether or not it raises *)
Lemma forward_delete_frame index items w :
  let run := forward_delete index items w in
  new_synced run.1 = new_synced w
  ∧ calls run.1 = calls w
  ∧ assigned run.1 = assigned w
  ∧ (∀ kv, kv ∈ tracked_series run.1 → kv ∈ tracked_series w)
  ∧ (∀ u, u ∈ del_synced run.1 → u ∈ del_synced w ∨ u ∈ dict_keys items).
Proof.
  revert w. induction items as [|[series_url series_data] items IH]; intros w.
  - simpl. split_and!; try done. intros u ?. by left.
  - rewrite forward_delete_cons.
    destruct (forward_delete_step_effect index w series_url series_data)
      as (Ht1 & Hn1 & Hc1 & Ha1 & Hr1).
    cbv zeta in Ht1, Hn1, Hc1, Ha1, Hr1.
    assert (∀ kv, kv ∈ tracked_series
                         (forward_delete_step index (series_url, series_data) w).1
                  → kv ∈ tracked_series w) as Hsub.
    { intros kv. rewrite Ht1. destruct (dict_in series_url index); [done|].
      unfold dict_del. by intros [_ ?]%list_elem_of_filter. }
    change (dict_keys ((series_url, series_data) :: items))
      with (series_url :: dict_keys items).
    destruct (forward_delete_step index (series_url, series_data) w)
      as [w1 [[]|e]]; simpl in *.
    + destruct (IH w1) as (Hn & Hc & Ha & Ht & Hd). cbv zeta in *.
      rewrite Hn, Hc, Ha. split_and!; try done.
      * intros kv Hkv. by apply Hsub, Ht.
      * intros u [Hu|Hu]%Hd; [|right; apply elem_of_cons; by right].
        rewrite Hr1 in Hu. destruct (dict_in series_url index); [by left|].
        apply elem_of_app in Hu as [?|Hu%list_elem_of_singleton]; [by left|].
        right. apply elem_of_cons. by left.
    + destruct Hr1 as (_ & _ & Hd1 & _). split_and!; try done.
      intros u. rewrite Hd1. by left.
Qed.

(** what the deletion loop has done when it has not raised *)
Lemma forward_delete_effect index items w :
  (forward_delete index items w).2 = Ok tt →
  let w' := (forward_delete index items w).1 in
  (∀ k, k ∈ dict_keys (tracked_series w')
        ↔ k ∈ dict_keys (tracked_series w)
          ∧ ¬ (k ∈ dict_keys items ∧ dict_in k index = false))
  ∧ (∀ u, u ∈ del_synced w'
          ↔ u ∈ del_synced w ∨ (u ∈ dict_keys items ∧ dict_in u index = false))
  ∧ new_synced w' = new_synced w
  ∧ calls w' = calls w.
Proof.
  revert w. induction items as [|[series_url series_data] items IH]; intros w.
  - simpl. intros _. split_and!; try done.
    + intros k. rewrite elem_of_nil. tauto.
    + intros u. rewrite elem_of_nil. tauto.
  - change (dict_keys ((series_url, series_data) :: items))
      with (series_url :: dict_keys items).
    rewrite forward_delete_cons.
    destruct (forward_delete_step_effect index w series_url series_data)
      as (Ht1 & Hn1 & Hc1 & _ & Hd1).
    cbv zeta in Ht1, Hn1, Hc1, Hd1.
    destruct (forward_delete_step index (series_url, series_data) w)
      as [w1 [[]|e]]; simpl in Ht1, Hn1, Hc1, Hd1 |- *; [|done].
    intros Hok. destruct (IH w1 Hok) as (Hk & Hd & Hn & Hc).
    cbv zeta in Hk, Hd, Hn, Hc.
    rewrite Hn, Hc. split_and!; try done.
    + intros k. rewrite Hk, Ht1, elem_of_cons.
      destruct (dict_in series_url index) eqn:Hin.
      * split; intros [? Hno]; (split; [done|]); intros [Hk' ?].
        -- destruct Hk' as [->|]; [congruence|]. by apply Hno.
        -- apply Hno. split; [by right|done].
      * rewrite dict_keys_del, list_elem_of_filter. split.
        -- intros [[Hne ?] Hno]. split; [done|]. intros [[->|?] ?]; [done|].
           by apply Hno.
        -- intros [? Hno]. split_and!; [|done|].
           ++ intros ->. apply Hno. split; [by left|done].
           ++ intros [? ?]. apply Hno. split; [by right|done].
    + intros u. rewrite Hd, Hd1, elem_of_cons.
      destruct (dict_in series_url index) eqn:Hin.
      * split; (intros [?|[Hu ?]]; [by left|right]).
        -- split; [by right|done].
        -- split; [|done]. destruct Hu as [->|]; [congruence|done].
      * rewrite elem_of_app, list_elem_of_singleton. split.
        -- intros [[?| ->]|[? ?]]; [by left|right..].
           ++ split; [by left|done].
           ++ split; [by right|done].
        -- intros [?|[[->|?] ?]]; [by left; left|by left; right|by right].
Qed.

(** what a run of [sync_series_forward] is made of *)
Lemma sync_series_forward_unfold follows tracked (is_delete : bool) :
  let f_tasks := schedule (foldl (forward_start tracked) [] follows) in
  let w1 := (gather f_tasks (initial_world tracked)).1 in
  match (gather f_tasks (initial_world tracked)).2 with
  | Raise e => sync_series_forward follows tracked is_delete = (w1, Raise e)
  | Ok _ =>
      let deleted : world * result unit :=
        if is_delete then
          forward_delete (followed_index follows) (tracked_series w1) w1
        else (w1, Ok tt) in
      sync_series_forward follows tracked is_delete
      = (deleted.1,
         match deleted.2 with
         | Ok _ => Ok (new_synced deleted.1, del_synced deleted.1)
         | Raise e => Raise e
         end)
  end.
Proof.
  unfold sync_series_forward. simpl.
  destruct (gather _ (initial_world tracked)) as [w1 [[]|e]]; [|done].
  simpl. destruct is_delete; [|done].
  by destruct (forward_delete _ _ w1) as [w2 [[]|e]].
Qed.

Lemma elem_of_forward_tasks follows tracked t :
  t ∈ schedule (foldl (forward_start tracked) [] follows)
  ↔ ∃ r, t = do_track_task r ∧ r ∈ follows ∧ dict_in (url r) tracked = false.
Proof.
  rewrite elem_of_schedule, elem_of_forward_start, elem_of_nil. naive_solver.
Qed.

(** the store and the lists once the tasks of [sync_series_forward] are done *)
Lemma forward_gather follows tracked :
  let f_tasks := schedule (foldl (forward_start tracked) [] follows) in
  let w1 := (gather f_tasks (initial_world tracked)).1 in
  (∀ k, k ∈ dict_keys tracked → k ∈ dict_keys (tracked_series w1))
  ∧ (∀ k, k ∈ dict_keys (tracked_series w1) →
          k ∈ dict_keys tracked
          ∨ ∃ r series, r ∈ follows ∧ dict_in (url r) tracked = false
                        ∧ resolve_series r = Ok series ∧ k = series_key series)
  ∧ (∀ u, u ∈ new_synced w1 →
          ∃ r series, r ∈ follows ∧ dict_in (url r) tracked = false
                      ∧ resolve_series r = Ok series ∧ u = series_key series)
  ∧ del_synced w1 = []
  ∧ (∀ e, e ∈ calls w1 →
          ∃ r, e.1 = Some (do_track_task r) ∧ r ∈ follows
               ∧ dict_in (url r) tracked = false)
  ∧ ((gather f_tasks (initial_world tracked)).2 = Ok tt →
     ∀ r, r ∈ follows → dict_in (url r) tracked = false →
          ∃ series, resolve_series r = Ok series
                    ∧ series_key series ∈ dict_keys (tracked_series w1)
                    ∧ series_key series ∈ new_synced w1).
Proof.
  intros f_tasks w1. split_and!.
  - intros k Hk. by apply gather_keys_mono.
  - intros k [Hk|(r & series & Hr & Hres & ->)]%gather_keys_origin; [by left|].
    right. apply elem_of_forward_tasks in Hr as (r' & [= <-] & ? & ?).
    by exists r, series.
  - intros u [Hu|[(r & series & Hr & Hres & ->)|[Hu _]]]%gather_new_origin;
      [by apply elem_of_nil in Hu| |done].
    apply elem_of_forward_tasks in Hr as (r' & [= <-] & ? & ?).
    by exists r, series.
  - apply elem_of_nil_inv. intros u [Hu|(r & Hr & _)]%gather_del_origin;
      [by apply elem_of_nil in Hu|].
    by apply elem_of_forward_tasks in Hr as (r' & [=] & _).
  - intros e [He|(t & Ht & He)]%gather_calls; [by apply elem_of_nil in He|].
    apply elem_of_forward_tasks in Ht as (r & -> & ? & ?). by exists r.
  - intros Hok r Hr Hnew. apply gather_keys_ok; [done|].
    apply elem_of_forward_tasks. by exists r.
Qed.
End SyncFacts.

(** ** Forward synchronisation, claim by claim *)

(** C1. Forward synchronisation with deletion, when every task succeeds and
    the remote side resolves each follow to the series of its URL, leaves a
    store whose set of keys is exactly the set of URLs of the follows: every
    follow that was not tracked has been inserted and every tracked entry
    that is not followed has been removed. The two lists returned are the
    URLs inserted and the keys removed. *)
Theorem sync_series_forward_delete_key_set {web : JncWeb}
    {remote : Remote} {nursery : Scheduler}
    (follows : list JNCResource) (tracked : pydict json)
    (new del : list string) :
  (∀ r series, r ∈ follows → resolve_series r = Ok series →
               series_key series = url r) →
  (sync_series_forward follows tracked true).2 = Ok (new, del) →
  let tracked' := tracked_series (sync_series_forward follows tracked true).1 in
  key_set tracked' = list_to_set (url <$> follows)
  ∧ (∀ r, r ∈ follows → url r ∈ dict_keys tracked')
  ∧ (∀ k, k ∈ dict_keys tracked → k ∉ (url <$> follows) → k ∉ dict_keys tracked')
  ∧ (∀ u, u ∈ new ↔ u ∈ (url <$> follows) ∧ u ∉ dict_keys tracked)
  ∧ (∀ u, u ∈ del ↔ u ∈ dict_keys tracked ∧ u ∉ (url <$> follows)).
Proof.
  intros Hcontract Hrun tracked'. unfold tracked'. clear tracked'.
  pose proof (sync_series_forward_unfold follows tracked true) as Hu.
  destruct (forward_gather follows tracked)
    as (Hmono & Horigin & Hnew & Hdel & _ & Hok).
  cbv zeta in Hu, Hmono, Horigin, Hnew, Hdel, Hok.
  set (w1 := (gather _ (initial_world tracked)).1) in *.
  destruct (gather _ (initial_world tracked)).2 as [[]|e] eqn:Hg;
    rewrite Hu in Hrun |- *; [|done].
  specialize (Hok eq_refl). clear Hu. simpl in Hrun |- *.
  pose proof (forward_delete_effect (followed_index follows)
                (tracked_series w1) w1) as Heffect.
  destruct (forward_delete (followed_index follows) (tracked_series w1) w1)
    as [w2 [[]|e]]; simpl in Hrun, Heffect |- *; [|done].
  destruct (Heffect eq_refl) as (Hk & Hd & Hn & _). clear Heffect.
  injection Hrun as <- <-.
  assert (∀ k, k ∈ dict_keys (tracked_series w2) ↔ k ∈ (url <$> follows)) as Hkeys.
  { intros k. rewrite Hk. split.
    - intros [Hin Hno].
      destruct (dict_in k (followed_index follows)) eqn:Hidx.
      + by apply dict_in_true, elem_of_followed_index in Hidx.
      + exfalso. by apply Hno.
    - intros Hin. split.
      + apply list_elem_of_fmap in Hin as (r & -> & Hr).
        destruct (dict_in (url r) tracked) eqn:Htr.
        * by apply Hmono, dict_in_true.
        * destruct (Hok r Hr Htr) as (series & Hres & Hin & _).
          by rewrite <-(Hcontract r series).
      + intros [_ Hidx]. apply dict_in_false in Hidx. apply Hidx.
        by apply elem_of_followed_index. }
  split_and!.
  - apply set_eq. intros k.
    by rewrite elem_of_key_set, Hkeys, elem_of_list_to_set.
  - intros r Hr. apply Hkeys, list_elem_of_fmap. by exists r.
  - intros k _ Hnot. by rewrite Hkeys.
  - intros u. rewrite Hn. split.
    + intros (r & series & Hr & Htr & Hres & ->)%Hnew.
      rewrite (Hcontract r series Hr Hres). split.
      * apply list_elem_of_fmap. by exists r.
      * by apply dict_in_false.
    + intros [(r & -> & Hr)%list_elem_of_fmap Htr%dict_in_false].
      destruct (Hok r Hr Htr) as (series & Hres & _ & Hin).
      by rewrite <-(Hcontract r series).
  - intros u. rewrite Hd, Hdel, elem_of_nil. split.
    + intros [[]|[Hin Hidx]]. apply dict_in_false in Hidx.
      rewrite elem_of_followed_index in Hidx. split; [|done].
      apply Horigin in Hin as [?|(r & series & Hr & _ & Hres & ->)]; [done|].
      exfalso. apply Hidx. rewrite (Hcontract r series Hr Hres).
      apply list_elem_of_fmap. by exists r.
    + intros [Hin Hnot]. right. split; [by apply Hmono|].
      apply dict_in_false. by rewrite elem_of_followed_index.
Qed.

(** C8. Forward synchronisation issues no remote operation for a follow whose
    URL is already a key of the store: every operation it issues (resolving a
    series, fetching its volumes or parts) belongs to a task started for a
    follow that is not tracked, so the operations issued for a tracked follow
    number zero, whether or not deletion is on and whether or not the tasks
    succeed. *)
Theorem sync_series_forward_no_refetch {web : JncWeb}
    {remote : Remote} {nursery : Scheduler}
    (follows : list JNCResource) (tracked : pydict json) (is_delete : bool)
    (f : JNCResource) :
  dict_in (url f) tracked = true →
  length (filter (λ e, task_resource <$> e.1 = Some f)
            (calls (sync_series_forward follows tracked is_delete).1)) = 0%nat
  ∧ ∀ e, e ∈ calls (sync_series_forward follows tracked is_delete).1 →
         ∃ r, e.1 = Some (do_track_task r) ∧ r ∈ follows
              ∧ dict_in (url r) tracked = false.
Proof.
  intros Hf.
  assert (∀ e, e ∈ calls (sync_series_forward follows tracked is_delete).1 →
               ∃ r, e.1 = Some (do_track_task r) ∧ r ∈ follows
                    ∧ dict_in (url r) tracked = false) as Hcalls.
  { pose proof (sync_series_forward_unfold follows tracked is_delete) as Hu.
    destruct (forward_gather follows tracked) as (_ & _ & _ & _ & Hc & _).
    cbv zeta in Hu, Hc.
    set (w1 := (gather _ (initial_world tracked)).1) in *.
    destruct (gather _ (initial_world tracked)).2 as [[]|e']; rewrite Hu;
      [|done].
    simpl. destruct is_delete; [|done].
    destruct (forward_delete_frame (followed_index follows)
                (tracked_series w1) w1) as (_ & Hsame & _).
    cbv zeta in Hsame. by rewrite Hsame. }
  split; [|done].
  apply length_zero_iff_nil, elem_of_nil_inv.
  intros e [He Hin]%list_elem_of_filter.
  destruct (Hcalls e Hin) as (r & Hr & _ & Htr).
  rewrite Hr in He. simpl in He. injection He as ->. congruence.
Qed.

(** C9. Without deletion, forward synchronisation removes nothing: every key
    of the store is still a key afterwards, the list of removed URLs is
    empty, and an entry keeps its value when the remote side resolves each
    follow to the series of its URL. With no follow at all the store is
    unchanged and both lists are empty. *)
Theorem sync_series_forward_keep {web : JncWeb}
    {remote : Remote} {nursery : Scheduler}
    (follows : list JNCResource) (tracked : pydict json) :
  (∀ k, k ∈ dict_keys tracked →
        k ∈ dict_keys (tracked_series (sync_series_forward follows tracked false).1))
  ∧ del_synced (sync_series_forward follows tracked false).1 = []
  ∧ (∀ new del, (sync_series_forward follows tracked false).2 = Ok (new, del) →
                del = [])
  ∧ ((∀ r series, r ∈ follows → resolve_series r = Ok series →
                  series_key series = url r) →
     ∀ k, k ∈ dict_keys tracked →
          dict_get k (tracked_series (sync_series_forward follows tracked false).1)
          = dict_get k tracked)
  ∧ (follows = [] →
     sync_series_forward follows tracked false
     = (initial_world tracked, Ok ([], []))).
Proof.
  pose proof (sync_series_forward_unfold follows tracked false) as Hu.
  destruct (forward_gather follows tracked) as (Hmono & _ & _ & Hdel & _ & _).
  cbv zeta in Hu, Hmono, Hdel.
  split_and!.
  - destruct (gather _ (initial_world tracked)).2; by rewrite Hu.
  - destruct (gather _ (initial_world tracked)).2; by rewrite Hu.
  - intros new del. destruct (gather _ (initial_world tracked)).2;
      rewrite Hu; [|done]. simpl. by intros [= _ <-].
  - intros Hcontract k Hk.
    assert (dict_get k (tracked_series
              (gather (schedule (foldl (forward_start tracked) [] follows))
                 (initial_world tracked)).1) = dict_get k tracked) as Hget.
    { rewrite gather_get_other; [done|].
      intros r series (r' & [= <-] & Hr & Htr)%elem_of_forward_tasks Hres <-.
      apply dict_in_false in Htr. apply Htr.
      by rewrite <-(Hcontract r series). }
    destruct (gather _ (initial_world tracked)).2; by rewrite Hu.
  - intros ->. unfold sync_series_forward. simpl.
    pose proof (schedule_perm []) as Hnil. apply Permutation_nil_r in Hnil.
    by rewrite Hnil.
Qed.

Lemma sample_resolves_to_url r series :
  r ∈ sample_follows →
  resolve_series (Remote:=sample_remote) r = Ok series →
  series_key (web:=sample_jncweb) series = url r.
Proof.
  unfold sample_follows. rewrite !elem_of_cons, elem_of_nil.
  intros [->|[->|[->|[]]]]; simpl; by intros [= <-].
Qed.

Lemma sync_series_forward_delete_key_set_witness :
  key_set (tracked_series
             (sync_series_forward (web:=sample_jncweb) (remote:=sample_remote)
                (nursery:=lifo_scheduler) sample_follows sample_tracked true).1)
  = list_to_set (url <$> sample_follows).
Proof.
  eapply (sync_series_forward_delete_key_set (web:=sample_jncweb)
            (remote:=sample_remote) (nursery:=lifo_scheduler)
            sample_follows sample_tracked).
  - exact sample_resolves_to_url.
  - vm_compute. reflexivity.
Defined.

Lemma sync_series_forward_no_refetch_witness :
  length (filter (λ e, task_resource <$> e.1 = Some (sample_follow "tearmoon-empire"))
            (calls (sync_series_forward (web:=sample_jncweb)
                      (remote:=sample_remote) (nursery:=fifo_scheduler)
                      sample_follows sample_tracked false).1)) = 0%nat.
Proof.
  apply (sync_series_forward_no_refetch (web:=sample_jncweb)
           (remote:=sample_remote) (nursery:=fifo_scheduler)
           sample_follows sample_tracked false (sample_follow "tearmoon-empire")).
  reflexivity.
Defined.

(** ** Tracking a series, claim by claim *)

Lemma last_set_last {A} (x : A) (l : list A) :
  l ≠ [] → last (set_last x l) = Some x.
Proof.
  intros Hl. unfold set_last.
  destruct (reverse l) as [|y front] eqn:Hrev.
  - apply (f_equal reverse) in Hrev. rewrite reverse_involutive in Hrev. done.
  - rewrite reverse_cons. apply last_snoc.
Qed.

Lemma last_part_of_filled series (vols : list Volume) lv (ps : list Part) :
  last vols = Some lv →
  last_part_of (set_volumes (set_last (set_parts ps lv) vols) series) = last ps.
Proof.
  intros Hlast. unfold last_part_of. simpl.
  rewrite last_set_last; [done|]. by intros ->.
Qed.

(** C7 (amended). The entry that tracking a series inserts. The parts are
    fetched for the last volume only, and only they are looked at: when the
    series has no volume, or its last volume has no part, whatever the
    volumes before it hold, the entry records part [0] and the date
    [1111-11-11T11:11:11.111Z]; otherwise it records the relative number and
    the launch date of the last part of the last volume, the part being
    handed to [to_relative_spec_from_part] with its reference to that
    volume. *)
Theorem track_series_entry {web : JncWeb} {remote : Remote}
    (series : Series) (w : world) (vols : list Volume) :
  fetch_volumes_meta (series_id series) = Ok vols →
  let run := track_series series w in
  let issued := drop (length (calls w)) (calls run.1) in
  let title := series_title (raw_data series) in
  (vols = [] →
   run.2 = Ok tt
   ∧ tracked_series run.1
     = dict_set (series_key series)
         (tracked_entry "1111-11-11T11:11:11.111Z" (JInt 0) title)
         (tracked_series w)
   ∧ issued.*2 = [fetch_volumes_meta_call (series_id series)])
  ∧ (∀ lv, last vols = Some lv → fetch_parts_meta (volume_id lv) = Ok [] →
     run.2 = Ok tt
     ∧ tracked_series run.1
       = dict_set (series_key series)
           (tracked_entry "1111-11-11T11:11:11.111Z" (JInt 0) title)
           (tracked_series w)
     ∧ issued.*2 = [fetch_volumes_meta_call (series_id series);
                    fetch_parts_meta_call (volume_id lv)])
  ∧ (∀ lv ps last_part,
       last vols = Some lv → fetch_parts_meta (volume_id lv) = Ok ps →
       last ps = Some last_part →
       dateutil_parse (launch (part_raw_data last_part)) = Ok tt →
       run.2 = Ok tt
       ∧ tracked_series run.1
         = dict_set (series_key series)
             (tracked_entry (launch (part_raw_data last_part))
                (to_relative_spec_from_part
                   {| part_id := part_id last_part;
                      part_raw_data := part_raw_data last_part;
                      part_volume := Some (volume_id lv) |})
                title)
             (tracked_series w)
       ∧ issued.*2 = [fetch_volumes_meta_call (series_id series);
                      fetch_parts_meta_call (volume_id lv)]).
Proof.
  intros Hvols run issued title. unfold issued, run, title.
  clear run issued title.
  unfold track_series, fill_meta_for_track. unfold_M. simpl.
  rewrite Hvols. simpl. split_and!.
  - intros ->. simpl. split_and!; [done..|].
    by rewrite drop_app_length.
  - intros lv Hlast Hparts. rewrite fmap_last, Hlast. simpl.
    rewrite Hparts. simpl.
    rewrite last_part_of_filled by (by rewrite fmap_last, Hlast).
    simpl. split_and!; [done..|].
    by rewrite <-app_assoc, drop_app_length.
  - intros lv ps last_part Hlast Hparts Hpart Hdate.
    rewrite fmap_last, Hlast. simpl. rewrite Hparts. simpl.
    rewrite last_part_of_filled by (by rewrite fmap_last, Hlast).
    rewrite fmap_last, Hpart. simpl. rewrite Hdate. simpl.
    split_and!; [done..|].
    by rewrite <-app_assoc, drop_app_length.
Qed.

Lemma track_series_entry_witness :
  tracked_series
    (track_series (web:=sample_jncweb) (remote:=sample_remote)
       (sample_series "the-faraway-paladin") (initial_world [])).1
  = [("https://j-novel.club/series/the-faraway-paladin",
      JObj [("part_date", JStr "2021-03-08T17:00:00.000Z");
            ("part", JStr "v2.v2p2"); ("name", JStr "The Faraway Paladin")])].
Proof.
  destruct (track_series_entry (web:=sample_jncweb) (remote:=sample_remote)
              (sample_series "the-faraway-paladin") (initial_world [])
              [sample_volume "v1"; sample_volume "v2"] eq_refl)
    as (_ & _ & Hlast).
  destruct (Hlast (sample_volume "v2")
              [sample_part "v2p1" "2021-03-01T17:00:00.000Z";
               sample_part "v2p2" "2021-03-08T17:00:00.000Z"]
              (sample_part "v2p2" "2021-03-08T17:00:00.000Z")
              eq_refl eq_refl eq_refl eq_refl) as (_ & Htracked & _).
  exact Htracked.
Defined.

(** C7 as it was stated: a series that has published parts is recorded with
    its last part. It is not when its last volume has no part yet: the parts
    of the earlier volumes are not fetched, and the series is recorded as not
    started. *)
Lemma track_series_entry_counterexample :
  ¬ (∀ (W : JncWeb) (R : Remote) (series : Series) (w : world)
       (vols : list Volume) (v : Volume) (p : Part) (ps : list Part),
       fetch_volumes_meta (series_id series) = Ok vols →
       v ∈ vols →
       fetch_parts_meta (volume_id v) = Ok (p :: ps) →
       (track_series series w).2 = Ok tt →
       dict_get (series_key series) (tracked_series (track_series series w).1)
       ≠ Some (tracked_entry "1111-11-11T11:11:11.111Z" (JInt 0)
                 (series_title (raw_data series)))).
Proof.
  intros Hclaim.
  apply (Hclaim sample_jncweb announced_remote
           (sample_series "the-faraway-paladin") (initial_world [])
           [sample_volume "v1"; sample_volume "v2"; sample_volume "v3"]
           (sample_volume "v2")
           (sample_part "v2p1" "2021-03-01T17:00:00.000Z") []).
  - reflexivity.
  - apply elem_of_cons; right. apply elem_of_cons; by left.
  - reflexivity.
  - reflexivity.
  - reflexivity.
Qed.

(** ** Backward synchronisation *)

Section BackwardFacts.
Context {web : JncWeb} {remote : Remote} {nursery : Scheduler}.

Lemma backward_start_effect index keys w acc :
  let st := foldl (backward_start index) (w, acc) keys in
  series_url_var st.1
  = match last keys with Some u => Some u | None => series_url_var w end
  ∧ tracked_series st.1 = tracked_series w
  ∧ new_synced st.1 = new_synced w
  ∧ del_synced st.1 = del_synced w
  ∧ calls st.1 = calls w
  ∧ ∀ t, t ∈ st.2
         ↔ t ∈ acc
           ∨ ∃ k, k ∈ keys ∧ dict_in k index = false
                  ∧ t = do_follow_task (resource_from_url k).
Proof.
  revert w acc. induction keys as [|k keys IH]; intros w acc.
  - simpl. split_and!; try done. intros t. split; [by left|].
    intros [?|(k & Hk & _)]; [done|]. by apply elem_of_nil in Hk.
  - cbn [foldl].
    assert (∃ w1 acc1,
              backward_start index (w, acc) k = (w1, acc1)
              ∧ series_url_var w1 = Some k
              ∧ tracked_series w1 = tracked_series w
              ∧ new_synced w1 = new_synced w
              ∧ del_synced w1 = del_synced w
              ∧ calls w1 = calls w
              ∧ ∀ t, t ∈ acc1
                     ↔ t ∈ acc
                       ∨ (dict_in k index = false
                          ∧ t = do_follow_task (resource_from_url k)))
      as (w1 & acc1 & -> & Hvar & Htr & Hns & Hds & Hc & Hacc).
    { unfold backward_start. destruct (dict_in k index).
      - eexists _, _. split_and!; try done. intros t. naive_solver.
      - eexists _, _. split_and!; try done. intros t.
        rewrite elem_of_app, list_elem_of_singleton. naive_solver. }
    destruct (IH w1 acc1) as (Hvar' & Htr' & Hns' & Hds' & Hc' & Hacc').
    cbv zeta in *. rewrite Htr', Hns', Hds', Hc', Hvar'.
    split; [|split; [done|split; [done|split; [done|split; [done|]]]]].
    + rewrite (last_cons k keys). by destruct (last keys).
    + intros t. rewrite Hacc', Hacc. split.
      * intros [[?|[? ->]]|(k0 & ? & ? & ->)]; [by left|right..].
        -- exists k. split_and!; try done. apply elem_of_cons; by left.
        -- exists k0. split_and!; try done. apply elem_of_cons; by right.
      * intros [?|(k0 & [->|?]%elem_of_cons & ? & ->)];
          [by left; left|by left; right|].
        right. by exists k0.
Qed.

Lemma elem_of_backward_start_unfollow tracked follows acc t :
  t ∈ foldl (backward_start_unfollow tracked) acc follows
  ↔ t ∈ acc
    ∨ ∃ r, t = do_undollow_task r ∧ r ∈ follows
           ∧ dict_in (url r) tracked = false.
Proof.
  revert acc. induction follows as [|f follows IH]; intros acc; simpl.
  - split; [by left|]. intros [?|(r & _ & Hin & _)]; [done|].
    by apply elem_of_nil in Hin.
  - rewrite IH. unfold backward_start_unfollow.
    destruct (dict_in (url f) tracked) eqn:Hf; simpl.
    + split.
      * intros [?|(r & ? & ? & ?)]; [by left|right].
        exists r. split_and!; try done. apply elem_of_cons; by right.
      * intros [?|(r & -> & [->|Hin]%elem_of_cons & Hr)]; [by left|congruence|].
        right. by exists r.
    + rewrite elem_of_app, list_elem_of_singleton. split.
      * intros [[?| ->]|(r & ? & ? & ?)]; [by left|right..].
        -- exists f. split_and!; try done. apply elem_of_cons; by left.
        -- exists r. split_and!; try done. apply elem_of_cons; by right.
      * intros [?|(r & -> & [->|Hin]%elem_of_cons & Hr)];
          [by left; left|by left; right|].
        right. by exists r.
Qed.

(** what a run of [sync_series_backward] is made of *)
Lemma sync_series_backward_unfold follows tracked (is_delete : bool) :
  let st := foldl (backward_start (followed_index follows))
              (initial_world tracked, []) (dict_keys tracked) in
  let f_tasks :=
    schedule (if is_delete
              then foldl (backward_start_unfollow tracked) st.2 follows
              else st.2) in
  sync_series_backward follows tracked is_delete
  = ((gather f_tasks st.1).1,
     match (gather f_tasks st.1).2 with
     | Ok _ => Ok (new_synced (gather f_tasks st.1).1,
                   del_synced (gather f_tasks st.1).1)
     | Raise e => Raise e
     end).
Proof.
  unfold sync_series_backward. simpl.
  destruct (foldl _ (initial_world tracked, []) (dict_keys tracked))
    as [w0 ts0]; simpl.
  by destruct (gather _ w0) as [w1 [[]|e]].
Qed.

(** every URL that a run of [sync_series_backward] reports as added is the
    last key of the store, whatever series was followed *)
Lemma sync_series_backward_added_last_key follows tracked is_delete new del :
  (sync_series_backward follows tracked is_delete).2 = Ok (new, del) →
  ∀ u, u ∈ new → last (dict_keys tracked) = Some u.
Proof.
  rewrite sync_series_backward_unfold. cbv zeta. simpl.
  destruct (backward_start_effect (followed_index follows) (dict_keys tracked)
              (initial_world tracked) [])
    as (Hvar & _ & Hns & _ & _ & Hts).
  cbv zeta in *.
  set (st := foldl _ (initial_world tracked, []) (dict_keys tracked)) in *.
  set (ts := schedule _).
  destruct (gather ts st.1).2 as [[]|e] eqn:Hg; [|done].
  intros [= <- <-] u Hu.
  apply gather_new_origin in Hu as [Hu|[(r & series & Hr & _)|[Hu _]]].
  - rewrite Hns in Hu. by apply elem_of_nil in Hu.
  - exfalso. unfold ts in Hr. apply (proj1 (elem_of_schedule _ _)) in Hr.
    destruct is_delete.
    + apply elem_of_backward_start_unfollow in Hr as [Hr|(? & [=] & _)].
      apply Hts in Hr as [Hr|(? & _ & _ & [=])]. by apply elem_of_nil in Hr.
    + apply Hts in Hr as [Hr|(? & _ & _ & [=])]. by apply elem_of_nil in Hr.
  - rewrite Hvar in Hu. simpl in Hu.
    by destruct (last (dict_keys tracked)).
Qed.

(** the remote operations of a successful run of [sync_series_backward] with
    deletion: a follow for every tracked URL that is not followed, an
    unfollow for every follow that is not tracked, and the removed list holds
    exactly the URLs of the latter *)
Lemma sync_series_backward_remote follows tracked new del :
  (sync_series_backward follows tracked true).2 = Ok (new, del) →
  let issued := calls (sync_series_backward follows tracked true).1 in
  (∀ k, k ∈ dict_keys tracked → k ∉ (url <$> follows) →
        ∃ series,
          resolve_series (resource_from_url k) = Ok series
          ∧ (Some (do_follow_task (resource_from_url k)),
             follow_series_call (series_id series)) ∈ issued)
  ∧ (∀ f, f ∈ follows → url f ∉ dict_keys tracked →
          ∃ raw,
            follow_raw_data f = Some raw
            ∧ (Some (do_undollow_task f), unfollow_series_call (follow_id raw))
              ∈ issued)
  ∧ (∀ e, e ∈ issued →
          (∃ k, k ∈ dict_keys tracked ∧ (k ∉ url <$> follows)
                ∧ (e.1 = Some (do_follow_task (resource_from_url k))))
          ∨ (∃ f, f ∈ follows ∧ (url f ∉ dict_keys tracked)
                  ∧ (e.1 = Some (do_undollow_task f))))
  ∧ (∀ u, u ∈ del ↔ u ∈ (url <$> follows) ∧ u ∉ dict_keys tracked).
Proof.
  rewrite sync_series_backward_unfold. cbv zeta. simpl.
  destruct (backward_start_effect (followed_index follows) (dict_keys tracked)
              (initial_world tracked) [])
    as (_ & _ & _ & Hds & Hc & Hts).
  cbv zeta in *.
  set (st := foldl _ (initial_world tracked, []) (dict_keys tracked)) in *.
  set (ts := schedule _).
  assert (∀ t, t ∈ ts
               ↔ (∃ k, k ∈ dict_keys tracked ∧ (k ∉ url <$> follows)
                       ∧ (t = do_follow_task (resource_from_url k)))
                 ∨ (∃ f, f ∈ follows ∧ (url f ∉ dict_keys tracked)
                         ∧ t = do_undollow_task f)) as Hin_ts.
  { intros t. unfold ts.
    rewrite elem_of_schedule, elem_of_backward_start_unfollow, Hts, elem_of_nil.
    split.
    - intros [[[]|(k & Hk & Hidx & ->)]|(f & -> & Hf & Htr)].
      + left. exists k. split_and!; try done.
        apply dict_in_false in Hidx. by rewrite <-elem_of_followed_index.
      + right. exists f. split_and!; try done. by apply dict_in_false.
    - intros [(k & Hk & Hidx & ->)|(f & Hf & Htr & ->)].
      + left; right. exists k. split_and!; try done.
        apply dict_in_false. by rewrite elem_of_followed_index.
      + right. exists f. split_and!; try done. by apply dict_in_false. }
  destruct (gather ts st.1).2 as [[]|e] eqn:Hg; [|done].
  intros [= <- <-]. split_and!.
  - intros k Hk Hnot. apply gather_follow_ok; [done|].
    apply Hin_ts. left. by exists k.
  - intros f Hf Hnot. apply gather_undollow_ok; [done|].
    apply Hin_ts. right. by exists f.
  - intros e [He|(t & Ht & He)]%gather_calls.
    + rewrite Hc in He. by apply elem_of_nil in He.
    + apply Hin_ts in Ht as [(k & ? & ? & ->)|(f & ? & ? & ->)].
      * left. by exists k.
      * right. by exists f.
  - intros u. split.
    + intros [Hu|(r & Hr & ->)]%gather_del_origin.
      * rewrite Hds in Hu. by apply elem_of_nil in Hu.
      * apply Hin_ts in Hr as [(k & _ & _ & [=])|(f & Hf & Htr & [= <-])].
        split; [|done]. apply list_elem_of_fmap. by exists r.
    + intros [(f & -> & Hf)%list_elem_of_fmap Htr].
      apply gather_undollow_ok; [done|]. apply Hin_ts. right. by exists f.
Qed.
End BackwardFacts.

(** C2. On the store with the two keys [ascendance-of-a-bookworm] and
    [tearmoon-empire], in this order, and the follows [the-faraway-paladin]
    and [tearmoon-empire], backward synchronisation with deletion follows
    [ascendance-of-a-bookworm] and unfollows [the-faraway-paladin], as it
    should; but the list of added URLs that it returns holds the URL of
    [tearmoon-empire], the last key of the store, and not the URL of the
    series that was followed. *)
Theorem sync_series_backward_added_late_binding :
  let run :=
    sync_series_backward (web:=sample_jncweb) (remote:=sample_remote)
      (nursery:=fifo_scheduler)
      [sample_follow "the-faraway-paladin"; sample_follow "tearmoon-empire"]
      sample_tracked true in
  (calls run.1).*2
  = [resolve_series_call
       (sample_resource_from_url
          "https://j-novel.club/series/ascendance-of-a-bookworm");
     follow_series_call "id:ascendance-of-a-bookworm";
     unfollow_series_call "id:the-faraway-paladin"]
  ∧ run.2 = Ok (["https://j-novel.club/series/tearmoon-empire"],
                ["https://j-novel.club/series/the-faraway-paladin"]).
Proof. vm_compute. done. Qed.

(** ** Loading and saving the store *)

Lemma string_leb_spec s1 s2 :
  String.leb s1 s2 = true ↔ s1 = s2 ∨ String_as_OT.lt s1 s2.
Proof.
  unfold String.leb.
  change (String.compare s1 s2) with (String_as_OT.compare s1 s2).
  destruct (String_as_OT.compare_spec s1 s2) as [Heq|Hlt|Hgt].
  - split; [by left|done].
  - split; [by right|done].
  - split; [intros [=]|]. intros [->|Hlt]; exfalso.
    + by apply (irreflexivity String_as_OT.lt s2).
    + apply (irreflexivity String_as_OT.lt s1). by etrans.
Qed.

#[global] Instance key_le_trans : Transitive key_le.
Proof.
  intros a b c. unfold key_le. rewrite !string_leb_spec.
  intros [E12|H12] [E23|H23].
  - left. congruence.
  - right. by rewrite E12.
  - right. by rewrite <-E23.
  - right. by etrans.
Qed.

#[global] Instance key_le_total : Total key_le.
Proof. intros a b. apply String.leb_total. Qed.

Lemma string_app_nil_r (s : string) : s +:+ "" = s.
Proof.
  induction s as [|c s IH]; [done|].
  change (String c (s +:+ "") = String c s). by rewrite IH.
Qed.

Lemma string_app_assoc (s1 s2 s3 : string) :
  (s1 +:+ s2) +:+ s3 = s1 +:+ (s2 +:+ s3).
Proof.
  induction s1 as [|c s1 IH]; [done|].
  change (String c ((s1 +:+ s2) +:+ s3) = String c (s1 +:+ s2 +:+ s3)).
  by rewrite IH.
Qed.

Lemma concat_empty_cons (c : string) (cs : list string) :
  String.concat "" (c :: cs) = c +:+ String.concat "" cs.
Proof. destruct cs; simpl; [by rewrite string_app_nil_r|done]. Qed.

Lemma fs_run_app ops1 ops2 fs :
  fs_run (ops1 ++ ops2) fs = fs_run ops2 (fs_run ops1 fs).
Proof. apply foldl_app. Qed.

Lemma fs_step_other path op fs :
  writes_to path op = false → files (fs_step fs op) !! path = files fs !! path.
Proof.
  destruct op as [p|p|p chunk|p|src dst]; simpl; try done.
  - intros Hp%bool_decide_eq_false. by rewrite lookup_insert_ne.
  - intros Hp%bool_decide_eq_false. by rewrite lookup_insert_ne.
  - intros [Hsrc%bool_decide_eq_false Hdst%bool_decide_eq_false]%orb_false_elim.
    destruct (files fs !! src); [|done]. simpl.
    by rewrite lookup_insert_ne, lookup_delete_ne.
Qed.

Lemma fs_run_other path ops fs :
  Forall (λ op, writes_to path op = false) ops →
  files (fs_run ops fs) !! path = files fs !! path.
Proof.
  revert fs. induction ops as [|op ops IH]; intros fs Hops; [done|].
  apply Forall_cons in Hops as [Hop Hops].
  change (fs_run (op :: ops) fs) with (fs_run ops (fs_step fs op)).
  rewrite IH by done. by apply fs_step_other.
Qed.

Lemma fs_run_appends temporary chunks fs :
  files (fs_run (op_append temporary <$> chunks) fs) !! temporary
  = match chunks with
    | [] => files fs !! temporary
    | _ => Some (default "" (files fs !! temporary) +:+ String.concat "" chunks)
    end.
Proof.
  revert fs. induction chunks as [|c chunks IH]; intros fs; [done|].
  rewrite fmap_cons. change (fs_run (?op :: ?ops) fs)
    with (fs_run ops (fs_step fs op)).
  rewrite IH. simpl fs_step. cbn [files]. rewrite lookup_insert_eq.
  destruct chunks as [|c' chunks]; [done|].
  cbn [default]. unfold id.
  by rewrite (concat_empty_cons c), string_app_assoc.
Qed.

Section StoreFacts.
Context {encoder : JsonEncoder} {buffering : Buffering}.

Lemma write_tracked_series_ops_split home temporary tracked :
  write_tracked_series_ops home temporary tracked
  = write_tracked_series_front home temporary tracked
      ++ [op_replace temporary (_tracked_series_filepath home)].
Proof.
  unfold write_tracked_series_ops, write_tracked_series_front, atomic_write,
    _ensure_config_dirpath_exists.
  simpl. by rewrite <-!app_assoc.
Qed.

Lemma write_tracked_series_front_other home temporary tracked :
  temporary ≠ _tracked_series_filepath home →
  Forall (λ op, writes_to (_tracked_series_filepath home) op = false)
    (write_tracked_series_front home temporary tracked).
Proof.
  intros Hne. unfold write_tracked_series_front.
  apply Forall_app. split; [|apply Forall_app; split].
  - repeat constructor. simpl. by apply bool_decide_eq_false.
  - apply Forall_fmap, Forall_true. intros chunk. simpl.
    by apply bool_decide_eq_false.
  - by repeat constructor.
Qed.

Lemma write_tracked_series_front_temporary home temporary tracked fs :
  files (fs_run (write_tracked_series_front home temporary tracked) fs)
    !! temporary
  = Some (json_dumps tracked).
Proof.
  unfold write_tracked_series_front.
  rewrite !fs_run_app. simpl fs_run at 1.
  rewrite fs_run_appends.
  change (fs_run [?a; ?b] fs) with (fs_step (fs_step fs a) b).
  simpl fs_step. cbn [files]. rewrite lookup_insert_eq. cbn [default].
  pose proof (flush_pieces_concat (json_dumps tracked)) as Hcut.
  destruct (flush_pieces (json_dumps tracked)); [by rewrite <-Hcut|].
  by rewrite Hcut.
Qed.
End StoreFacts.

Lemma map_fmap {A B} (f : A → B) (l : list A) : map f l = f <$> l.
Proof. induction l as [|x l IH]; simpl; [done|]. by rewrite IH. Qed.

Lemma sort_keys_members (tracked : pydict json) :
  ∃ members,
    sort_keys (JObj tracked) = JObj members
    ∧ StronglySorted key_le members
    ∧ members.*1 ≡ₚ dict_keys tracked.
Proof.
  exists (merge_sort key_le ((λ kv, (kv.1, sort_keys kv.2)) <$> tracked)).
  split; [simpl; by rewrite map_fmap|]. split.
  - apply StronglySorted_merge_sort; apply _.
  - rewrite merge_sort_Permutation. unfold dict_keys.
    by rewrite <-list_fmap_compose.
Qed.

(** two stores with the same entries, inserted in whatever order, have the
    same text *)
Lemma sort_keys_order_independent (tracked tracked' : pydict json) :
  tracked' ≡ₚ tracked → dict_wf tracked →
  sort_keys (JObj tracked') = sort_keys (JObj tracked).
Proof.
  intros Hperm Hwf. simpl. f_equal. rewrite !map_fmap.
  set (g := λ kv : string * json, (kv.1, sort_keys kv.2)).
  assert (dict_wf (g <$> tracked)) as Hwfg.
  { unfold dict_wf, dict_keys. by rewrite <-list_fmap_compose. }
  apply (StronglySorted_unique_strong key_le).
  - intros x1 x2 Hx1 Hx2 H12 H21.
    rewrite merge_sort_Permutation in Hx1, Hx2. rewrite Hperm in Hx1.
    assert (x1.1 = x2.1) as Hkey by (by apply String.leb_antisym).
    destruct x1 as [k1 v1], x2 as [k2 v2]. simpl in Hkey. subst k2.
    apply (dict_get_elem_wf _ _ _ Hwfg) in Hx1, Hx2. congruence.
  - apply StronglySorted_merge_sort; apply _.
  - apply StronglySorted_merge_sort; apply _.
  - by rewrite !merge_sort_Permutation, Hperm.
Qed.

(** C5. Saving the store writes the text to a temporary file and moves it
    over [tracked.json] as the last step. Interrupted after any number of
    steps, the save leaves under [tracked.json] either what was there before
    (as long as the move has not happened) or the whole new text, never a
    part of it. The text written is the encoding of the store with its
    entries sorted by key (and the members of every object in it sorted by
    key): an opening brace, one line per entry in the order of the keys, a
    closing brace. So it does not depend on the order of insertion. *)
Theorem write_tracked_series_atomic {encoder : JsonEncoder}
    {buffering : Buffering} (home temporary : string) (tracked : pydict json)
    (fs : filesystem) (n : nat) :
  temporary ≠ _tracked_series_filepath home →
  let path := _tracked_series_filepath home in
  let ops := write_tracked_series_ops home temporary tracked in
  let interrupted := write_tracked_series_interrupted home n temporary tracked fs in
  (∃ front, ops = front ++ [op_replace temporary path]
            ∧ Forall (λ op, writes_to path op = false) front)
  ∧ ((n < length ops)%nat → files interrupted !! path = files fs !! path)
  ∧ ((length ops ≤ n)%nat → files interrupted !! path = Some (json_dumps tracked))
  ∧ files (write_tracked_series home temporary tracked fs) !! path
    = Some (json_dumps tracked)
  ∧ (∃ members, sort_keys (JObj tracked) = JObj members
                ∧ StronglySorted key_le members
                ∧ members.*1 ≡ₚ dict_keys tracked)
  ∧ (∀ tracked', tracked' ≡ₚ tracked → dict_wf tracked →
                 json_dumps tracked' = json_dumps tracked)
  ∧ (∃ members,
       sort_keys (JObj tracked) = JObj members
       ∧ members ≡ₚ (λ kv, (kv.1, sort_keys kv.2)) <$> tracked
       ∧ StronglySorted key_le members
       ∧ files (write_tracked_series home temporary tracked fs) !! path
         = Some (encode 0 (JObj members))
       ∧ json_dumps tracked
         = match members with
           | [] => "{}"
           | _ =>
               "{" +:+ newline_indent 1
               +:+ String.concat ("," +:+ newline_indent 1)
                     (map (λ kv, encode_basestring kv.1 +:+ ": "
                                   +:+ encode 1 kv.2) members)
               +:+ newline_indent 0 +:+ "}"
           end).
Proof.
  intros Hne path ops interrupted.
  pose proof (write_tracked_series_ops_split home temporary tracked) as Hsplit.
  pose proof (write_tracked_series_front_other home temporary tracked Hne)
    as Hfront.
  assert (files (fs_run ops fs) !! path = Some (json_dumps tracked)) as Hfull.
  { unfold ops. rewrite Hsplit, fs_run_app.
    change (fs_run [?op] ?fs) with (fs_step fs op). unfold fs_step at 1.
    rewrite write_tracked_series_front_temporary. cbn [files].
    by rewrite lookup_insert_eq. }
  split_and!.
  - by exists (write_tracked_series_front home temporary tracked).
  - intros Hn. unfold interrupted, write_tracked_series_interrupted.
    fold ops. unfold ops in *. rewrite Hsplit in Hn |- *.
    rewrite length_app in Hn. cbn [length] in Hn.
    rewrite take_app_le by lia.
    apply fs_run_other. by apply Forall_take.
  - intros Hn. unfold interrupted, write_tracked_series_interrupted.
    fold ops. by rewrite take_ge.
  - done.
  - apply sort_keys_members.
  - intros tracked' Hperm Hwf. unfold json_dumps.
    by rewrite (sort_keys_order_independent tracked tracked').
  - exists (merge_sort key_le ((λ kv, (kv.1, sort_keys kv.2)) <$> tracked)).
    assert (json_dumps tracked
            = encode 0 (JObj (merge_sort key_le
                                ((λ kv, (kv.1, sort_keys kv.2)) <$> tracked))))
      as Htext by (unfold json_dumps; simpl sort_keys; by rewrite map_fmap).
    split_and!.
    + simpl. by rewrite map_fmap.
    + apply merge_sort_Permutation.
    + apply StronglySorted_merge_sort; apply _.
    + unfold write_tracked_series. fold ops. by rewrite Hfull, Htext.
    + rewrite Htext. by destruct (merge_sort key_le _).
Qed.

Lemma write_tracked_series_atomic_witness :
  files (write_tracked_series_interrupted (encoder:=sample_encoder)
           (buffering:=whole_buffer) "/home/reader" 3
           "/home/reader/.jncep/tmpk3f9a1" (reverse sample_tracked)
           {| dirs := {["/home/reader"]};
              files := {["/home/reader/.jncep/tracked.json" := "{}"]} |})
    !! _tracked_series_filepath "/home/reader"
  = Some "{}"
  ∧ ∃ members,
      members.*1 = ["https://j-novel.club/series/ascendance-of-a-bookworm";
                    "https://j-novel.club/series/tearmoon-empire"]
      ∧ files (write_tracked_series (encoder:=sample_encoder)
                 (buffering:=whole_buffer) "/home/reader"
                 "/home/reader/.jncep/tmpk3f9a1" (reverse sample_tracked)
                 {| dirs := {["/home/reader"]};
                    files := {["/home/reader/.jncep/tracked.json" := "{}"]} |})
          !! _tracked_series_filepath "/home/reader"
        = Some (encode (encoder:=sample_encoder) 0 (JObj members)).
Proof.
  assert ("/home/reader/.jncep/tmpk3f9a1" ≠ _tracked_series_filepath "/home/reader")
    as Hne by (vm_compute; discriminate).
  destruct (write_tracked_series_atomic (encoder:=sample_encoder)
              (buffering:=whole_buffer) "/home/reader"
              "/home/reader/.jncep/tmpk3f9a1" (reverse sample_tracked)
              {| dirs := {["/home/reader"]};
                 files := {["/home/reader/.jncep/tracked.json" := "{}"]} |}
              3 Hne)
    as (_ & Hbefore & _ & _ & _ & _ & members & Hmembers & _ & _ & Hfile & _).
  split.
  - rewrite Hbefore; [reflexivity|]. vm_compute. lia.
  - exists members. split; [|exact Hfile].
    vm_compute in Hmembers. injection Hmembers as <-. reflexivity.
Defined.

(** C6. Loading the store: when [tracked.json] does not exist the result is
    the empty store and no error; when it exists and holds an object, the
    result is the migration of its content; when its content is not JSON,
    the error of the parser reaches the caller. *)
Theorem read_tracked_series_cases {web : JncWeb} {text : PyStr} {decoder : JsonDecoder}
    (home : string) (fs : filesystem) :
  (files fs !! _tracked_series_filepath home = None →
   read_tracked_series home fs = Ok [])
  ∧ (∀ json_file data,
       files fs !! _tracked_series_filepath home = Some json_file →
       json_load json_file = Some (JObj data) →
       read_tracked_series home fs = Ok (_convert_to_latest_format data))
  ∧ (∀ json_file,
       files fs !! _tracked_series_filepath home = Some json_file →
       json_load json_file = None →
       read_tracked_series home fs = Raise JSONDecodeError).
Proof.
  unfold read_tracked_series. split_and!.
  - by intros ->.
  - intros json_file data -> Hload. by rewrite Hload.
  - intros json_file -> Hload. by rewrite Hload.
Qed.

(** * Further properties *)

(** ** Migration *)

(** X1. Whatever the input, the migrated store is a dictionary without
    repeated key, every value of which is a record, and every entry of which
    is the migration of a pair of the input. *)
Theorem convert_to_latest_format_records {web : JncWeb} {text : PyStr} (data : pydict json) :
  dict_wf (_convert_to_latest_format data)
  ∧ Forall (λ entry, is_dict entry.2 = true
                     ∧ ∃ item, item ∈ data ∧ entry = migrated_item item)
      (_convert_to_latest_format data).
Proof.
  split; [apply convert_wf|].
  apply Forall_forall. intros entry (item & Hin & ->)%convert_elem. split.
  - apply converted_value_is_dict.
  - by exists item.
Qed.

(** X2. The keys of the migrated store are exactly the URLs to which the
    pairs of the input are migrated: no series is dropped, none appears from
    nowhere, and the store never grows. *)
Theorem convert_to_latest_format_key_set {web : JncWeb} {text : PyStr} (data : pydict json) :
  (∀ u, u ∈ dict_keys (_convert_to_latest_format data)
        ↔ ∃ item, item ∈ data ∧ migrated_key item = u)
  ∧ (length (_convert_to_latest_format data) ≤ length data)%nat.
Proof.
  split; [apply convert_keys|].
  assert (dict_keys (_convert_to_latest_format data) ⊆+ migrated_key <$> data)
    as Hsub.
  { apply NoDup_submseteq; [apply convert_wf|].
    intros u (item & Hin & <-)%convert_keys.
    apply list_elem_of_fmap. by exists item. }
  apply submseteq_length in Hsub. unfold dict_keys in Hsub.
  by rewrite !length_fmap in Hsub.
Qed.

(** X3. When no two pairs of the input are migrated to the same URL, the
    migrated store has one entry per pair, in the order of the input. *)
Theorem convert_to_latest_format_in_order {web : JncWeb} {text : PyStr} (data : pydict json) :
  NoDup (migrated_key <$> data) →
  _convert_to_latest_format data = migrated_item <$> data.
Proof. apply convert_in_order. Qed.

Lemma convert_to_latest_format_in_order_witness :
  _convert_to_latest_format (web:=sample_jncweb) (text:=ascii_str) sample_mixed_store
  = migrated_item (web:=sample_jncweb) (text:=ascii_str) <$> sample_mixed_store.
Proof.
  apply (convert_to_latest_format_in_order (web:=sample_jncweb) (text:=ascii_str)).
  apply (bool_decide_unpack _). vm_compute. exact I.
Defined.

(** ** Tracking a series *)

Lemma set_last_snoc {A} (x y : A) (front : list A) :
  set_last x (front ++ [y]) = front ++ [x].
Proof.
  unfold set_last. rewrite reverse_snoc, reverse_cons.
  by rewrite reverse_involutive.
Qed.

(** X4. Tracking a series is all or nothing: either it succeeds and the store
    differs by the one assignment under the key of the series, every other
    entry keeping its value and its position, or it raises and the store is
    the one it was given. The lists of a synchronisation are not touched. *)
Theorem track_series_all_or_nothing {web : JncWeb} {remote : Remote}
    (series : Series) (w : world) :
  let run := track_series series w in
  new_synced run.1 = new_synced w
  ∧ del_synced run.1 = del_synced w
  ∧ match run.2 with
    | Ok _ =>
        (∃ entry, tracked_series run.1
                  = dict_set (series_key series) entry (tracked_series w))
        ∧ (∀ k, k ≠ series_key series →
                dict_get k (tracked_series run.1) = dict_get k (tracked_series w))
        ∧ (∀ k, k ∈ dict_keys (tracked_series w) →
                k ∈ dict_keys (tracked_series run.1))
    | Raise _ => tracked_series run.1 = tracked_series w
    end.
Proof.
  intros run. unfold run. clear run.
  destruct (track_series_effect series w)
    as (new & _ & _ & _ & _ & Hns & Hds & Htr).
  split_and!; [done..|].
  destruct (track_series series w).2; [|done].
  destruct Htr as [entry Htr]. split_and!.
  - by exists entry.
  - intros k Hk. by rewrite Htr, dict_get_set, decide_False.
  - intros k Hk. rewrite Htr. apply elem_of_dict_keys_set. by right.
Qed.

(** X5. When the launch date of the last part of the last volume cannot be
    parsed, tracking the series raises the error of the parser and inserts
    nothing, although the volumes and the parts were fetched. *)
Theorem track_series_unparsable_date {web : JncWeb} {remote : Remote}
    (series : Series) (w : world) (vols : list Volume) (lv : Volume)
    (ps : list Part) (last_part : Part) (e : exn) :
  fetch_volumes_meta (series_id series) = Ok vols →
  last vols = Some lv →
  fetch_parts_meta (volume_id lv) = Ok ps →
  last ps = Some last_part →
  dateutil_parse (launch (part_raw_data last_part)) = Raise e →
  (track_series series w).2 = Raise e
  ∧ tracked_series (track_series series w).1 = tracked_series w
  ∧ (calls (track_series series w).1).*2
    = (calls w).*2 ++ [fetch_volumes_meta_call (series_id series);
                       fetch_parts_meta_call (volume_id lv)].
Proof.
  intros Hvols Hlast Hparts Hpart Hdate.
  unfold track_series, fill_meta_for_track. unfold_M. simpl.
  rewrite Hvols. simpl. rewrite fmap_last, Hlast. simpl.
  rewrite Hparts. simpl.
  rewrite last_part_of_filled by (by rewrite fmap_last, Hlast).
  rewrite fmap_last, Hpart. simpl. rewrite Hdate. simpl.
  split_and!; [done..|]. by rewrite <-app_assoc, fmap_app.
Qed.

Lemma track_series_unparsable_date_witness :
  (track_series (web:=sample_jncweb) (remote:=undated_remote)
     (sample_series "the-faraway-paladin") (initial_world sample_tracked)).2
  = Raise (RemoteError "unknown string format")
  ∧ tracked_series
      (track_series (web:=sample_jncweb) (remote:=undated_remote)
         (sample_series "the-faraway-paladin") (initial_world sample_tracked)).1
    = sample_tracked.
Proof.
  destruct (track_series_unparsable_date (web:=sample_jncweb)
              (remote:=undated_remote)
              (sample_series "the-faraway-paladin") (initial_world sample_tracked)
              [sample_volume "v1"; sample_volume "v2"] (sample_volume "v2")
              [sample_part "v2p1" "soon"] (sample_part "v2p1" "soon")
              (RemoteError "unknown string format")
              eq_refl eq_refl eq_refl eq_refl eq_refl) as (Hr & Ht & _).
  by split.
Defined.

(** X6. What [fill_meta_for_track] returns: the series it was given, with the
    fetched volumes in their order, each referring back to the series; the
    parts are those fetched for the last volume, each with its identifier
    and its data as fetched and with a reference back to that volume, and
    the volumes before the last keep the parts they came with. *)
Theorem fill_meta_for_track_links {web : JncWeb} {remote : Remote}
    (series series' : Series) (w : world) (vols : list Volume) :
  fetch_volumes_meta (series_id series) = Ok vols →
  (fill_meta_for_track series w).2 = Ok series' →
  series_id series' = series_id series
  ∧ raw_data series' = raw_data series
  ∧ ∃ vs, volumes series' = Some vs
      ∧ volume_id <$> vs = volume_id <$> vols
      ∧ Forall (λ v, volume_series v = Some (series_id series)) vs
      ∧ (∀ i v, (S i < length vols)%nat → vs !! i = Some v →
                Some (parts v) = parts <$> vols !! i)
      ∧ (∀ lv, last vs = Some lv →
               ∃ fetched, fetch_parts_meta (volume_id lv) = Ok fetched
                 ∧ parts lv
                   = Some ((λ part, {| part_id := part_id part;
                                       part_raw_data := part_raw_data part;
                                       part_volume := Some (volume_id lv) |})
                             <$> fetched)).
Proof.
  intros Hvols. unfold fill_meta_for_track. unfold_M. simpl.
  rewrite Hvols. simpl.
  destruct vols as [|lastv front _] using rev_ind.
  - simpl. intros [= <-]. simpl. split_and!; [done..|].
    exists []. by split_and!.
  - rewrite fmap_app, fmap_cons, fmap_nil, last_snoc. simpl.
    destruct (fetch_parts_meta (volume_id lastv)) as [ps|e] eqn:Hparts;
      simpl; [|done].
    intros [= <-]. simpl. split_and!; [done..|].
    rewrite set_last_snoc. eexists. split; [done|]. split_and!.
    + by rewrite !fmap_app, <-!list_fmap_compose.
    + apply Forall_app. split; [|by repeat constructor].
      apply Forall_fmap, Forall_true. done.
    + intros i v Hi. rewrite length_app in Hi. simpl in Hi.
      assert (i < length front)%nat as Hlt by lia.
      rewrite !lookup_app_l by (by rewrite ?length_fmap).
      rewrite list_lookup_fmap.
      destruct (front !! i) as [v0|]; simpl; [|done]. by intros [= <-].
    + intros lv. rewrite last_snoc. intros [= <-]. simpl. by exists ps.
Qed.

Lemma fill_meta_for_track_links_witness :
  ∃ fetched,
    fetch_parts_meta (Remote:=sample_remote) "v2" = Ok fetched
    ∧ Some [{| part_id := "v2p1";
               part_raw_data := {| launch := "2021-03-01T17:00:00.000Z" |};
               part_volume := Some "v2" |};
            {| part_id := "v2p2";
               part_raw_data := {| launch := "2021-03-08T17:00:00.000Z" |};
               part_volume := Some "v2" |}]
      = Some ((λ part, {| part_id := part_id part;
                          part_raw_data := part_raw_data part;
                          part_volume := Some "v2" |}) <$> fetched).
Proof.
  destruct (fill_meta_for_track_links (web:=sample_jncweb)
              (remote:=sample_remote)
              (sample_series "the-faraway-paladin")
              {| series_id := "id:the-faraway-paladin";
                 raw_data := {| series_slug := "the-faraway-paladin";
                                series_title := "The Faraway Paladin" |};
                 volumes :=
                   Some [{| volume_id := "v1"; parts := None;
                            volume_series := Some "id:the-faraway-paladin" |};
                         {| volume_id := "v2";
                            parts :=
                              Some [{| part_id := "v2p1";
                                       part_raw_data :=
                                         {| launch := "2021-03-01T17:00:00.000Z" |};
                                       part_volume := Some "v2" |};
                                    {| part_id := "v2p2";
                                       part_raw_data :=
                                         {| launch := "2021-03-08T17:00:00.000Z" |};
                                       part_volume := Some "v2" |}];
                            volume_series := Some "id:the-faraway-paladin" |}] |}
              (initial_world [])
              [sample_volume "v1"; sample_volume "v2"] eq_refl eq_refl)
    as (_ & _ & vs & Hvs & _ & _ & _ & Hlast).
  simpl in Hvs. injection Hvs as <-.
  exact (Hlast _ eq_refl).
Defined.

(** ** Forward synchronisation *)

Section ForwardMore.
Context {web : JncWeb} {remote : Remote} {nursery : Scheduler}.

Lemma schedule_nil : schedule [] = [].
Proof. apply Permutation_nil_r, schedule_perm. Qed.

Lemma forward_start_tracked tracked follows acc :
  (∀ r, r ∈ follows → url r ∈ dict_keys tracked) →
  foldl (forward_start tracked) acc follows = acc.
Proof.
  revert acc. induction follows as [|f follows IH]; intros acc Hall; [done|].
  cbn [foldl].
  assert (forward_start tracked acc f = acc) as ->.
  { unfold forward_start.
    by rewrite (proj2 (dict_in_true (url f) tracked))
      by (apply Hall, elem_of_cons; by left). }
  apply IH. intros r Hr. apply Hall, elem_of_cons. by right.
Qed.

Lemma forward_delete_followed index items w :
  (∀ k, k ∈ dict_keys items → k ∈ dict_keys index) →
  forward_delete index items w = (w, Ok tt).
Proof.
  revert w. induction items as [|[k v] items IH]; intros w Hall; [done|].
  rewrite forward_delete_cons.
  assert (forward_delete_step index (k, v) w = (w, Ok tt)) as ->.
  { unfold forward_delete_step.
    by rewrite (proj2 (dict_in_true k index))
      by (apply Hall, elem_of_cons; by left). }
  apply IH. intros k' Hk'. apply Hall, elem_of_cons. by right.
Qed.

(** a store that agrees with the follows is a fixed point *)
Lemma sync_series_forward_fixed follows tracked (is_delete : bool) :
  (∀ r, r ∈ follows → url r ∈ dict_keys tracked) →
  (is_delete = true → ∀ k, k ∈ dict_keys tracked → k ∈ (url <$> follows)) →
  sync_series_forward follows tracked is_delete
  = (initial_world tracked, Ok ([], [])).
Proof.
  intros Hfollows Htracked. unfold sync_series_forward.
  rewrite forward_start_tracked, schedule_nil by done. simpl.
  destruct is_delete; [|done].
  rewrite forward_delete_followed; [done|].
  intros k Hk. apply elem_of_followed_index. by apply Htracked.
Qed.

(** the keys of the store after a successful run *)
Lemma sync_series_forward_keys follows tracked (is_delete : bool) new del :
  (∀ r series, r ∈ follows → resolve_series r = Ok series →
               series_key series = url r) →
  (sync_series_forward follows tracked is_delete).2 = Ok (new, del) →
  let tracked' :=
    tracked_series (sync_series_forward follows tracked is_delete).1 in
  (∀ r, r ∈ follows → url r ∈ dict_keys tracked')
  ∧ (is_delete = true → ∀ k, k ∈ dict_keys tracked' → k ∈ (url <$> follows)).
Proof.
  intros Hcontract Hrun tracked'. unfold tracked'. clear tracked'.
  pose proof (sync_series_forward_unfold follows tracked is_delete) as Hu.
  destruct (forward_gather follows tracked) as (Hmono & _ & _ & _ & _ & Hok).
  cbv zeta in Hu, Hmono, Hok.
  set (w1 := (gather _ (initial_world tracked)).1) in *.
  destruct (gather _ (initial_world tracked)).2 as [[]|e] eqn:Hg;
    rewrite Hu in Hrun |- *; [|done].
  specialize (Hok eq_refl). clear Hu.
  assert (∀ r, r ∈ follows → url r ∈ dict_keys (tracked_series w1)) as Hin.
  { intros r Hr. destruct (dict_in (url r) tracked) eqn:Htr.
    - by apply Hmono, dict_in_true.
    - destruct (Hok r Hr Htr) as (series & Hres & Hin & _).
      by rewrite <-(Hcontract r series). }
  destruct is_delete; simpl in Hrun |- *; [|by split].
  pose proof (forward_delete_effect (followed_index follows)
                (tracked_series w1) w1) as Heffect.
  destruct (forward_delete (followed_index follows) (tracked_series w1) w1)
    as [w2 [[]|e]]; simpl in Hrun, Heffect |- *; [|done].
  destruct (Heffect eq_refl) as (Hk & _). clear Heffect Hrun.
  split.
  - intros r Hr. apply Hk. split; [by apply Hin|].
    intros [_ Hidx]. apply dict_in_false in Hidx. apply Hidx.
    apply elem_of_followed_index, list_elem_of_fmap. by exists r.
  - intros _ k [Hkin Hno]%Hk.
    destruct (dict_in k (followed_index follows)) eqn:Hidx.
    + by apply dict_in_true, elem_of_followed_index in Hidx.
    + exfalso. by apply Hno.
Qed.
End ForwardMore.

(** X7. A store that agrees with the follows is a fixed point of forward
    synchronisation: when every follow is tracked (and, with deletion, every
    tracked series is followed) no remote operation is issued, the store is
    left as it is and both lists returned are empty. *)
Theorem sync_series_forward_in_sync {web : JncWeb} {remote : Remote}
    {nursery : Scheduler} (follows : list JNCResource)
    (tracked : pydict json) (is_delete : bool) :
  (∀ r, r ∈ follows → url r ∈ dict_keys tracked) →
  (is_delete = true → ∀ k, k ∈ dict_keys tracked → k ∈ (url <$> follows)) →
  let run := sync_series_forward follows tracked is_delete in
  run.2 = Ok ([], []) ∧ tracked_series run.1 = tracked ∧ calls run.1 = [].
Proof.
  intros Hfollows Htracked run. unfold run.
  by rewrite sync_series_forward_fixed.
Qed.

Lemma sync_series_forward_in_sync_witness :
  (sync_series_forward (web:=sample_jncweb) (remote:=sample_remote)
     (nursery:=lifo_scheduler) [sample_follow "tearmoon-empire"]
     sample_tracked false).2 = Ok ([], []).
Proof.
  refine (proj1 (sync_series_forward_in_sync (web:=sample_jncweb)
                   (remote:=sample_remote) (nursery:=lifo_scheduler)
                   [sample_follow "tearmoon-empire"] sample_tracked false _ _)).
  - intros r ->%list_elem_of_singleton. apply (bool_decide_unpack _).
    vm_compute. exact I.
  - intros [=].
Defined.

(** X8. Forward synchronisation run a second time, on the store that a
    successful first run has left and with the same follows, issues no remote
    operation, changes nothing and returns two empty lists, when the remote
    side resolves each follow to the series of its URL. *)
Theorem sync_series_forward_twice {web : JncWeb} {remote : Remote}
    {nursery : Scheduler} (follows : list JNCResource)
    (tracked : pydict json) (is_delete : bool) (new del : list string) :
  (∀ r series, r ∈ follows → resolve_series r = Ok series →
               series_key series = url r) →
  (sync_series_forward follows tracked is_delete).2 = Ok (new, del) →
  let tracked' :=
    tracked_series (sync_series_forward follows tracked is_delete).1 in
  sync_series_forward follows tracked' is_delete
  = (initial_world tracked', Ok ([], [])).
Proof.
  intros Hcontract Hrun tracked'.
  destruct (sync_series_forward_keys follows tracked is_delete new del
              Hcontract Hrun) as [Hfollows Htracked].
  by apply sync_series_forward_fixed.
Qed.

Lemma sync_series_forward_twice_witness :
  sync_series_forward (web:=sample_jncweb) (remote:=sample_remote)
    (nursery:=lifo_scheduler) sample_follows
    (tracked_series
       (sync_series_forward (web:=sample_jncweb) (remote:=sample_remote)
          (nursery:=lifo_scheduler) sample_follows sample_tracked true).1)
    true
  = (initial_world
       (tracked_series
          (sync_series_forward (web:=sample_jncweb) (remote:=sample_remote)
             (nursery:=lifo_scheduler) sample_follows sample_tracked true).1),
     Ok ([], [])).
Proof.
  eapply (sync_series_forward_twice (web:=sample_jncweb)
            (remote:=sample_remote) (nursery:=lifo_scheduler)
            sample_follows sample_tracked true).
  - exact sample_resolves_to_url.
  - vm_compute. reflexivity.
Defined.

Section ForwardEntries.
Context {web : JncWeb} {remote : Remote} {nursery : Scheduler}.

Lemma track_series_items series w kv :
  kv ∈ tracked_series (track_series series w).1 →
  kv ∈ tracked_series w
  ∨ ∃ pdate pn,
      kv = (series_key series,
            tracked_entry pdate pn (series_title (raw_data series))).
Proof.
  destruct (fill_meta_for_track_effect series w)
    as (new & _ & _ & _ & _ & Htr & _ & _ & Hraw).
  unfold track_series. unfold_M.
  destruct (fill_meta_for_track series w) as [w1 [series1|e]]; simpl in *;
    [|rewrite Htr; by left].
  specialize (Hraw series1 eq_refl). unfold series_key. rewrite <-Hraw.
  destruct (last_part_of series1) as [last_part|]; simpl.
  - destruct (dateutil_parse (launch (part_raw_data last_part))); simpl;
      [|rewrite Htr; by left].
    intros [->|Hin]%elem_of_dict_set; [right; by eexists _, _|].
    left. by rewrite <-Htr.
  - intros [->|Hin]%elem_of_dict_set; [right; by eexists _, _|].
    left. by rewrite <-Htr.
Qed.

Lemma task_step_items t w kv :
  kv ∈ tracked_series (task_step t w) →
  kv ∈ tracked_series w
  ∨ ∃ r series pdate pn,
      t = do_track_task r ∧ resolve_series r = Ok series
      ∧ kv = (series_key series,
              tracked_entry pdate pn (series_title (raw_data series))).
Proof.
  destruct t as [r|r|r].
  - unfold task_step. simpl. unfold do_track. unfold_M.
    destruct (resolve_series r) as [series|e] eqn:Hres; simpl; [|by left].
    set (w0 := with_calls _ _).
    pose proof (track_series_items series w0 kv) as Hitems.
    destruct (track_series series w0) as [w1 [[]|e]]; simpl in *.
    + intros [Hin|(pdate & pn & ->)]%Hitems; [by left|right].
      by exists r, series, pdate, pn.
    + intros [Hin|(pdate & pn & ->)]%Hitems; [by left|right].
      by exists r, series, pdate, pn.
  - destruct (task_step_effect (do_follow_task r) w) as (_ & _ & _ & -> & _).
    by left.
  - destruct (task_step_effect (do_undollow_task r) w) as (_ & _ & _ & -> & _).
    by left.
Qed.

Lemma gather_items ts w kv :
  kv ∈ tracked_series (gather ts w).1 →
  kv ∈ tracked_series w
  ∨ ∃ r series pdate pn,
      do_track_task r ∈ ts ∧ resolve_series r = Ok series
      ∧ kv = (series_key series,
              tracked_entry pdate pn (series_title (raw_data series))).
Proof.
  revert w. induction ts as [|t ts IH]; intros w; [by left|].
  rewrite gather_cons_world.
  intros [Hin|(r & series & pdate & pn & Hr & Hres & ->)]%IH.
  - apply task_step_items in Hin
      as [Hin|(r & series & pdate & pn & -> & Hres & ->)]; [by left|right].
    exists r, series, pdate, pn. split_and!; try done.
    apply elem_of_cons; by left.
  - right. exists r, series, pdate, pn. split_and!; try done.
    apply elem_of_cons; by right.
Qed.

End ForwardEntries.

Section ForwardRaise.
Context {web : JncWeb} {remote : Remote} {nursery : Scheduler}.

Lemma track_series_assigned series w k :
  k ∈ assigned (track_series series w).1 →
  k ∈ assigned w ∨ k = series_key series.
Proof.
  destruct (fill_meta_for_track_effect series w)
    as (new & _ & _ & _ & _ & _ & _ & _ & Hraw).
  assert (assigned (fill_meta_for_track series w).1 = assigned w) as Hsame.
  { unfold fill_meta_for_track. unfold_M. simpl.
    destruct (fetch_volumes_meta (series_id series)) as [vols|e]; simpl;
      [|done].
    destruct (last (set_volume_series (series_id series) <$> vols)); simpl;
      [|done].
    by destruct (fetch_parts_meta _). }
  unfold track_series. unfold_M.
  destruct (fill_meta_for_track series w) as [w1 [series1|e]]; simpl in *;
    [|rewrite Hsame; by left].
  specialize (Hraw series1 eq_refl). unfold series_key. rewrite <-Hraw.
  destruct (last_part_of series1) as [last_part|]; simpl.
  - destruct (dateutil_parse (launch (part_raw_data last_part))); simpl;
      [|rewrite Hsame; by left].
    rewrite Hsame, elem_of_app, list_elem_of_singleton. tauto.
  - rewrite Hsame, elem_of_app, list_elem_of_singleton. tauto.
Qed.

Lemma task_step_assigned t w k :
  k ∈ assigned (task_step t w) →
  k ∈ assigned w
  ∨ ∃ r series, t = do_track_task r ∧ resolve_series r = Ok series
                ∧ k = series_key series.
Proof.
  destruct t as [r|r|r]; unfold task_step; simpl.
  - unfold do_track. unfold_M.
    destruct (resolve_series r) as [series|e] eqn:Hres; simpl; [|by left].
    set (w0 := with_calls _ _).
    pose proof (track_series_assigned series w0 k) as Hk.
    destruct (track_series series w0) as [w1 [[]|e]]; simpl in *.
    + intros [?| ->]%Hk; [by left|right]. by exists r, series.
    + intros [?| ->]%Hk; [by left|right]. by exists r, series.
  - unfold do_follow. unfold_M.
    destruct (resolve_series r) as [series|e]; simpl; [|by left].
    destruct (follow_series (series_id series)) as [[]|e]; simpl; [|by left].
    destruct (series_url_var w); simpl; by left.
  - unfold do_undollow. unfold_M.
    destruct (follow_raw_data r) as [raw|]; simpl; [|by left].
    destruct (unfollow_series (follow_id raw)) as [[]|e]; simpl; by left.
Qed.

Lemma gather_assigned ts w k :
  k ∈ assigned (gather ts w).1 →
  k ∈ assigned w
  ∨ ∃ r series, do_track_task r ∈ ts ∧ resolve_series r = Ok series
                ∧ k = series_key series.
Proof.
  revert w. induction ts as [|t ts IH]; intros w; [by left|].
  rewrite gather_cons_world. intros [Hin|(r & series & Hr & Hres & ->)]%IH.
  - apply task_step_assigned in Hin as [?|(r & series & -> & Hres & ->)];
      [by left|right].
    exists r, series. split_and!; try done. apply elem_of_cons; by left.
  - right. exists r, series. split_and!; try done. apply elem_of_cons; by right.
Qed.

(** the entry at which the deletion loop raises *)
Lemma forward_delete_raise index items w e :
  (forward_delete index items w).2 = Raise e →
  e = AttributeError
  ∧ ∃ k v, (k, v) ∈ items
           ∧ (k ∉ dict_keys index)
           ∧ (k ∉ dict_keys (tracked_series (forward_delete index items w).1))
           ∧ (k ∈ assigned w ∨ is_dict v = false).
Proof.
  revert w. induction items as [|[series_url series_data] items IH]; intros w;
    [done|].
  rewrite forward_delete_cons.
  destruct (forward_delete_step_effect index w series_url series_data)
    as (Ht1 & _ & _ & Ha1 & Hr1).
  cbv zeta in Ht1, Ha1, Hr1.
  destruct (forward_delete_step index (series_url, series_data) w)
    as [w1 [[]|e1]]; simpl in Ht1, Ha1, Hr1 |- *.
  - intros (-> & k & v & Hin & Hidx & Hgone & Hkind)%IH. split; [done|].
    exists k, v. split_and!; try done; [apply elem_of_cons; by right|].
    by rewrite <-Ha1.
  - intros [= <-]. destruct Hr1 as (-> & Hidx & _ & Hkind). split; [done|].
    exists series_url, series_data. split_and!; try done.
    + apply elem_of_cons. by left.
    + by apply dict_in_false.
    + rewrite Ht1, Hidx, dict_keys_del.
      by intros [? _]%list_elem_of_filter.
Qed.
End ForwardRaise.

(** X9. How forward synchronisation fails. Either a tracking task has
    failed: then the deletion pass has not run, every key of the store is
    still there and nothing is recorded as removed. Or every task has
    succeeded and the deletion pass has raised [AttributeError] while reading
    the name of an entry it had just deleted: the entry is not followed, it
    is gone from the store, and it is either an entry of the store given
    whose value is not a record, or an entry stored by this run, a plain
    [dict], for a follow that resolved to a series of another URL. *)
Theorem sync_series_forward_raise {web : JncWeb} {remote : Remote}
    {nursery : Scheduler} (follows : list JNCResource)
    (tracked : pydict json) (is_delete : bool) (e : exn) :
  (sync_series_forward follows tracked is_delete).2 = Raise e →
  let after := (sync_series_forward follows tracked is_delete).1 in
  ((∀ k, k ∈ dict_keys tracked → k ∈ dict_keys (tracked_series after))
   ∧ del_synced after = []
   ∧ ∃ r, r ∈ follows ∧ url r ∉ dict_keys tracked)
  ∨ (is_delete = true ∧ e = AttributeError
     ∧ ∃ k, (k ∉ url <$> follows)
          ∧ (k ∉ dict_keys (tracked_series after))
          ∧ ((∃ v, (k, v) ∈ tracked ∧ is_dict v = false)
             ∨ ∃ r series, r ∈ follows ∧ resolve_series r = Ok series
                           ∧ k = series_key series
                           ∧ series_key series ≠ url r)).
Proof.
  intros Hrun after. unfold after. clear after.
  pose proof (sync_series_forward_unfold follows tracked is_delete) as Hu.
  destruct (forward_gather follows tracked)
    as (Hmono & _ & _ & Hdel & _ & _).
  cbv zeta in Hu, Hmono, Hdel.
  set (ts := schedule (foldl (forward_start tracked) [] follows)) in *.
  destruct (gather ts (initial_world tracked)).2 as [[]|e'] eqn:Hg;
    rewrite Hu in Hrun |- *.
  - right. simpl in Hrun |- *. destruct is_delete; [|done].
    destruct (forward_delete (followed_index follows) _ _).2
      as [[]|e1] eqn:Hraise; [done|].
    injection Hrun as ->.
    apply forward_delete_raise in Hraise
      as (-> & k & v & Hin & Hidx & Hgone & Hkind).
    rewrite elem_of_followed_index in Hidx.
    split_and!; [done..|]. exists k. split_and!; [done..|].
    destruct Hkind as [[Hk|(r & series & Hr & Hres & ->)]%gather_assigned|Hv].
    + by apply elem_of_nil in Hk.
    + right. apply elem_of_forward_tasks in Hr as (r' & [= <-] & Hr & _).
      exists r, series. split_and!; try done. intros Heq. apply Hidx.
      rewrite Heq. apply list_elem_of_fmap. by exists r.
    + apply gather_items in Hin
        as [Hin|(r & series & pdate & pn & _ & _ & [= _ ->])];
        [left; by exists v|done].
  - left. simpl. split_and!; [done..|].
    destruct ts as [|t ts'] eqn:Hts; [done|].
    assert (t ∈ ts) as Ht by (rewrite Hts; apply elem_of_cons; by left).
    apply elem_of_forward_tasks in Ht as (r & _ & Hr & Htr).
    exists r. split; [done|]. by apply dict_in_false.
Qed.

Lemma sync_series_forward_raise_witness :
  let after :=
    (sync_series_forward (web:=sample_jncweb) (remote:=sample_remote)
       (nursery:=fifo_scheduler) [renamed_follow] sample_tracked true).1 in
  ((∀ k, k ∈ dict_keys sample_tracked → k ∈ dict_keys (tracked_series after))
   ∧ del_synced after = []
   ∧ ∃ r, r ∈ [renamed_follow] ∧ url r ∉ dict_keys sample_tracked)
  ∨ (true = true ∧ AttributeError = AttributeError
     ∧ ∃ k, (k ∉ url <$> [renamed_follow])
          ∧ (k ∉ dict_keys (tracked_series after))
          ∧ ((∃ v, (k, v) ∈ sample_tracked ∧ is_dict v = false)
             ∨ ∃ r series,
                 r ∈ [renamed_follow]
                 ∧ resolve_series (Remote:=sample_remote) r = Ok series
                 ∧ k = series_key (web:=sample_jncweb) series
                 ∧ series_key (web:=sample_jncweb) series ≠ url r)).
Proof.
  apply (sync_series_forward_raise (web:=sample_jncweb)
           (remote:=sample_remote) (nursery:=fifo_scheduler)
           [renamed_follow] sample_tracked true AttributeError).
  vm_compute. reflexivity.
Defined.

(** X10. Every entry of the store after forward synchronisation is either an
    entry of the store before, with the value it had, or the entry of a
    follow that was not tracked: it is stored under the URL of the series to
    which the follow resolves and is a record of the three fields
    [part_date], [part] and [name], the name being the title of that
    series. *)
Theorem sync_series_forward_entries {web : JncWeb} {remote : Remote}
    {nursery : Scheduler} (follows : list JNCResource)
    (tracked : pydict json) (is_delete : bool) :
  Forall (λ kv,
            kv ∈ tracked
            ∨ ∃ r series pdate pn,
                r ∈ follows ∧ (url r ∉ dict_keys tracked)
                ∧ resolve_series r = Ok series
                ∧ kv = (url_from_series_slug (series_slug (raw_data series)),
                        JObj [("part_date", JStr pdate); ("part", pn);
                              ("name", JStr (series_title (raw_data series)))]))
    (tracked_series (sync_series_forward follows tracked is_delete).1).
Proof.
  apply Forall_forall. intros kv Hin.
  assert (kv ∈ tracked_series
                 (gather (schedule (foldl (forward_start tracked) [] follows))
                    (initial_world tracked)).1) as Hg.
  { pose proof (sync_series_forward_unfold follows tracked is_delete) as Hu.
    cbv zeta in Hu.
    destruct (gather _ (initial_world tracked)).2; rewrite Hu in Hin;
      [|done].
    simpl in Hin. destruct is_delete; [|done].
    by apply forward_delete_frame in Hin. }
  apply gather_items in Hg
    as [Hg|(r & series & pdate & pn & Hr & Hres & ->)]; [by left|right].
  apply elem_of_forward_tasks in Hr as (r' & [= <-] & Hr & Htr).
  exists r, series, pdate, pn. split_and!; try done. by apply dict_in_false.
Qed.

(** ** Backward synchronisation *)

Section BackwardMore.
Context {web : JncWeb} {remote : Remote} {nursery : Scheduler}.

Lemma gather_tracked_same ts w :
  (∀ r, do_track_task r ∉ ts) →
  tracked_series (gather ts w).1 = tracked_series w.
Proof.
  revert w. induction ts as [|t ts IH]; intros w Hno; [done|].
  rewrite gather_cons_world, IH.
  - destruct (task_step_tracked t w) as [->|(r & ? & ? & -> & _)]; [done|].
    exfalso. apply (Hno r), elem_of_cons. by left.
  - intros r Hr. apply (Hno r), elem_of_cons. by right.
Qed.

(** the remote operations that a task of [sync_series_backward] can issue *)
Lemma task_step_calls t w e :
  e ∈ calls (task_step t w) →
  e ∈ calls w
  ∨ e.1 = Some t
    ∧ match t with
      | do_track_task _ => True
      | do_follow_task r =>
          e.2 = resolve_series_call r
          ∨ ∃ series, resolve_series r = Ok series
                      ∧ e.2 = follow_series_call (series_id series)
      | do_undollow_task r =>
          ∃ raw, follow_raw_data r = Some raw
                 ∧ e.2 = unfollow_series_call (follow_id raw)
      end.
Proof.
  destruct t as [r|r|r].
  - destruct (task_step_effect (do_track_task r) w) as [(new & -> & Hnew) _].
    intros [Hin|Hin]%elem_of_app; [by left|right].
    split; [|done]. by eapply Forall_forall in Hnew.
  - unfold task_step. simpl. unfold do_follow. unfold_M.
    destruct (resolve_series r) as [series|err] eqn:Hres; simpl.
    + destruct (follow_series (series_id series)) as [[]|err]; simpl.
      * destruct (series_url_var w); simpl;
          rewrite !elem_of_app, !list_elem_of_singleton;
          (intros [[?| ->]| ->]; [by left|right; split; [done|by left]|]);
          right; (split; [done|]); right; by exists series.
      * rewrite !elem_of_app, !list_elem_of_singleton.
        intros [[?| ->]| ->]; [by left|right; split; [done|by left]|].
        right. split; [done|]. right. by exists series.
    + rewrite elem_of_app, list_elem_of_singleton.
      intros [?| ->]; [by left|right]. split; [done|by left].
  - unfold task_step. simpl. unfold do_undollow. unfold_M.
    destruct (follow_raw_data r) as [raw|]; simpl; [|by left].
    destruct (unfollow_series (follow_id raw)) as [[]|err]; simpl;
      rewrite elem_of_app, list_elem_of_singleton;
      (intros [?| ->]; [by left|right]); (split; [done|]); by exists raw.
Qed.

Lemma gather_calls_kind ts w e :
  e ∈ calls (gather ts w).1 →
  e ∈ calls w
  ∨ ∃ t, t ∈ ts ∧ e.1 = Some t
      ∧ match t with
        | do_track_task _ => True
        | do_follow_task r =>
            e.2 = resolve_series_call r
            ∨ ∃ series, resolve_series r = Ok series
                        ∧ e.2 = follow_series_call (series_id series)
        | do_undollow_task r =>
            ∃ raw, follow_raw_data r = Some raw
                   ∧ e.2 = unfollow_series_call (follow_id raw)
        end.
Proof.
  revert w. induction ts as [|t ts IH]; intros w; [by left|].
  rewrite gather_cons_world. intros [Hin|(t' & Ht' & He)]%IH.
  - apply task_step_calls in Hin as [Hin|[He Hkind]]; [by left|right].
    exists t. split_and!; try done. apply elem_of_cons; by left.
  - right. exists t'. split; [apply elem_of_cons; by right|done].
Qed.

(** the tasks that [sync_series_backward] starts *)
Lemma elem_of_backward_tasks follows tracked (is_delete : bool) t :
  let st := foldl (backward_start (followed_index follows))
              (initial_world tracked, []) (dict_keys tracked) in
  t ∈ schedule (if is_delete
                then foldl (backward_start_unfollow tracked) st.2 follows
                else st.2)
  ↔ (∃ k, k ∈ dict_keys tracked ∧ (k ∉ url <$> follows)
          ∧ t = do_follow_task (resource_from_url k))
    ∨ (is_delete = true
       ∧ ∃ f, f ∈ follows ∧ (url f ∉ dict_keys tracked)
              ∧ t = do_undollow_task f).
Proof.
  intros st. unfold st. clear st.
  destruct (backward_start_effect (followed_index follows) (dict_keys tracked)
              (initial_world tracked) []) as (_ & _ & _ & _ & _ & Hts).
  cbv zeta in Hts.
  assert (∀ t, t ∈ (foldl (backward_start (followed_index follows))
                      (initial_world tracked, []) (dict_keys tracked)).2
               ↔ ∃ k, k ∈ dict_keys tracked ∧ (k ∉ url <$> follows)
                      ∧ t = do_follow_task (resource_from_url k)) as Hfollow.
  { intros t'. rewrite Hts, elem_of_nil. split.
    - intros [[]|(k & Hk & Hidx & ->)]. exists k. split_and!; try done.
      apply dict_in_false in Hidx. by rewrite <-elem_of_followed_index.
    - intros (k & Hk & Hidx & ->). right. exists k. split_and!; try done.
      apply dict_in_false. by rewrite elem_of_followed_index. }
  rewrite elem_of_schedule. destruct is_delete.
  - rewrite elem_of_backward_start_unfollow, Hfollow. split.
    + intros [?|(f & -> & Hf & Htr)]; [by left|right].
      split; [done|]. exists f. split_and!; try done. by apply dict_in_false.
    + intros [?|(_ & f & Hf & Htr & ->)]; [by left|right].
      exists f. split_and!; try done. by apply dict_in_false.
  - rewrite Hfollow. split; [by left|]. by intros [?|[[=] _]].
Qed.
End BackwardMore.

(** X11. Backward synchronisation never changes the tracking store: whatever
    the follows, with or without deletion, and whether or not the remote
    operations succeed, the store afterwards is the store it was given, entry
    for entry. *)
Theorem sync_series_backward_keeps_store {web : JncWeb} {remote : Remote}
    {nursery : Scheduler} (follows : list JNCResource)
    (tracked : pydict json) (is_delete : bool) :
  tracked_series (sync_series_backward follows tracked is_delete).1 = tracked.
Proof.
  rewrite sync_series_backward_unfold. cbv zeta. simpl.
  destruct (backward_start_effect (followed_index follows) (dict_keys tracked)
              (initial_world tracked) []) as (_ & Htr & _).
  cbv zeta in Htr. rewrite gather_tracked_same; [done|].
  intros r Hr.
  apply elem_of_backward_tasks in Hr as [(? & _ & _ & [=])|(_ & ? & _ & _ & [=])].
Qed.

(** X12. Every remote operation of backward synchronisation belongs to a
    series on which the two sides differ: it is the resolution or the follow
    of a tracked URL that is not followed, or, with deletion only, the
    unfollow of a follow whose URL is not tracked, issued with the identifier
    the follow came with. No operation is issued for a series that is both
    tracked and followed, no volume or part is fetched, and an unfollow never
    resolves the series. *)
Theorem sync_series_backward_operations {web : JncWeb} {remote : Remote}
    {nursery : Scheduler} (follows : list JNCResource)
    (tracked : pydict json) (is_delete : bool) :
  Forall (λ e,
            (∃ k, k ∈ dict_keys tracked ∧ (k ∉ url <$> follows)
                  ∧ e.1 = Some (do_follow_task (resource_from_url k))
                  ∧ (e.2 = resolve_series_call (resource_from_url k)
                     ∨ ∃ series,
                         resolve_series (resource_from_url k) = Ok series
                         ∧ e.2 = follow_series_call (series_id series)))
            ∨ (is_delete = true
               ∧ ∃ f raw, f ∈ follows ∧ (url f ∉ dict_keys tracked)
                          ∧ e.1 = Some (do_undollow_task f)
                          ∧ follow_raw_data f = Some raw
                          ∧ e.2 = unfollow_series_call (follow_id raw)))
    (calls (sync_series_backward follows tracked is_delete).1).
Proof.
  apply Forall_forall. intros e.
  rewrite sync_series_backward_unfold. cbv zeta. simpl.
  destruct (backward_start_effect (followed_index follows) (dict_keys tracked)
              (initial_world tracked) []) as (_ & _ & _ & _ & Hc & _).
  cbv zeta in Hc.
  intros [He|(t & Ht & He & Hkind)]%gather_calls_kind.
  { rewrite Hc in He. by apply elem_of_nil in He. }
  apply elem_of_backward_tasks in Ht
    as [(k & Hk & Hnot & ->)|(Hdel & f & Hf & Hnot & ->)].
  - left. by exists k.
  - right. split; [done|]. destruct Hkind as (raw & Hraw & Hcall).
    by exists f, raw.
Qed.

(** X13. What a successful backward synchronisation has done: a follow was
    issued for every tracked URL that is not followed, with the identifier of
    the series to which the URL resolves; with deletion an unfollow was
    issued for every follow whose URL is not tracked; and the list of removed
    URLs holds exactly the URLs of the latter, so without deletion it is
    empty. *)
Theorem sync_series_backward_done {web : JncWeb} {remote : Remote}
    {nursery : Scheduler} (follows : list JNCResource)
    (tracked : pydict json) (is_delete : bool) (new del : list string) :
  (sync_series_backward follows tracked is_delete).2 = Ok (new, del) →
  let issued := calls (sync_series_backward follows tracked is_delete).1 in
  (∀ k, k ∈ dict_keys tracked → k ∉ (url <$> follows) →
        ∃ series,
          resolve_series (resource_from_url k) = Ok series
          ∧ (Some (do_follow_task (resource_from_url k)),
             follow_series_call (series_id series)) ∈ issued)
  ∧ (is_delete = true →
     ∀ f, f ∈ follows → url f ∉ dict_keys tracked →
          ∃ raw,
            follow_raw_data f = Some raw
            ∧ (Some (do_undollow_task f), unfollow_series_call (follow_id raw))
              ∈ issued)
  ∧ (∀ u, u ∈ del
          ↔ is_delete = true ∧ u ∈ (url <$> follows) ∧ u ∉ dict_keys tracked).
Proof.
  rewrite sync_series_backward_unfold. cbv zeta. simpl.
  pose proof (elem_of_backward_tasks follows tracked is_delete) as Hin_ts.
  destruct (backward_start_effect (followed_index follows) (dict_keys tracked)
              (initial_world tracked) []) as (_ & _ & _ & Hds & _).
  cbv zeta in Hin_ts, Hds.
  set (st := foldl _ (initial_world tracked, []) (dict_keys tracked)) in *.
  set (ts := schedule _) in *.
  destruct (gather ts st.1).2 as [[]|e] eqn:Hg; [|done].
  intros [= <- <-]. split_and!.
  - intros k Hk Hnot. apply gather_follow_ok; [done|].
    apply Hin_ts. left. by exists k.
  - intros Hdel f Hf Hnot. apply gather_undollow_ok; [done|].
    apply Hin_ts. right. split; [done|]. by exists f.
  - intros u. split.
    + intros [Hu|(r & Hr & ->)]%gather_del_origin.
      * rewrite Hds in Hu. by apply elem_of_nil in Hu.
      * apply Hin_ts in Hr
          as [(k & _ & _ & [=])|(Hdel & f & Hf & Htr & [= <-])].
        split_and!; [done| |done]. apply list_elem_of_fmap. by exists r.
    + intros (Hdel & (f & -> & Hf)%list_elem_of_fmap & Htr).
      apply gather_undollow_ok; [done|]. apply Hin_ts. right.
      split; [done|]. by exists f.
Qed.

Lemma sync_series_backward_done_witness :
  ∃ raw,
    follow_raw_data (sample_follow "the-faraway-paladin") = Some raw
    ∧ (Some (do_undollow_task (sample_follow "the-faraway-paladin")),
       unfollow_series_call (follow_id raw))
      ∈ calls (sync_series_backward (web:=sample_jncweb)
                 (remote:=sample_remote) (nursery:=lifo_scheduler)
                 [sample_follow "the-faraway-paladin";
                  sample_follow "tearmoon-empire"] sample_tracked true).1.
Proof.
  destruct (sync_series_backward_done (web:=sample_jncweb)
              (remote:=sample_remote) (nursery:=lifo_scheduler)
              [sample_follow "the-faraway-paladin";
               sample_follow "tearmoon-empire"] sample_tracked true
              ["https://j-novel.club/series/tearmoon-empire"]
              ["https://j-novel.club/series/the-faraway-paladin"])
    as (_ & Hunfollow & _).
  { vm_compute. reflexivity. }
  apply (Hunfollow eq_refl).
  - apply elem_of_cons. by left.
  - apply (bool_decide_unpack _). vm_compute. exact I.
Defined.

(** a store that agrees with the follows leaves nothing to do *)
Lemma sync_series_backward_fixed {web : JncWeb} {remote : Remote}
    {nursery : Scheduler} (follows : list JNCResource)
    (tracked : pydict json) (is_delete : bool) :
  (∀ k, k ∈ dict_keys tracked → k ∈ (url <$> follows)) →
  (is_delete = true → ∀ f, f ∈ follows → url f ∈ dict_keys tracked) →
  (sync_series_backward follows tracked is_delete).2 = Ok ([], [])
  ∧ calls (sync_series_backward follows tracked is_delete).1 = [].
Proof.
  intros Htracked Hfollows.
  rewrite sync_series_backward_unfold. cbv zeta. simpl.
  pose proof (elem_of_backward_tasks follows tracked is_delete) as Hin_ts.
  destruct (backward_start_effect (followed_index follows) (dict_keys tracked)
              (initial_world tracked) []) as (_ & _ & Hns & Hds & Hc & _).
  cbv zeta in Hin_ts, Hns, Hds, Hc.
  set (st := foldl _ (initial_world tracked, []) (dict_keys tracked)) in *.
  set (ts := schedule _) in *.
  assert (ts = []) as ->.
  { apply elem_of_nil_inv. intros t.
    intros [(k & Hk & Hnot & _)|(Hdel & f & Hf & Hnot & _)]%Hin_ts.
    - by apply Hnot, Htracked.
    - by apply Hnot, Hfollows. }
  simpl. by rewrite Hns, Hds, Hc.
Qed.

(** X14. When the store and the follows agree, backward synchronisation does
    nothing: if every tracked URL is followed (and, with deletion, every
    follow is tracked) it issues no remote operation and returns two empty
    lists. *)
Theorem sync_series_backward_in_sync {web : JncWeb} {remote : Remote}
    {nursery : Scheduler} (follows : list JNCResource)
    (tracked : pydict json) (is_delete : bool) :
  (∀ k, k ∈ dict_keys tracked → k ∈ (url <$> follows)) →
  (is_delete = true → ∀ f, f ∈ follows → url f ∈ dict_keys tracked) →
  (sync_series_backward follows tracked is_delete).2 = Ok ([], [])
  ∧ calls (sync_series_backward follows tracked is_delete).1 = [].
Proof. apply sync_series_backward_fixed. Qed.

Lemma sync_series_backward_in_sync_witness :
  calls (sync_series_backward (web:=sample_jncweb) (remote:=sample_remote)
           (nursery:=fifo_scheduler)
           [sample_follow "tearmoon-empire"; sample_follow "new-one";
            sample_follow "ascendance-of-a-bookworm"] sample_tracked false).1
  = [].
Proof.
  refine (proj2 (sync_series_backward_in_sync (web:=sample_jncweb)
                   (remote:=sample_remote) (nursery:=fifo_scheduler)
                   [sample_follow "tearmoon-empire"; sample_follow "new-one";
                    sample_follow "ascendance-of-a-bookworm"]
                   sample_tracked false _ _)).
  - intros k Hk. apply (bool_decide_unpack _).
    unfold sample_tracked, dict_keys in Hk. simpl in Hk.
    apply elem_of_cons in Hk as [->|Hk]; [vm_compute; exact I|].
    apply list_elem_of_singleton in Hk as ->. vm_compute. exact I.
  - intros [=].
Defined.

(** X15. Forward then backward: after a successful forward synchronisation
    with deletion, a backward synchronisation with the same follows has
    nothing left to do. It issues no remote operation and returns two empty
    lists, when the remote side resolves each follow to the series of its
    URL. *)
Theorem sync_series_forward_then_backward {web : JncWeb} {remote : Remote}
    {nursery : Scheduler} (follows : list JNCResource)
    (tracked : pydict json) (is_delete : bool) (new del : list string) :
  (∀ r series, r ∈ follows → resolve_series r = Ok series →
               series_key series = url r) →
  (sync_series_forward follows tracked true).2 = Ok (new, del) →
  let tracked' := tracked_series (sync_series_forward follows tracked true).1 in
  (sync_series_backward follows tracked' is_delete).2 = Ok ([], [])
  ∧ calls (sync_series_backward follows tracked' is_delete).1 = [].
Proof.
  intros Hcontract Hrun tracked'.
  destruct (sync_series_forward_keys follows tracked true new del
              Hcontract Hrun) as [Hfollows Htracked].
  apply sync_series_backward_fixed.
  - by apply Htracked.
  - intros _. apply Hfollows.
Qed.

Lemma sync_series_forward_then_backward_witness :
  calls
    (sync_series_backward (web:=sample_jncweb) (remote:=sample_remote)
       (nursery:=fifo_scheduler) sample_follows
       (tracked_series
          (sync_series_forward (web:=sample_jncweb) (remote:=sample_remote)
             (nursery:=fifo_scheduler) sample_follows sample_tracked true).1)
       true).1
  = [].
Proof.
  eapply (sync_series_forward_then_backward (web:=sample_jncweb)
            (remote:=sample_remote) (nursery:=fifo_scheduler)
            sample_follows sample_tracked true).
  - exact sample_resolves_to_url.
  - vm_compute. reflexivity.
Defined.

(** ** Loading after saving *)

Lemma dict_get_perm {V} (d d' : pydict V) k :
  d ≡ₚ d' → dict_wf d → dict_get k d = dict_get k d'.
Proof.
  intros Hperm Hwf.
  assert (dict_wf d') as Hwf'.
  { unfold dict_wf, dict_keys in *. by rewrite <-Hperm. }
  destruct (dict_get k d') as [v|] eqn:Hget.
  - apply dict_get_elem_wf; [done|]. rewrite Hperm.
    by apply dict_get_Some_elem.
  - apply dict_get_None. apply dict_get_None in Hget.
    unfold dict_keys in *. by rewrite Hperm.
Qed.

Lemma dict_get_fmap_value {V W} (f : V → W) (d : pydict V) k :
  dict_get k ((λ kv, (kv.1, f kv.2)) <$> d) = f <$> dict_get k d.
Proof.
  induction d as [|[k0 v0] d IH]; [done|].
  rewrite fmap_cons. simpl. by destruct (decide (k0 = k)).
Qed.

Lemma is_dict_sort_keys (value : json) :
  is_dict (sort_keys value) = is_dict value.
Proof. by destruct value. Qed.

Lemma fs_run_dirs ops fs :
  Forall (λ op, ∀ path, op ≠ op_mkdir path) ops →
  dirs (fs_run ops fs) = dirs fs.
Proof.
  revert fs. induction ops as [|op ops IH]; intros fs Hops; [done|].
  apply Forall_cons in Hops as [Hop Hops].
  change (fs_run (op :: ops) fs) with (fs_run ops (fs_step fs op)).
  rewrite IH by done.
  destruct op as [p|p|p chunk|p|src dst]; simpl; try done.
  - by destruct (Hop p).
  - by destruct (files fs !! src).
Qed.

Section StoreMore.
Context {encoder : JsonEncoder} {buffering : Buffering}.

(** before the move, a save writes to the temporary file only *)
Lemma write_tracked_series_front_only home temporary tracked path :
  path ≠ temporary →
  Forall (λ op, writes_to path op = false)
    (write_tracked_series_front home temporary tracked).
Proof.
  intros Hne. unfold write_tracked_series_front.
  apply Forall_app. split; [|apply Forall_app; split].
  - repeat constructor. simpl. apply bool_decide_eq_false. congruence.
  - apply Forall_fmap, Forall_true. intros chunk. simpl.
    apply bool_decide_eq_false. congruence.
  - by repeat constructor.
Qed.

Lemma write_tracked_series_files home temporary tracked fs :
  files (write_tracked_series home temporary tracked fs)
  = <[_tracked_series_filepath home := json_dumps tracked]>
      (delete temporary
         (files (fs_run (write_tracked_series_front home temporary tracked) fs))).
Proof.
  unfold write_tracked_series.
  rewrite write_tracked_series_ops_split, fs_run_app.
  change (fs_run [?op] ?fs) with (fs_step fs op). unfold fs_step at 1.
  by rewrite write_tracked_series_front_temporary.
Qed.
End StoreMore.

(** X16. A complete save changes the file system in three places only: the
    configuration directory exists afterwards, [tracked.json] holds the new
    text, and the temporary file is gone; every other file is as it was. The
    home directory exists and no file has the name of the configuration
    directory: the conditions under which [mkdir(parents=False,
    exist_ok=True)] does not raise. *)
Theorem write_tracked_series_frame {encoder : JsonEncoder}
    {buffering : Buffering} (home temporary : string) (tracked : pydict json)
    (fs : filesystem) :
  home ∈ dirs fs →
  files fs !! CONFIG_DIRPATH home = None →
  temporary ≠ _tracked_series_filepath home →
  let after := write_tracked_series home temporary tracked fs in
  dirs after = {[CONFIG_DIRPATH home]} ∪ dirs fs
  ∧ files after !! _tracked_series_filepath home = Some (json_dumps tracked)
  ∧ files after !! temporary = None
  ∧ (∀ path, path ≠ temporary → path ≠ _tracked_series_filepath home →
             files after !! path = files fs !! path).
Proof.
  intros _ _ Hne after. unfold after. clear after.
  rewrite write_tracked_series_files. split_and!.
  - unfold write_tracked_series.
    rewrite write_tracked_series_ops_split, fs_run_app.
    change (fs_run [?op] ?fs) with (fs_step fs op). unfold fs_step at 1.
    rewrite write_tracked_series_front_temporary. cbn [dirs].
    unfold write_tracked_series_front.
    change ([op_mkdir ?d; ?c] ++ ?rest) with ([op_mkdir d] ++ (c :: rest)).
    rewrite fs_run_app. rewrite fs_run_dirs; [done|].
    apply Forall_cons. split; [done|].
    apply Forall_app. split; [|by repeat constructor].
    apply Forall_fmap, Forall_true. done.
  - by rewrite lookup_insert_eq.
  - rewrite lookup_insert_ne by done. by rewrite lookup_delete_eq.
  - intros path Htmp Hpath.
    rewrite lookup_insert_ne, lookup_delete_ne by done.
    apply fs_run_other. by apply write_tracked_series_front_only.
Qed.

Lemma write_tracked_series_frame_witness :
  files (write_tracked_series (encoder:=sample_encoder)
           (buffering:=whole_buffer) "/home/reader"
           "/home/reader/.jncep/tmpk3f9a1" sample_tracked
           {| dirs := {["/home/reader"]};
              files := {["/home/reader/.jncep/tmpk3f9a1" := "left over"]} |})
    !! "/home/reader/.jncep/tmpk3f9a1"
  = None.
Proof.
  assert ("/home/reader/.jncep/tmpk3f9a1" ≠ _tracked_series_filepath "/home/reader")
    as Hne by (vm_compute; discriminate).
  destruct (write_tracked_series_frame (encoder:=sample_encoder)
              (buffering:=whole_buffer) "/home/reader"
              "/home/reader/.jncep/tmpk3f9a1" sample_tracked
              {| dirs := {["/home/reader"]};
                 files := {["/home/reader/.jncep/tmpk3f9a1" := "left over"]} |})
    as (_ & _ & Hgone & _).
  - simpl. by apply elem_of_singleton.
  - reflexivity.
  - exact Hne.
  - exact Hgone.
Defined.

(** X17. Loading after an interrupted save gives what loading before the
    save gave: as long as the last step of the save, the move, has not
    happened, [read_tracked_series] returns the same store or raises the same
    error as on the file system before the save. *)
Theorem read_tracked_series_after_interrupted {web : JncWeb} {text : PyStr}
    {decoder : JsonDecoder} {encoder : JsonEncoder} {buffering : Buffering}
    (home temporary : string) (tracked : pydict json) (fs : filesystem)
    (n : nat) :
  temporary ≠ _tracked_series_filepath home →
  (n < length (write_tracked_series_ops home temporary tracked))%nat →
  read_tracked_series home
    (write_tracked_series_interrupted home n temporary tracked fs)
  = read_tracked_series home fs.
Proof.
  intros Hne Hn.
  assert (files (write_tracked_series_interrupted home n temporary tracked fs)
            !! _tracked_series_filepath home
          = files fs !! _tracked_series_filepath home) as Hsame.
  { unfold write_tracked_series_interrupted.
    rewrite write_tracked_series_ops_split in Hn |- *.
    rewrite length_app in Hn. cbn [length] in Hn.
    rewrite take_app_le by lia.
    apply fs_run_other, Forall_take.
    by apply write_tracked_series_front_only. }
  unfold read_tracked_series. by rewrite Hsame.
Qed.

Lemma read_tracked_series_after_interrupted_witness :
  read_tracked_series (web:=sample_jncweb) (text:=ascii_str)
    (decoder:=sample_decoder [sort_keys (JObj sample_tracked)]) "/home/reader"
    (write_tracked_series_interrupted (encoder:=sample_encoder)
       (buffering:=whole_buffer) "/home/reader" 3
       "/home/reader/.jncep/tmpk3f9a1" sample_mixed_store
       {| dirs := {["/home/reader"]}; files := ∅ |})
  = read_tracked_series (web:=sample_jncweb) (text:=ascii_str)
      (decoder:=sample_decoder [sort_keys (JObj sample_tracked)]) "/home/reader"
      {| dirs := {["/home/reader"]}; files := ∅ |}.
Proof.
  apply (read_tracked_series_after_interrupted (web:=sample_jncweb) (text:=ascii_str)
           (decoder:=sample_decoder [sort_keys (JObj sample_tracked)])
           (encoder:=sample_encoder) (buffering:=whole_buffer)).
  - vm_compute. discriminate.
  - vm_compute. lia.
Defined.

(** X18. Loading after saving: when the parser reads back what the encoder
    wrote, a store in the current format (records under URLs that the
    rewriting of URLs leaves alone, no key twice) is loaded as it was saved.
    The migration changes nothing; the entries come back sorted by URL, each
    URL with the value that was saved, the members of every object sorted by
    key. *)
Theorem read_tracked_series_after_write {web : JncWeb} {text : PyStr}
    {decoder : JsonDecoder} {encoder : JsonEncoder} {buffering : Buffering}
    (home temporary : string) (tracked : pydict json) (fs : filesystem) :
  temporary ≠ _tracked_series_filepath home →
  json_load (json_dumps tracked) = Some (sort_keys (JObj tracked)) →
  dict_wf tracked →
  Forall (λ item, is_dict item.2 = true
                  ∧ to_new_website_series_url item.1 = item.1) tracked →
  ∃ stored,
    read_tracked_series home (write_tracked_series home temporary tracked fs)
    = Ok stored
    ∧ sort_keys (JObj tracked) = JObj stored
    ∧ StronglySorted key_le stored
    ∧ dict_keys stored ≡ₚ dict_keys tracked
    ∧ ∀ k, dict_get k stored = sort_keys <$> dict_get k tracked.
Proof.
  intros Hne Hload Hwf Hcur.
  set (g := λ kv : string * json, (kv.1, sort_keys kv.2)).
  exists (merge_sort key_le (g <$> tracked)).
  assert (sort_keys (JObj tracked) = JObj (merge_sort key_le (g <$> tracked)))
    as Hsorted by (simpl; by rewrite map_fmap).
  assert (dict_wf (g <$> tracked)) as Hwfg.
  { unfold dict_wf, dict_keys. by rewrite <-list_fmap_compose. }
  assert (dict_wf (merge_sort key_le (g <$> tracked))) as Hwfs.
  { unfold dict_wf, dict_keys. by rewrite merge_sort_Permutation. }
  split_and!.
  - unfold read_tracked_series.
    rewrite write_tracked_series_files, lookup_insert_eq, Hload, Hsorted.
    simpl. rewrite convert_current; [done..|].
    rewrite merge_sort_Permutation. apply Forall_fmap.
    eapply Forall_impl; [exact Hcur|]. intros [k v] [Hd Hk]. simpl in *.
    by rewrite is_dict_sort_keys.
  - done.
  - apply StronglySorted_merge_sort; apply _.
  - unfold dict_keys. rewrite merge_sort_Permutation.
    by rewrite <-list_fmap_compose.
  - intros k. rewrite <-dict_get_fmap_value.
    apply dict_get_perm; [apply merge_sort_Permutation|done].
Qed.

Lemma read_tracked_series_after_write_witness :
  ∃ stored,
    read_tracked_series (web:=sample_jncweb) (text:=ascii_str)
      (decoder:=sample_decoder [sort_keys (JObj sample_tracked)]) "/home/reader"
      (write_tracked_series (encoder:=sample_encoder)
         (buffering:=whole_buffer) "/home/reader"
         "/home/reader/.jncep/tmpk3f9a1" sample_tracked
         {| dirs := {["/home/reader"]}; files := ∅ |})
    = Ok stored
    ∧ dict_keys stored ≡ₚ dict_keys sample_tracked.
Proof.
  destruct (read_tracked_series_after_write (web:=sample_jncweb) (text:=ascii_str)
              (decoder:=sample_decoder [sort_keys (JObj sample_tracked)])
              (encoder:=sample_encoder) (buffering:=whole_buffer)
              "/home/reader" "/home/reader/.jncep/tmpk3f9a1" sample_tracked
              {| dirs := {["/home/reader"]}; files := ∅ |})
    as (stored & Hread & _ & _ & Hkeys & _).
  - vm_compute. discriminate.
  - vm_compute. reflexivity.
  - apply (bool_decide_unpack _). vm_compute. exact I.
  - apply (bool_decide_unpack _). vm_compute. exact I.
  - by exists stored.
Defined.

(** ** The EPUB of a book *)

Lemma string_app_length (s1 s2 : string) :
  String.length (s1 +:+ s2) = (String.length s1 + String.length s2)%nat.
Proof.
  induction s1 as [|c s1 IH]; [done|].
  change (S (String.length (s1 +:+ s2))
          = S (String.length s1 + String.length s2)).
  by rewrite IH.
Qed.

Lemma string_app_inj_r (t s1 s2 : string) : s1 +:+ t = s2 +:+ t → s1 = s2.
Proof.
  revert s2. induction s1 as [|c s1 IH]; intros [|c' s2] Heq; [done|..].
  - apply (f_equal String.length) in Heq.
    change (String c' s2 +:+ t) with (String c' (s2 +:+ t)) in Heq.
    simpl in Heq. rewrite !string_app_length in Heq. simpl in Heq. lia.
  - apply (f_equal String.length) in Heq.
    change (String c s1 +:+ t) with (String c (s1 +:+ t)) in Heq.
    simpl in Heq. rewrite !string_app_length in Heq. simpl in Heq. lia.
  - change (String c (s1 +:+ t) = String c' (s2 +:+ t)) in Heq.
    injection Heq as -> Heq. f_equal. by apply IH.
Qed.

Lemma chapter_step_raised book_details items :
  foldl (chapter_step book_details) None items = None.
Proof. induction items as [|item items IH]; [done|]. exact IH. Qed.

(** the loop over the contents, from the index [n] on *)
Lemma chapters_loop book_details book chapters n l :
  (n ≤ length (toc book_details))%nat →
  if decide (n + length l ≤ length (toc book_details))%nat then
    ∃ cs,
      foldl (chapter_step book_details) (Some (book, chapters))
        (enumerate_from n l)
      = Some (book ++ (add_item <$> cs), chapters ++ cs)
      ∧ length cs = length l
      ∧ ∀ i c, cs !! i = Some c →
          ∃ chapter_title content,
            toc book_details !! (n + i)%nat = Some chapter_title
            ∧ l !! i = Some content
            ∧ c = EpubHtml chapter_title
                    ("chap_" +:+ pretty (n + i)%nat +:+ ".xhtml") lang
                    content [css]
  else
    foldl (chapter_step book_details) (Some (book, chapters))
      (enumerate_from n l) = None.
Proof.
  revert n book chapters.
  induction l as [|x l IH]; intros n book chapters Hn.
  - simpl. rewrite decide_True by lia. exists [].
    rewrite !app_nil_r. by split_and!.
  - cbn [enumerate_from foldl length].
    destruct (decide (n + S (length l) ≤ length (toc book_details))%nat)
      as [Hle|Hgt].
    + destruct (lookup_lt_is_Some_2 (toc book_details) n) as [t Ht]; [lia|].
      unfold chapter_step at 2. simpl. rewrite Ht. simpl.
      specialize (IH (S n)
        (book ++ [add_item (EpubHtml t ("chap_" +:+ pretty n +:+ ".xhtml")
                              lang x [css])])
        (chapters ++ [EpubHtml t ("chap_" +:+ pretty n +:+ ".xhtml")
                        lang x [css]])).
      rewrite decide_True in IH by lia.
      destruct IH as (cs & -> & Hlen & Hcs); [lia|].
      exists (EpubHtml t ("chap_" +:+ pretty n +:+ ".xhtml") lang x [css] :: cs).
      split_and!.
      * by rewrite fmap_cons, <-!app_assoc.
      * simpl. by rewrite Hlen.
      * intros [|i] c; simpl.
        -- intros [= <-]. exists t, x. by rewrite Nat.add_0_r.
        -- intros Hc. destruct (Hcs i c Hc) as (t' & content & ? & ? & ->).
           exists t', content. by rewrite Nat.add_succ_r.
    + destruct (decide (n = length (toc book_details))) as [->|Hne].
      * unfold chapter_step at 2. simpl.
        rewrite (lookup_ge_None_2 (toc book_details)) by lia. simpl.
        apply chapter_step_raised.
      * destruct (lookup_lt_is_Some_2 (toc book_details) n) as [t Ht]; [lia|].
        unfold chapter_step at 2. simpl. rewrite Ht. simpl.
        specialize (IH (S n)
          (book ++ [add_item (EpubHtml t ("chap_" +:+ pretty n +:+ ".xhtml")
                                lang x [css])])
          (chapters ++ [EpubHtml t ("chap_" +:+ pretty n +:+ ".xhtml")
                          lang x [css]])).
        rewrite decide_False in IH by lia. apply IH. lia.
Qed.

(** the loop over the images *)
Lemma images_loop name book l :
  foldl (image_step name) book l
  = book ++ (add_item
               <$> ((λ image, EpubImage (local_filename image) "image/jpeg"
                                (content image))
                      <$> filter (λ image, local_filename image ≠ name) l)).
Proof.
  revert book. induction l as [|image l IH]; intros book.
  - simpl. by rewrite app_nil_r.
  - cbn [foldl]. rewrite IH.
    rewrite (filter_cons (λ image, local_filename image ≠ name)).
    unfold image_step.
    destruct (decide (local_filename image = name)) as [Heq|Hne].
    + by rewrite decide_False by (by intros ?).
    + rewrite decide_True by done. by rewrite !fmap_cons, <-app_assoc.
Qed.

Lemma added_items_app book1 book2 :
  added_items (book1 ++ book2) = added_items book1 ++ added_items book2.
Proof. apply omap_app. Qed.

Lemma added_items_add_item l : added_items (add_item <$> l) = l.
Proof. induction l as [|i l IH]; [done|]. simpl. by rewrite <-IH at 2. Qed.

Lemma added_images_app book1 book2 :
  added_images (book1 ++ book2) = added_images book1 ++ added_images book2.
Proof. apply omap_app. Qed.

Lemma added_images_images (l : list Image) :
  added_images
    (add_item <$> ((λ image, EpubImage (local_filename image) "image/jpeg"
                               (content image)) <$> l))
  = (λ image, EpubImage (local_filename image) "image/jpeg" (content image))
      <$> l.
Proof. induction l as [|a l IH]; [done|]. simpl. by rewrite <-IH at 2. Qed.

Lemma added_images_chapters cs :
  (∀ c, c ∈ cs → ∃ t f l b k, c = EpubHtml t f l b k) →
  added_images (add_item <$> cs) = [].
Proof.
  induction cs as [|c cs IH]; intros Hcs; [done|].
  destruct (Hcs c) as (t & f & l & b & k & ->); [apply elem_of_cons; by left|].
  simpl. apply IH. intros c' Hc'. apply Hcs, elem_of_cons. by right.
Qed.

(** the book that [output_epub] hands to [write_epub] *)
Lemma output_epub_unfold output_filepath book_details :
  if decide (length (contents book_details) ≤ length (toc book_details))%nat
  then
    ∃ chapters,
      output_epub output_filepath book_details
      = write_epub output_filepath
          ([set_identifier (identifier book_details);
            set_title (title book_details);
            set_language lang;
            add_author (author book_details);
            add_metadata "OPF" "belongs-to-collection"
              (collection_title (collection book_details))
              [("property", "belongs-to-collection");
               ("id", collection_id (collection book_details))];
            add_metadata "OPF" "collection-type" "series"
              [("property", "collection-type");
               ("refines", "#" +:+ collection_id (collection book_details))];
            add_metadata "OPF" "group-position"
              (pretty (position (collection book_details)))
              [("property", "group-position");
               ("refines", "#" +:+ collection_id (collection book_details))];
            set_cover (cover_image_filename book_details)
              (cover_content book_details) false;
            add_item css;
            add_item (cover_page (cover_image_filename book_details))]
           ++ (add_item
                 <$> ((λ image, EpubImage (local_filename image) "image/jpeg"
                                  (content image))
                        <$> filter (λ image, local_filename image
                                             ≠ cover_image_filename book_details)
                              (images book_details)))
           ++ (add_item <$> chapters)
           ++ [assign_toc chapters; add_item EpubNcx; add_item EpubNav;
               assign_spine
                 (spine_item (cover_page (cover_image_filename book_details))
                    :: spine_name "nav" :: (spine_item <$> chapters))])
      ∧ length chapters = length (contents book_details)
      ∧ ∀ i c, chapters !! i = Some c →
          ∃ chapter_title content,
            toc book_details !! i = Some chapter_title
            ∧ contents book_details !! i = Some content
            ∧ c = EpubHtml chapter_title ("chap_" +:+ pretty i +:+ ".xhtml")
                    lang content [css]
  else output_epub output_filepath book_details = IndexError.
Proof.
  unfold output_epub, enumerate. cbv zeta. rewrite images_loop.
  match goal with
  | |- context [foldl (chapter_step _) (Some (?b, [])) _] =>
      pose proof (chapters_loop book_details b [] 0
                    (contents book_details) (Nat.le_0_l _)) as Hloop
  end.
  simpl Nat.add in Hloop.
  destruct (decide (length (contents book_details)
                    ≤ length (toc book_details))%nat).
  - destruct Hloop as (cs & -> & Hlen & Hcs). exists cs.
    split_and!; [|done|done].
    simpl. by rewrite <-!app_assoc.
  - by rewrite Hloop.
Qed.

(** X19. [output_epub] fails with the error of [toc[i]] exactly when the
    table of contents has fewer titles than the book has contents; nothing
    is written then. Titles in excess are ignored. *)
Theorem output_epub_index_error (output_filepath : string)
    (book_details : BookDetails) :
  output_epub output_filepath book_details = IndexError
  ↔ (length (toc book_details) < length (contents book_details))%nat.
Proof.
  pose proof (output_epub_unfold output_filepath book_details) as Hu.
  destruct (decide (length (contents book_details)
                    ≤ length (toc book_details))%nat).
  - destruct Hu as (chapters & -> & _). split; [done|lia].
  - split; [lia|done].
Qed.

(** X20. The chapters of the book that [output_epub] writes: one per
    content, in order; the chapter of index [i] has the title [toc[i]], the
    content of index [i] and the file name [chap_i.xhtml], so no two chapters
    share a file name. The table of contents of the book is the list of the
    chapters, and its spine is the cover page, the navigation and then the
    chapters. *)
Theorem output_epub_chapters (output_filepath : string)
    (book_details : BookDetails) :
  (length (contents book_details) ≤ length (toc book_details))%nat →
  ∃ book chapters,
    output_epub output_filepath book_details = write_epub output_filepath book
    ∧ length chapters = length (contents book_details)
    ∧ (∀ i c, chapters !! i = Some c →
         ∃ chapter_title content,
           toc book_details !! i = Some chapter_title
           ∧ contents book_details !! i = Some content
           ∧ c = EpubHtml chapter_title ("chap_" +:+ pretty i +:+ ".xhtml")
                   "en" content [css])
    ∧ NoDup (file_name <$> chapters)
    ∧ (∀ c, c ∈ chapters → add_item c ∈ book)
    ∧ assign_toc chapters ∈ book
    ∧ last book
      = Some (assign_spine
                (spine_item (cover_page (cover_image_filename book_details))
                   :: spine_name "nav" :: (spine_item <$> chapters))).
Proof.
  intros Hle.
  pose proof (output_epub_unfold output_filepath book_details) as Hu.
  rewrite decide_True in Hu by done.
  destruct Hu as (chapters & Hout & Hlen & Hcs).
  eexists _, chapters. split; [exact Hout|]. split_and!; [done|done| | | |].
  - apply NoDup_alt. intros i j f Hi Hj.
    rewrite list_lookup_fmap in Hi, Hj.
    destruct (chapters !! i) as [ci|] eqn:Hci; [|done].
    destruct (chapters !! j) as [cj|] eqn:Hcj; [|done].
    destruct (Hcs i ci Hci) as (ti & xi & _ & _ & ->).
    destruct (Hcs j cj Hcj) as (tj & xj & _ & _ & ->).
    simpl in Hi, Hj. injection Hi as <-. injection Hj as Hj.
    change (pretty j +:+ ".xhtml" = pretty i +:+ ".xhtml") in Hj.
    apply string_app_inj_r in Hj. by apply (inj pretty) in Hj.
  - intros c Hc. rewrite !elem_of_app. right; right; left.
    apply list_elem_of_fmap. by exists c.
  - rewrite !elem_of_app. right; right; right. apply elem_of_cons. by left.
  - rewrite !app_assoc.
    change [assign_toc chapters; add_item EpubNcx; add_item EpubNav; ?x]
      with ([assign_toc chapters; add_item EpubNcx; add_item EpubNav] ++ [x]).
    rewrite app_assoc. apply last_snoc.
Qed.

Lemma output_epub_chapters_witness :
  ∃ (book : list book_call) (chapters : list epub_item),
    output_epub "the-faraway-paladin-volume-1.epub" sample_book_details
    = write_epub "the-faraway-paladin-volume-1.epub" book
    ∧ length chapters = 2%nat.
Proof.
  destruct (output_epub_chapters "the-faraway-paladin-volume-1.epub"
              sample_book_details) as (book & chapters & Hout & Hlen & _).
  - simpl. lia.
  - by exists book, chapters.
Defined.

(** X21. The images of the book that [output_epub] writes: the cover is set
    from the cover image, or under the name [cover.jpg] and without content
    when there is none; every image of the book whose file name is not that
    of the cover is added, in order, as a JPEG, and no image with the file
    name of the cover is added. The items are added in the order style
    sheet, cover page, images, chapters, and then the two navigation
    items. *)
Theorem output_epub_images (output_filepath output_filepath' : string)
    (book_details : BookDetails) (book : list book_call) :
  output_epub output_filepath book_details = write_epub output_filepath' book →
  output_filepath' = output_filepath
  ∧ set_cover (cover_image_filename book_details) (cover_content book_details)
      false ∈ book
  ∧ (cover_image book_details = None → set_cover "cover.jpg" None false ∈ book)
  ∧ added_images book
    = (λ image, EpubImage (local_filename image) "image/jpeg" (content image))
        <$> filter (λ image, local_filename image
                             ≠ cover_image_filename book_details)
              (images book_details)
  ∧ Forall (λ img, file_name img ≠ Some (cover_image_filename book_details))
      (added_images book)
  ∧ ∃ chapters,
      assign_toc chapters ∈ book
      ∧ added_items book
        = [css; cover_page (cover_image_filename book_details)]
            ++ added_images book ++ chapters ++ [EpubNcx; EpubNav].
Proof.
  intros Hout.
  pose proof (output_epub_unfold output_filepath book_details) as Hu.
  destruct (decide (length (contents book_details)
                    ≤ length (toc book_details))%nat);
    [|by rewrite Hu in Hout].
  destruct Hu as (chapters & Hbook & _ & Hcs).
  match type of Hbook with
  | _ = write_epub _ (?calls ++ _) => set (front := calls) in *
  end.
  rewrite Hbook in Hout.
  assert (output_filepath' = output_filepath) as -> by congruence.
  match type of Hout with
  | write_epub _ ?calls = _ => assert (book = calls) as -> by congruence
  end.
  clear Hout.
  assert (added_images (add_item <$> chapters) = []) as Hnone.
  { apply added_images_chapters. intros c [i Hi]%list_elem_of_lookup.
    destruct (Hcs i c Hi) as (t & x & _ & _ & ->). by eexists _, _, _, _, _. }
  assert (∀ before back,
            added_images
              (before
                 ++ (add_item
                       <$> ((λ image, EpubImage (local_filename image)
                                        "image/jpeg" (content image))
                              <$> filter (λ image, local_filename image
                                                   ≠ cover_image_filename
                                                       book_details)
                                    (images book_details)))
                 ++ (add_item <$> chapters) ++ back)
            = added_images before
                ++ ((λ image, EpubImage (local_filename image) "image/jpeg"
                                (content image))
                      <$> filter (λ image, local_filename image
                                           ≠ cover_image_filename book_details)
                            (images book_details))
                ++ added_images back) as Himages.
  { intros before back.
    by rewrite !added_images_app, added_images_images, Hnone. }
  split_and!; [done|..].
  - rewrite elem_of_app. left. unfold front. rewrite !elem_of_cons. tauto.
  - intros Hcover. rewrite elem_of_app. left.
    unfold front, cover_image_filename, cover_content. rewrite Hcover.
    rewrite !elem_of_cons. tauto.
  - rewrite Himages. unfold front. simpl. by rewrite app_nil_r.
  - rewrite Himages. unfold front. simpl. rewrite app_nil_r.
    apply Forall_fmap, Forall_forall.
    intros image [Hne _]%list_elem_of_filter. simpl. congruence.
  - exists chapters. split.
    + rewrite !elem_of_app. right; right; right. apply elem_of_cons. by left.
    + rewrite Himages. rewrite !added_items_app, !added_items_add_item.
      unfold front. simpl. by rewrite app_nil_r.
Qed.

Lemma output_epub_images_witness :
  added_images
    [set_identifier "the-faraway-paladin-volume-1";
     set_title "The Faraway Paladin: Volume 1";
     set_language "en"; add_author "Kanata Yanagino";
     add_metadata "OPF" "belongs-to-collection" "The Faraway Paladin"
       [("property", "belongs-to-collection"); ("id", "the-faraway-paladin")];
     add_metadata "OPF" "collection-type" "series"
       [("property", "collection-type"); ("refines", "#the-faraway-paladin")];
     add_metadata "OPF" "group-position" "1"
       [("property", "group-position"); ("refines", "#the-faraway-paladin")];
     set_cover "cover-v1.jpg" (Some "JFIF:cover") false;
     add_item css;
     add_item (cover_page "cover-v1.jpg");
     add_item (EpubImage "map.jpg" "image/jpeg" "JFIF:map");
     add_item (EpubHtml "Part 1" "chap_0.xhtml" "en" "<h1>Part 1</h1>" [css]);
     add_item (EpubHtml "Part 2" "chap_1.xhtml" "en" "<h1>Part 2</h1>" [css]);
     assign_toc
       [EpubHtml "Part 1" "chap_0.xhtml" "en" "<h1>Part 1</h1>" [css];
        EpubHtml "Part 2" "chap_1.xhtml" "en" "<h1>Part 2</h1>" [css]];
     add_item EpubNcx; add_item EpubNav;
     assign_spine
       [spine_item (cover_page "cover-v1.jpg"); spine_name "nav";
        spine_item
          (EpubHtml "Part 1" "chap_0.xhtml" "en" "<h1>Part 1</h1>" [css]);
        spine_item
          (EpubHtml "Part 2" "chap_1.xhtml" "en" "<h1>Part 2</h1>" [css])]]
  = [EpubImage "map.jpg" "image/jpeg" "JFIF:map"].
Proof.
  refine (proj1 (proj2 (proj2 (proj2
            (output_epub_images "the-faraway-paladin-volume-1.epub"
               "the-faraway-paladin-volume-1.epub" sample_book_details _ _))))).
  vm_compute. reflexivity.
Defined.

(** ** The name given to a legacy entry *)

Lemma to_upper_hyphen c : c ≠ "-"%char → to_upper c ≠ "-"%char.
Proof. destruct c as [[] [] [] [] [] [] [] []]; vm_compute; congruence. Qed.

Lemma to_lower_hyphen c : c ≠ "-"%char → to_lower c ≠ "-"%char.
Proof. destruct c as [[] [] [] [] [] [] [] []]; vm_compute; congruence. Qed.

Lemma str_replace_length old new s :
  String.length (str_replace old new s) = String.length s.
Proof. induction s as [|c s IH]; simpl; [done|]. by rewrite IH. Qed.

Lemma title_from_length b s :
  String.length (title_from b s) = String.length s.
Proof.
  revert b. induction s as [|c s IH]; intros b; simpl; [done|].
  destruct (is_lower c); [|destruct (is_upper c)]; simpl; by rewrite IH.
Qed.

Lemma str_replace_hyphen s i :
  String.get i (str_replace "-" " " s) ≠ Some "-"%char.
Proof.
  revert i. induction s as [|c s IH]; intros i; simpl; [done|].
  destruct i as [|i]; [|apply IH].
  destruct (decide (c = "-"%char)); congruence.
Qed.

Lemma title_from_hyphen b s :
  (∀ i, String.get i s ≠ Some "-"%char) →
  ∀ i, String.get i (title_from b s) ≠ Some "-"%char.
Proof.
  revert b. induction s as [|c s IH]; intros b Hs i; simpl; [done|].
  assert (c ≠ "-"%char) as Hc by (intros ->; by apply (Hs 0%nat)).
  assert (∀ i, String.get i s ≠ Some "-"%char) as Hs'
    by (intros j; apply (Hs (S j))).
  destruct (is_lower c); [|destruct (is_upper c)];
    (destruct i as [|i]; simpl; [|by apply IH]); destruct b;
    try (intros [= ?]; done).
  - intros [= Hu]. by apply (to_upper_hyphen c).
  - intros [= Hl]. by apply (to_lower_hyphen c).
Qed.

Lemma str_replace_ascii s :
  is_ascii s = true → is_ascii (str_replace "-" " " s) = true.
Proof.
  unfold is_ascii. induction s as [|c s IH]; [done|].
  simpl. intros [Hc Hs]%andb_prop.
  rewrite (IH Hs), andb_true_r. by destruct (decide (c = "-"%char)).
Qed.

(** X22. The record built for a legacy entry keeps the stored value as its
    part. When the slug is ASCII text, its name is the slug with every hyphen
    replaced by a space and every word capitalised: the name has the length
    of the slug and contains no hyphen. *)
Theorem legacy_entry_name {text : PyStr} (series_slug : string)
    (value : json) :
  is_ascii series_slug = true →
  ∃ name,
    legacy_entry series_slug value = JObj [("name", JStr name); ("part", value)]
    ∧ name = title_from false (str_replace "-" " " series_slug)
    ∧ String.length name = String.length series_slug
    ∧ ∀ i, String.get i name ≠ Some "-"%char.
Proof.
  intros Hascii. exists (title_from false (str_replace "-" " " series_slug)).
  split_and!.
  - unfold legacy_entry. by rewrite str_title_ascii by by apply str_replace_ascii.
  - done.
  - by rewrite title_from_length, str_replace_length.
  - apply title_from_hyphen, str_replace_hyphen.
Qed.

Lemma legacy_entry_name_witness :
  ∃ name,
    legacy_entry (text:=ascii_str) "the-faraway-paladin" (JInt 5)
    = JObj [("name", JStr name); ("part", JInt 5)]
    ∧ name = "The Faraway Paladin".
Proof.
  destruct (legacy_entry_name (text:=ascii_str) "the-faraway-paladin" (JInt 5)
              eq_refl) as (name & Hentry & Hname & _).
  exists name. split; [exact Hentry|]. rewrite Hname. reflexivity.
Defined.

(** ** Forward synchronisation without deletion *)

Lemma gather_keys_prefix {web : JncWeb} {remote : Remote} ts w :
  ∃ added,
    dict_keys (tracked_series (gather ts w).1)
    = dict_keys (tracked_series w) ++ added.
Proof.
  revert w. induction ts as [|t ts IH]; intros w.
  - exists []. by rewrite app_nil_r.
  - rewrite gather_cons_world. destruct (IH (task_step t w)) as [added ->].
    destruct (task_step_tracked t w)
      as [->|(r & series & entry & _ & _ & _ & ->)]; [by exists added|].
    rewrite dict_keys_set.
    destruct (decide (series_key series ∈ dict_keys (tracked_series w)));
      [by exists added|].
    exists (series_key series :: added). by rewrite <-app_assoc.
Qed.

(** X23. Forward synchronisation without deletion only appends: the keys of
    the store before are a prefix of the keys after, in the same order. When
    it succeeds and the remote side resolves each follow to the series of its
    URL, the keys after are the tracked URLs together with the URLs of the
    follows, and the list of added URLs holds exactly the URLs of the follows
    that were not tracked. *)
Theorem sync_series_forward_appends {web : JncWeb} {remote : Remote}
    {nursery : Scheduler} (follows : list JNCResource)
    (tracked : pydict json) :
  let run := sync_series_forward follows tracked false in
  (∃ added, dict_keys (tracked_series run.1) = dict_keys tracked ++ added)
  ∧ ((∀ r series, r ∈ follows → resolve_series r = Ok series →
                  series_key series = url r) →
     ∀ new del, run.2 = Ok (new, del) →
       (∀ k, k ∈ dict_keys (tracked_series run.1)
             ↔ k ∈ dict_keys tracked ∨ k ∈ (url <$> follows))
       ∧ (∀ u, u ∈ new ↔ u ∈ (url <$> follows) ∧ u ∉ dict_keys tracked)).
Proof.
  intros run. unfold run. clear run.
  pose proof (sync_series_forward_unfold follows tracked false) as Hu.
  destruct (forward_gather follows tracked)
    as (Hmono & Horigin & Hnew & _ & _ & Hok).
  cbv zeta in Hu, Hmono, Horigin, Hnew, Hok.
  pose proof (gather_keys_prefix
                (schedule (foldl (forward_start tracked) [] follows))
                (initial_world tracked)) as Hprefix.
  set (w1 := (gather _ (initial_world tracked)).1) in *.
  split.
  - destruct (gather _ (initial_world tracked)).2; by rewrite Hu.
  - intros Hcontract new del.
    destruct (gather _ (initial_world tracked)).2 as [[]|e] eqn:Hg;
      rewrite Hu; [|done].
    simpl. intros [= <- _]. specialize (Hok eq_refl). split.
    + intros k. split.
      * intros [?|(r & series & Hr & _ & Hres & ->)]%Horigin; [by left|right].
        rewrite (Hcontract r series Hr Hres).
        apply list_elem_of_fmap. by exists r.
      * intros [Hk|(r & -> & Hr)%list_elem_of_fmap]; [by apply Hmono|].
        destruct (dict_in (url r) tracked) eqn:Htr.
        -- by apply Hmono, dict_in_true.
        -- destruct (Hok r Hr Htr) as (series & Hres & Hin & _).
           by rewrite <-(Hcontract r series).
    + intros u. split.
      * intros (r & series & Hr & Htr & Hres & ->)%Hnew.
        rewrite (Hcontract r series Hr Hres). split.
        -- apply list_elem_of_fmap. by exists r.
        -- by apply dict_in_false.
      * intros [(r & -> & Hr)%list_elem_of_fmap Htr%dict_in_false].
        destruct (Hok r Hr Htr) as (series & Hres & _ & Hin).
        by rewrite <-(Hcontract r series).
Qed.

(** ** The order of the store and of the lists after forward synchronisation *)

Section ForwardOrder.
Context {web : JncWeb} {remote : Remote} {nursery : Scheduler}.

Lemma gather_wf ts w :
  dict_wf (tracked_series w) → dict_wf (tracked_series (gather ts w).1).
Proof.
  revert w. induction ts as [|t ts IH]; intros w Hwf; [done|].
  rewrite gather_cons_world. apply IH.
  destruct (task_step_tracked t w)
    as [->|(r & series & entry & _ & _ & _ & ->)]; [done|].
  by apply dict_wf_set.
Qed.

Lemma list_filter_iff_in {A} (P1 P2 : A → Prop)
    `{!∀ x, Decision (P1 x), !∀ x, Decision (P2 x)} (l : list A) :
  (∀ x, x ∈ l → P1 x ↔ P2 x) → filter P1 l = filter P2 l.
Proof.
  induction l as [|a l IH]; intros Hiff; [done|].
  rewrite !filter_cons.
  rewrite IH by (intros x Hx; apply Hiff, elem_of_cons; by right).
  apply decide_ext, Hiff, elem_of_cons. by left.
Qed.

Lemma list_filter_all {A} (P : A → Prop) `{!∀ x, Decision (P x)} (l : list A) :
  (∀ x, x ∈ l → P x) → filter P l = l.
Proof.
  induction l as [|a l IH]; intros Hall; [done|].
  rewrite filter_cons_True by (apply Hall, elem_of_cons; by left).
  rewrite IH; [done|]. intros x Hx. apply Hall, elem_of_cons. by right.
Qed.

Lemma dict_keys_filter {V} (P : string → Prop) `{!∀ k, Decision (P k)}
    (d : pydict V) :
  dict_keys (filter (λ kv, P kv.1) d) = filter P (dict_keys d).
Proof.
  unfold dict_keys. induction d as [|[k v] d IH]; [done|].
  rewrite (filter_cons (λ kv : string * V, P kv.1)), fmap_cons.
  rewrite (filter_cons P). simpl.
  destruct (decide (P k)); [rewrite fmap_cons; f_equal|]; exact IH.
Qed.

(** the deletion loop in closed form, when it has not raised: the entries
    whose key is followed stay, in their order; the others are removed and
    reported in the order of the store *)
Lemma forward_delete_closed index items w :
  (forward_delete index items w).2 = Ok tt →
  let w' := (forward_delete index items w).1 in
  tracked_series w'
  = filter (λ kv, ¬ (kv.1 ∈ dict_keys items ∧ kv.1 ∉ dict_keys index))
      (tracked_series w)
  ∧ del_synced w'
    = del_synced w ++ filter (λ k, k ∉ dict_keys index) (dict_keys items).
Proof.
  revert w. induction items as [|[k v] items IH]; intros w.
  - simpl. intros _. split; [|by rewrite app_nil_r].
    symmetry. apply list_filter_all. intros kv _ [Hin _].
    by apply elem_of_nil in Hin.
  - change (dict_keys ((k, v) :: items)) with (k :: dict_keys items).
    rewrite forward_delete_cons.
    destruct (forward_delete_step_effect index w k v) as (Ht1 & _ & _ & _ & Hd1).
    cbv zeta in Ht1, Hd1.
    destruct (forward_delete_step index (k, v) w) as [w1 [[]|e]];
      simpl in Ht1, Hd1 |- *; [|done].
    intros Hok. destruct (IH w1 Hok) as [Ht Hd].
    cbv zeta in Ht, Hd. rewrite Ht, Hd, Ht1, Hd1.
    rewrite (filter_cons (λ k, k ∉ dict_keys index)).
    destruct (dict_in k index) eqn:Hidx.
    + apply dict_in_true in Hidx.
      rewrite decide_False by (by intros ?). split; [|done].
      apply list_filter_iff. intros [k' v']. simpl.
      rewrite elem_of_cons. split.
      * intros Hno [[->|Hin] Hnot]; [done|]. by apply Hno.
      * intros Hno [Hin Hnot]. apply Hno. split; [by right|done].
    + apply dict_in_false in Hidx. rewrite decide_True by done.
      split; [|by rewrite <-app_assoc].
      unfold dict_del. etrans; [apply list_filter_filter|].
      apply list_filter_iff. intros [k' v']. simpl.
      rewrite elem_of_cons. split.
      * intros [Hno Hne] [[->|Hin] Hnot]; [done|]. by apply Hno.
      * intros Hno. split.
        -- intros [Hin Hnot]. apply Hno. split; [by right|done].
        -- intros ->. apply Hno. split; [by left|done].
Qed.
End ForwardOrder.

(** X24. The order in which forward synchronisation with deletion leaves the
    store and reports what it removed. When it succeeds on a store without
    repeated key and the remote side resolves each follow to the series of
    its URL: the removed list is the list of the tracked URLs that are not
    followed, in the order of the store; the keys left are the tracked URLs
    that are followed, in the order of the store, and after them the URLs
    that were added; and an entry that stays keeps its value. *)
Theorem sync_series_forward_delete_order {web : JncWeb} {remote : Remote}
    {nursery : Scheduler} (follows : list JNCResource)
    (tracked : pydict json) (new del : list string) :
  dict_wf tracked →
  (∀ r series, r ∈ follows → resolve_series r = Ok series →
               series_key series = url r) →
  (sync_series_forward follows tracked true).2 = Ok (new, del) →
  let tracked' := tracked_series (sync_series_forward follows tracked true).1 in
  del = filter (λ k, k ∉ url <$> follows) (dict_keys tracked)
  ∧ (∃ added,
       dict_keys tracked'
       = filter (λ k, k ∈ url <$> follows) (dict_keys tracked) ++ added
       ∧ ∀ u, u ∈ added ↔ u ∈ new)
  ∧ (∀ k, k ∈ dict_keys tracked → k ∈ (url <$> follows) →
          dict_get k tracked' = dict_get k tracked).
Proof.
  intros Hwf Hcontract Hrun tracked'. unfold tracked'. clear tracked'.
  pose proof (sync_series_forward_unfold follows tracked true) as Hu.
  destruct (forward_gather follows tracked)
    as (Hmono & Horigin & Hnew & Hdel & _ & Hok).
  cbv zeta in Hu, Hmono, Horigin, Hnew, Hdel, Hok.
  pose proof (gather_keys_prefix
                (schedule (foldl (forward_start tracked) [] follows))
                (initial_world tracked)) as [added Hprefix].
  pose proof (gather_wf
                (schedule (foldl (forward_start tracked) [] follows))
                (initial_world tracked) Hwf) as Hwf1.
  assert (∀ k, dict_get k (tracked_series
                 (gather (schedule (foldl (forward_start tracked) [] follows))
                    (initial_world tracked)).1)
               = match dict_get k tracked with
                 | Some v => Some v
                 | None =>
                     dict_get k (tracked_series
                       (gather (schedule (foldl (forward_start tracked) []
                                            follows))
                          (initial_world tracked)).1)
                 end) as Hget.
  { intros k. destruct (dict_get k tracked) as [v|] eqn:Hk; [|done].
    rewrite gather_get_other; [done|].
    intros r series (r' & [= <-] & Hr & Htr)%elem_of_forward_tasks Hres <-.
    apply dict_in_false in Htr. apply Htr.
    rewrite <-(Hcontract r series Hr Hres).
    apply dict_get_Some_elem in Hk.
    apply list_elem_of_fmap. by exists (series_key series, v). }
  set (w1 := (gather _ (initial_world tracked)).1) in *.
  destruct (gather _ (initial_world tracked)).2 as [[]|e] eqn:Hg;
    rewrite Hu in Hrun |- *; [|done].
  specialize (Hok eq_refl). clear Hu. simpl in Hrun |- *.
  pose proof (forward_delete_closed (followed_index follows)
                (tracked_series w1) w1) as Hclosed.
  destruct (forward_delete_frame (followed_index follows)
              (tracked_series w1) w1) as (Hn & _).
  cbv zeta in Hn.
  destruct (forward_delete (followed_index follows) (tracked_series w1) w1)
    as [w2 [[]|e]]; simpl in Hrun, Hclosed, Hn |- *; [|done].
  destruct (Hclosed eq_refl) as [Ht Hd]. clear Hclosed.
  injection Hrun as <- <-.
  simpl in Hprefix.
  assert (dict_keys (tracked_series w2)
          = filter (λ k, k ∈ url <$> follows) (dict_keys (tracked_series w1)))
    as Hkeys2.
  { rewrite Ht, <-(dict_keys_filter (λ k, k ∈ url <$> follows)). f_equal.
    apply list_filter_iff_in. intros [k v] Hin. simpl.
    rewrite elem_of_followed_index. split.
    - intros Hno. destruct (decide (k ∈ url <$> follows)); [done|].
      exfalso. apply Hno. split; [|done].
      apply list_elem_of_fmap. by exists (k, v).
    - intros Hk [_ Hnot]. done. }
  assert (∀ a, a ∈ added → a ∈ (url <$> follows) ∧ a ∉ dict_keys tracked)
    as Hadded.
  { intros a Ha.
    assert (a ∉ dict_keys tracked) as Hfresh.
    { unfold dict_wf in Hwf1. rewrite Hprefix in Hwf1.
      apply NoDup_app in Hwf1 as (_ & Hdisj & _). intros Hin.
      by apply (Hdisj a). }
    split; [|done].
    assert (a ∈ dict_keys (tracked_series w1)) as Hin
      by (rewrite Hprefix; apply elem_of_app; by right).
    apply Horigin in Hin as [?|(r & series & Hr & _ & Hres & ->)]; [done|].
    rewrite (Hcontract r series Hr Hres).
    apply list_elem_of_fmap. by exists r. }
  split_and!.
  - rewrite Hd, Hdel, app_nil_l, Hprefix, filter_app.
    assert (filter (λ k, k ∉ dict_keys (followed_index follows)) added = [])
      as ->.
    { apply elem_of_nil_inv. intros a [Hnot Ha]%list_elem_of_filter.
      apply Hnot, elem_of_followed_index. by apply Hadded. }
    rewrite app_nil_r. apply list_filter_iff. intros k.
    by rewrite elem_of_followed_index.
  - exists added. split.
    + rewrite Hkeys2, Hprefix, filter_app. f_equal.
      apply list_filter_all. intros a Ha. by apply Hadded.
    + intros u. rewrite Hn. split.
      * intros Hu. destruct (Hadded u Hu) as [(r & -> & Hr)%list_elem_of_fmap Hnot].
        apply dict_in_false in Hnot.
        destruct (Hok r Hr Hnot) as (series & Hres & _ & Hin).
        by rewrite <-(Hcontract r series).
      * intros (r & series & Hr & Htr & Hres & ->)%Hnew.
        apply dict_in_false in Htr.
        assert (series_key series ∈ dict_keys (tracked_series w1)) as Hin.
        { apply dict_in_false in Htr.
          by destruct (Hok r Hr Htr) as (series' & [= <-]%(eq_trans (eq_sym Hres))
                                         & Hin & _). }
        rewrite Hprefix in Hin. apply elem_of_app in Hin as [Hin|Hin]; [|done].
        exfalso. apply Htr. by rewrite <-(Hcontract r series Hr Hres).
  - intros k Hk Hfollowed.
    destruct (dict_get k tracked) as [v|] eqn:Hv;
      [|by apply dict_get_None in Hv].
    specialize (Hget k). rewrite Hv in Hget.
    apply dict_get_elem_wf.
    + unfold dict_wf. rewrite Hkeys2. by apply NoDup_filter.
    + rewrite Ht. apply list_elem_of_filter. split.
      * simpl. intros [_ Hnot]. apply Hnot.
        by apply elem_of_followed_index.
      * by apply dict_get_Some_elem.
Qed.

Lemma sync_series_forward_delete_order_witness :
  ["https://j-novel.club/series/ascendance-of-a-bookworm"]
  = filter (λ k, k ∉ url <$> sample_follows) (dict_keys sample_tracked).
Proof.
  refine (proj1 (sync_series_forward_delete_order (web:=sample_jncweb)
                   (remote:=sample_remote) (nursery:=fifo_scheduler)
                   sample_follows sample_tracked
                   ["https://j-novel.club/series/the-faraway-paladin";
                    "https://j-novel.club/series/new-one"]
                   ["https://j-novel.club/series/ascendance-of-a-bookworm"]
                   _ _ _)).
  - apply (bool_decide_unpack _). vm_compute. exact I.
  - exact sample_resolves_to_url.
  - vm_compute. reflexivity.
Defined.

Section ForwardAdded.
Context {web : JncWeb} {remote : Remote} {nursery : Scheduler}.

(** the tasks that [sync_series_forward] starts, in the order of the follows *)
Lemma forward_start_closed tracked follows acc :
  foldl (forward_start tracked) acc follows
  = acc ++ (do_track_task
              <$> filter (λ r, url r ∉ dict_keys tracked) follows).
Proof.
  revert acc. induction follows as [|f follows IH]; intros acc.
  - simpl. by rewrite app_nil_r.
  - cbn [foldl]. rewrite IH.
    rewrite (filter_cons (λ r, url r ∉ dict_keys tracked)).
    unfold forward_start. destruct (dict_in (url f) tracked) eqn:Hf.
    + apply dict_in_true in Hf. by rewrite decide_False by (by intros ?).
    + apply dict_in_false in Hf. rewrite decide_True by done.
      by rewrite fmap_cons, <-app_assoc.
Qed.

(** each tracking task that succeeds reports its series once *)
Lemma gather_track_new rs w :
  (∀ r series, r ∈ rs → resolve_series r = Ok series →
               series_key series = url r) →
  (gather (do_track_task <$> rs) w).2 = Ok tt →
  new_synced (gather (do_track_task <$> rs) w).1 = new_synced w ++ (url <$> rs).
Proof.
  revert w. induction rs as [|r rs IH]; intros w Hcontract Hok.
  - simpl. by rewrite app_nil_r.
  - rewrite fmap_cons in Hok |- *.
    apply gather_cons_ok in Hok as [Hok1 Hok2]. rewrite gather_cons_world.
    rewrite IH; [|intros r' series Hr'; apply Hcontract, elem_of_cons;
                  by right|done].
    destruct (task_step_effect (do_track_task r) w) as (_ & _ & _ & Ht).
    rewrite Hok1 in Ht. destruct Ht as (series & entry & Hres & _ & ->).
    rewrite (Hcontract r series); [|apply elem_of_cons; by left|done].
    by rewrite fmap_cons, <-app_assoc.
Qed.
End ForwardAdded.

(** X25. The list of added URLs that a successful forward synchronisation
    returns holds the URL of each follow that was not tracked once for each
    time the follow is listed, in the order in which the tasks completed: it
    is a permutation of the URLs of the untracked follows, when the remote
    side resolves each follow to the series of its URL. *)
Theorem sync_series_forward_added_once {web : JncWeb} {remote : Remote}
    {nursery : Scheduler} (follows : list JNCResource)
    (tracked : pydict json) (is_delete : bool) (new del : list string) :
  (∀ r series, r ∈ follows → resolve_series r = Ok series →
               series_key series = url r) →
  (sync_series_forward follows tracked is_delete).2 = Ok (new, del) →
  new ≡ₚ url <$> filter (λ r, url r ∉ dict_keys tracked) follows.
Proof.
  intros Hcontract Hrun.
  pose proof (sync_series_forward_unfold follows tracked is_delete) as Hu.
  cbv zeta in Hu. rewrite forward_start_closed, app_nil_l in Hu.
  pose proof (schedule_perm
                (do_track_task
                   <$> filter (λ r, url r ∉ dict_keys tracked) follows))
    as Hperm.
  rewrite <-map_fmap in Hperm at 2.
  apply Permutation_map_inv in Hperm as (rs & Hrs & Hperm).
  rewrite Hrs, (map_fmap do_track_task rs) in Hu. clear Hrs.
  assert (∀ r series, r ∈ rs → resolve_series r = Ok series →
                      series_key series = url r) as Hcontract'.
  { intros r series Hr. apply Hcontract.
    rewrite <-Hperm in Hr. by apply list_elem_of_filter in Hr as [_ Hr]. }
  pose proof (gather_track_new rs (initial_world tracked) Hcontract') as Hnew.
  destruct (gather (do_track_task <$> rs) (initial_world tracked)).2
    as [[]|e] eqn:Hg; rewrite Hu in Hrun; [|done].
  specialize (Hnew eq_refl). simpl in Hnew, Hrun.
  assert (new = url <$> rs) as ->.
  { destruct is_delete; [|by injection Hrun as <- _].
    destruct (forward_delete_frame (followed_index follows)
                (tracked_series (gather (do_track_task <$> rs)
                                   (initial_world tracked)).1)
                (gather (do_track_task <$> rs) (initial_world tracked)).1)
      as (Hn & _).
    cbv zeta in Hn.
    destruct (forward_delete _ _ _) as [w2 [[]|e]]; simpl in Hrun, Hn;
      [|done].
    injection Hrun as <- _. by rewrite Hn. }
  by rewrite <-Hperm.
Qed.

Lemma sync_series_forward_added_once_witness :
  ["https://j-novel.club/series/new-one";
   "https://j-novel.club/series/the-faraway-paladin"]
  ≡ₚ url <$> filter (λ r, url r ∉ dict_keys sample_tracked) sample_follows.
Proof.
  refine (sync_series_forward_added_once (web:=sample_jncweb)
            (remote:=sample_remote) (nursery:=lifo_scheduler)
            sample_follows sample_tracked true
            ["https://j-novel.club/series/new-one";
             "https://j-novel.club/series/the-faraway-paladin"]
            ["https://j-novel.club/series/ascendance-of-a-bookworm"] _ _).
  - exact sample_resolves_to_url.
  - vm_compute. reflexivity.
Defined.
